(** * tenv: release catalog client and version manager

    A shallow embedding of package [github] ([pkg/github/github.go], the
    paginated client of a GitHub-style release index) and of package
    [versionmanager] (the manager built on the [ReleaseInfoRetriever]
    interface), with the properties of the specification stated and proved
    over the embedding.

    Conventions
    - A Go result [(T, error)] is a pair [T * option error]; [None] is the
      [nil] error.  Go compares the sentinel errors by identity, which is
      equality of constructors here.
    - Go strings are byte strings: [string] with [String c s] for the first
      byte [c] and the rest [s].
    - Mutable collaborators (the network, the file system, the environment,
      the displayer) are threaded as explicit state. *)

From stdpp Require Import gmap strings list sorting.
From Stdlib Require Import ZArith Ascii DecimalString Sorted Permutation.

Set Warnings "-register-all".

(** ** Errors *)

Inductive error : Type :=
  | ErrReturn                (* apierrors.ErrReturn: unexpected API answer *)
  | ErrAsset                 (* apierrors.ErrAsset: asset not found *)
  | errContinue              (* github.errContinue: keep paging *)
  | errEmptyVersion
  | errNoCompatible
  | ErrNoCompatibleLocally
  | ErrNotExist              (* fs.ErrNotExist (ENOENT) *)
  | ENOTDIR
  | EISDIR
  | ErrForeign (msg : string). (* an error made by a collaborator *)

#[global] Instance error_eq_dec : EqDecision error.
Proof. solve_decision. Defined.

(** [strconv.Itoa] on the unbounded integers. *)
Definition Itoa (i : Z) : string := NilZero.string_of_int (Z.to_int i).

(** * The release catalog client *)

Module Github.

(** The dynamic value [json.Unmarshal] stores in an [any]. *)
Inductive any : Type :=
  | JNull
  | JBool (b : bool)
  | JNumber (n : Z)
  | JString (s : string)
  | JArray (values : list any)
  | JObject (object : gmap string any).

(** [value.(map[string]any)] with the comma-ok flag dropped: the nil map
    when the assertion fails, every lookup of which is nil. *)
Definition asObject (value : any) : gmap string any :=
  match value with
  | JObject object => object
  | _ => ∅
  end.

(** [object[key].(string)] *)
Definition asString (value : option any) : option string :=
  match value with
  | Some (JString s) => Some s
  | _ => None
  end.

(** [value.([]any)] *)
Definition asArray (value : any) : option (list any) :=
  match value with
  | JArray values => Some values
  | _ => None
  end.

Definition pageQuery : string := "?page=".

(** What the transport hands back.  The body is represented by what
    [io.ReadAll] followed by [json.Unmarshal] makes of it. *)
Inductive Body : Type :=
  | BodyUnreadable (err : error)
  | BodyMalformed (err : error)
  | BodyJSON (value : any).

Record Response : Type := { StatusCode : Z; ResponseBody : Body }.

Record Request : Type :=
  { Method : string; URL : string; Header : gmap string string }.

Definition buildAuthorizationHeader (token : string) : string :=
  if decide (token = "") then "" else "Bearer " +:+ token.

Definition extractVersion (value : any) : string * bool :=
  let object := asObject value in
  let version := default "" (asString (object !! "tag_name")) in
  match version with
  | "" => ("", false)
  | String c rest =>
      (* version returned without starting 'v' *)
      if decide (c = "v"%char) then (rest, true) else (version, true)
  end.

Fixpoint extractReleases_range (releases : list string) (values : list any)
  : list string * option error :=
  match values with
  | [] => (releases, Some errContinue)
  | value :: values' =>
      let '(version, ok) := extractVersion value in
      if ok then extractReleases_range (releases ++ [version]) values'
      else ([], Some ErrReturn)
  end.

Definition extractReleases (releases : list string) (value : any)
  : list string * option error :=
  match asArray value with
  | None => ([], Some ErrReturn)
  | Some [] => (releases, None)
  | Some values => extractReleases_range releases values
  end.

(** The [for _, value := range values] loop of [extractAssets]; [assets]
    is the map the caller owns, updated in place, so it is returned along
    with the error. *)
Fixpoint extractAssets_range (assets : gmap string string)
    (searchedAssetNameSet : gset string) (waited : nat) (values : list any)
  : gmap string string * option error :=
  match values with
  | [] => (assets, Some errContinue)
  | value :: values' =>
      let object := asObject value in
      match asString (object !! "name") with
      | None => (assets, Some ErrReturn)
      | Some assetName =>
          if decide (assetName ∈ searchedAssetNameSet) then
            match asString (object !! "browser_download_url") with
            | None => (assets, Some ErrReturn)
            | Some downloadURL =>
                let assets := <[assetName := downloadURL]> assets in
                if decide (size assets = waited) then (assets, None)
                else extractAssets_range assets searchedAssetNameSet waited values'
            end
          else extractAssets_range assets searchedAssetNameSet waited values'
      end
  end.

Definition extractAssets (assets : gmap string string)
    (searchedAssetNameSet : gset string) (waited : nat) (value : any)
  : gmap string string * option error :=
  match asArray value with
  | None => (assets, Some ErrReturn)
  | Some [] => (assets, Some ErrAsset)
  | Some values => extractAssets_range assets searchedAssetNameSet waited values
  end.

(** The request [apiGetRequest] makes: [http.NewRequest] and the three
    [Header.Set]; the header names are kept as the source writes them. *)
Definition requestFor (callURL authorizationHeader : string) : Request :=
  let header : gmap string string :=
    <["Accept" := "application/vnd.github+json"]> ∅ in
  let header :=
    if decide (authorizationHeader = "") then header
    else <["Authorization" := authorizationHeader]> header in
  let header := <["X-GitHub-Api-Version" := "2022-11-28"]> header in
  {| Method := "GET"; URL := callURL; Header := header |}.

(** The network and the URL library.
    - [url_JoinPath] is [net/url.JoinPath].
    - [url_Parse] is the parse of the URL inside [http.NewRequest], the one
      way that call fails for a GET without body.
    - [Do] is [http.DefaultClient.Do]; it is given the requests already
      sent, so a server may answer the same request differently later. *)
Class Network : Type :=
  { url_JoinPath : string → list string → string * option error;
    url_Parse : string → option error;
    Do : list Request → Request → error + Response }.

Section Client.

Context `{Network}.

(** The client state is the list of the requests sent, oldest first. *)
Definition apiGetRequest (callURL authorizationHeader : string)
    (sent : list Request) : (any * option error) * list Request :=
  match url_Parse callURL with
  | Some err => ((JNull, Some err), sent)
  | None =>
      let request := requestFor callURL authorizationHeader in
      match Do sent request with
      | inl err => ((JNull, Some err), sent ++ [request])
      | inr response =>
          match ResponseBody response with
          | BodyUnreadable err => ((JNull, Some err), sent ++ [request])
          | BodyMalformed err => ((JNull, Some err), sent ++ [request])
          | BodyJSON value => ((value, None), sent ++ [request])
          end
      end
  end.

(** The [for] loop of [DownloadAssetURL], one page per unit of fuel;
    [None] when the fuel runs out before the loop returns. *)
Fixpoint DownloadAssetURL_pages (fuel : nat) (page : Z)
    (assets : gmap string string) (searchedAssetNameSet : gset string)
    (waited : nat) (baseAssetsURL authorizationHeader : string)
    (sent : list Request)
  : option ((gmap string string * option error) * list Request) :=
  match fuel with
  | O => None
  | S fuel' =>
      let assetsURL := baseAssetsURL +:+ Itoa page in
      let '((value, err), sent) :=
        apiGetRequest assetsURL authorizationHeader sent in
      match err with
      | Some err => Some ((∅, Some err), sent)
      | None =>
          let '(assets, err) :=
            extractAssets assets searchedAssetNameSet waited value in
          match err with
          | None => Some ((assets, None), sent)
          | Some err =>
              if decide (err = errContinue) then
                DownloadAssetURL_pages fuel' (page + 1) assets
                  searchedAssetNameSet waited baseAssetsURL
                  authorizationHeader sent
              else Some ((∅, Some err), sent)
          end
      end
  end.

Definition DownloadAssetURL (fuel : nat) (tag : string)
    (searchedAssetNames : list string) (githubReleaseURL githubToken : string)
    (sent : list Request)
  : option ((gmap string string * option error) * list Request) :=
  let '(releaseUrl, err) := url_JoinPath githubReleaseURL ["tags"; tag] in
  match err with
  | Some err => Some ((∅, Some err), sent)
  | None =>
      let authorizationHeader := buildAuthorizationHeader githubToken in
      let '((value, err), sent) :=
        apiGetRequest releaseUrl authorizationHeader sent in
      match err with
      | Some err => Some ((∅, Some err), sent)
      | None =>
          let object := asObject value in
          match asString (object !! "assets_url") with
          | None => Some ((∅, Some ErrReturn), sent)
          | Some baseAssetsURL =>
              let waited := length searchedAssetNames in
              let searchedAssetNameSet : gset string :=
                list_to_set searchedAssetNames in
              DownloadAssetURL_pages fuel 1 ∅ searchedAssetNameSet waited
                (baseAssetsURL +:+ pageQuery) authorizationHeader sent
          end
      end
  end.

Definition LatestRelease (githubReleaseURL githubToken : string)
    (sent : list Request) : (string * option error) * list Request :=
  let '(latestUrl, err) := url_JoinPath githubReleaseURL ["latest"] in
  match err with
  | Some err => (("", Some err), sent)
  | None =>
      let authorizationHeader := buildAuthorizationHeader githubToken in
      let '((value, err), sent) :=
        apiGetRequest latestUrl authorizationHeader sent in
      match err with
      | Some err => (("", Some err), sent)
      | None =>
          let '(version, ok) := extractVersion value in
          if ok then ((version, None), sent)
          else (("", Some ErrReturn), sent)
      end
  end.

Fixpoint ListReleases_pages (fuel : nat) (page : Z) (releases : list string)
    (basePageURL authorizationHeader : string) (sent : list Request)
  : option ((list string * option error) * list Request) :=
  match fuel with
  | O => None
  | S fuel' =>
      let pageURL := basePageURL +:+ Itoa page in
      let '((value, err), sent) :=
        apiGetRequest pageURL authorizationHeader sent in
      match err with
      | Some err => Some (([], Some err), sent)
      | None =>
          let '(releases, err) := extractReleases releases value in
          match err with
          | None => Some ((releases, None), sent)
          | Some err =>
              if decide (err = errContinue) then
                ListReleases_pages fuel' (page + 1) releases basePageURL
                  authorizationHeader sent
              else Some (([], Some err), sent)
          end
      end
  end.

Definition ListReleases (fuel : nat) (githubReleaseURL githubToken : string)
    (sent : list Request)
  : option ((list string * option error) * list Request) :=
  let basePageURL := githubReleaseURL +:+ pageQuery in
  let authorizationHeader := buildAuthorizationHeader githubToken in
  ListReleases_pages fuel 1 [] basePageURL authorizationHeader sent.

(** The error of a request sent after [sent], if it has one: the transport
    fails, or the body cannot be read or decoded. *)
Definition failure (sent : list Request) (request : Request) : option error :=
  match Do sent request with
  | inl err => Some err
  | inr response =>
      match ResponseBody response with
      | BodyUnreadable err => Some err
      | BodyMalformed err => Some err
      | BodyJSON _ => None
      end
  end.

(** [surfaces sent sent' err]: from [sent] to [sent'] every request sent
    got a body that decodes, except possibly the last one; when the last
    one failed, its error is [err]. *)
Inductive surfaces : list Request → list Request → option error → Prop :=
  | surfaces_done sent err : surfaces sent sent err
  | surfaces_failed sent request err :
      failure sent request = Some err →
      surfaces sent (sent ++ [request]) (Some err)
  | surfaces_next sent request sent' err :
      failure sent request = None →
      surfaces (sent ++ [request]) sent' err →
      surfaces sent sent' err.

(** The value a request sent after [sent] is answered with, when the
    transport answers and the body decodes. *)
Definition decoded (sent : list Request) (request : Request) : option any :=
  match Do sent request with
  | inl _ => None
  | inr response =>
      match ResponseBody response with
      | BodyJSON value => Some value
      | _ => None
      end
  end.

(** [servesPages base authorizationHeader page sent pages]: asked for the
    pages from [page] on, after the requests [sent], the server answers
    with the arrays [pages], none of them empty, and then with the empty
    array. *)
Fixpoint servesPages (base authorizationHeader : string) (page : Z)
    (sent : list Request) (pages : list (list any)) : Prop :=
  let request := requestFor (base +:+ Itoa page) authorizationHeader in
  url_Parse (base +:+ Itoa page) = None ∧
  match pages with
  | [] => decoded sent request = Some (JArray [])
  | values :: pages' =>
      values ≠ [] ∧
      decoded sent request = Some (JArray values) ∧
      servesPages base authorizationHeader (page + 1) (sent ++ [request]) pages'
  end.

(** The requests for [count] pages from [page] on. *)
Definition pageRequests (base authorizationHeader : string) (page : Z)
    (count : nat) : list Request :=
  (λ page, requestFor (base +:+ Itoa page) authorizationHeader)
    <$> seqZ page (Z.of_nat count).

End Client.

(** The version of a release. *)
Definition versionOf (value : any) : string := (extractVersion value).1.

(** The versions of a page of releases. *)
Definition versionsOf (values : list any) : list string := versionOf <$> values.

(** A release with a tag that is not empty. *)
Definition tagged (value : any) : Prop := (extractVersion value).2 = true.

#[global] Instance tagged_dec value : Decision (tagged value).
Proof. unfold tagged. apply _. Defined.


End Github.

(** * The file system, the environment and the displayer *)

Module OS.

(** A file tree.  A path is the list of the names from the root. Symbolic
    links, permissions and the names [.] and [..] are not modelled, and a
    name holds no separator. *)
Definition path : Type := list string.

Inductive node : Type :=
  | File (content : string)
  | Dir (entries : gmap string node).

(** A Go path string: [Abs p] is [/p1/.../pn], [Rel p] is [p1/.../pn],
    taken from the working directory; [Rel []] is the empty string. *)
Inductive filename : Type :=
  | Abs (p : path)
  | Rel (p : path).

#[global] Instance filename_eq_dec : EqDecision filename.
Proof. solve_decision. Defined.

Definition nonEmpty (elems : list string) : list string :=
  filter (λ elem, elem ≠ "") elems.

(** The string of a path. *)
Definition showName (name : filename) : string :=
  match name with
  | Abs p => "/" +:+ String.concat "/" p
  | Rel p => String.concat "/" p
  end.

(** [filepath.Join]: empty elements are ignored. *)
Definition Join (base : filename) (elems : list string) : filename :=
  match base with
  | Abs p => Abs (p ++ nonEmpty elems)
  | Rel p => Rel (p ++ nonEmpty elems)
  end.

(** No file is named by the empty string. *)
Definition resolve (cwd : path) (name : filename) : option path :=
  match name with
  | Abs p => Some p
  | Rel [] => None
  | Rel p => Some (cwd ++ p)
  end.

(** Follow [p] down from [n]: the node found, [ErrNotExist] when a name is
    missing, [ENOTDIR] when the walk has to go through a file. *)
Fixpoint walk (n : node) (p : path) : error + node :=
  match p with
  | [] => inr n
  | name :: p' =>
      match n with
      | File _ => inl ENOTDIR
      | Dir entries =>
          match entries !! name with
          | None => inl ErrNotExist
          | Some child => walk child p'
          end
      end
  end.

Definition lookup (n : node) (p : path) : option node :=
  match walk n p with
  | inr found => Some found
  | inl _ => None
  end.

Definition isDir (n : node) : bool :=
  match n with
  | Dir _ => true
  | File _ => false
  end.

(** [os.MkdirAll]: make the missing directories along [p]; nothing to do
    if [p] is a directory; fails when a file is in the way. *)
Fixpoint mkdirAll (p : path) (n : node) : node * option error :=
  match n with
  | File _ => (n, Some ENOTDIR)
  | Dir entries =>
      match p with
      | [] => (n, None)
      | name :: p' =>
          let child := default (Dir ∅) (entries !! name) in
          let '(child', err) := mkdirAll p' child in
          match err with
          | Some _ => (n, err)
          | None => (Dir (<[name := child']> entries), None)
          end
      end
  end.

(** The tree after a file at [p] was opened for writing, which makes or
    empties it, and [content] written to it.  The parent must be a
    directory and the target must not be one: these are the errors of the
    opening, found before anything is changed. *)
Fixpoint writeAt (p : path) (content : string) (n : node)
  : node * option error :=
  match p with
  | [] => (n, Some EISDIR)
  | name :: p' =>
      match n with
      | File _ => (n, Some ENOTDIR)
      | Dir entries =>
          match p' with
          | [] =>
              match entries !! name with
              | Some (Dir _) => (n, Some EISDIR)
              | _ => (Dir (<[name := File content]> entries), None)
              end
          | _ =>
              match entries !! name with
              | None => (n, Some ErrNotExist)
              | Some child =>
                  let '(child', err) := writeAt p' content child in
                  match err with
                  | Some _ => (n, err)
                  | None => (Dir (<[name := child']> entries), None)
                  end
              end
          end
      end
  end.

(** What is observed of a run: the lines displayed, the flushes, and the
    calls made to the collaborators, in order.  The events other than
    [EvDisplay] and [EvFlush] are instrumentation of the call sites. *)
Inductive Event : Type :=
  | EvDisplay (msg : string)
  | EvFlush (proxyCall : bool)
  | EvGetenv (name : string)
  | EvRetrieveVersionFiles
  | EvRetrieveFlat (name : filename)
  | EvLockWrite (name : filename)
  | EvLockDelete (name : filename)
  | EvDisableExit
  | EvInstallRelease (version : string) (target : filename)
  | EvListReleases.

#[global] Instance Event_eq_dec : EqDecision Event.
Proof. solve_decision. Defined.

Record World : Type :=
  { fs : node;
    cwd : path;
    env : gmap string string;
    events : list Event }.

Definition emit (ev : Event) (w : World) : World :=
  {| fs := fs w; cwd := cwd w; env := env w; events := events w ++ [ev] |}.

Definition setFs (n : node) (w : World) : World :=
  {| fs := n; cwd := cwd w; env := env w; events := events w |}.

(** Computations over the world. *)
Definition M (A : Type) : Type := World → A * World.

Definition ret {A} (a : A) : M A := λ w, (a, w).

Definition bind {A B} (c : M A) (k : A → M B) : M B :=
  λ w, let '(a, w') := c w in k a w'.

Definition log (ev : Event) : M unit := λ w, (tt, emit ev w).

Definition Display (msg : string) : M unit := log (EvDisplay msg).

Definition Flush (proxyCall : bool) : M unit := log (EvFlush proxyCall).

(** [os.Getenv]: the empty string when the variable is not set. *)
Definition Getenv (name : string) : M string :=
  λ w, (default "" (env w !! name), emit (EvGetenv name) w).

Definition MkdirAll (name : filename) : M (option error) :=
  λ w, match resolve (cwd w) name with
       | None => (Some ErrNotExist, w)
       | Some p => let '(n, err) := mkdirAll p (fs w) in (err, setFs n w)
       end.

(** [os.Stat], of which the callers keep the error only. *)
Definition Stat (name : filename) : M (option error) :=
  λ w, match resolve (cwd w) name with
       | None => (Some ErrNotExist, w)
       | Some p =>
           match walk (fs w) p with
           | inl err => (Some err, w)
           | inr _ => (None, w)
           end
       end.

(** A [fs.DirEntry]. *)
Record DirEntry : Type := { Name : string; IsDir : bool }.

Definition dirEntries (entries : gmap string node) : list DirEntry :=
  (λ kv, {| Name := kv.1; IsDir := isDir kv.2 |})
    <$> merge_sort (λ a b : string * node, String.leb a.1 b.1)
          (map_to_list entries).

(** [os.ReadDir]: the entries of the directory, sorted by file name. *)
Definition ReadDir (name : filename) : M (list DirEntry * option error) :=
  λ w, match resolve (cwd w) name with
       | None => (([], Some ErrNotExist), w)
       | Some p =>
           match walk (fs w) p with
           | inl err => (([], Some err), w)
           | inr (File _) => (([], Some ENOTDIR), w)
           | inr (Dir entries) => ((dirEntries entries, None), w)
           end
       end.

(** The faults of the disk, which the tree does not decide.
    [os.WriteFile] opens the file, which makes or empties it, and writes
    afterwards; the writing can fail then (no space left, a quota, a fault
    of the device), and the file is left with the bytes written so far.
    [writeFault tree p content] is that error and the number of bytes
    written before it, [None] when the writing goes through. *)
Class Disk : Type :=
  { writeFault : node → path → string → option (error * nat) }.

(** [os.WriteFile]: the file is opened, and is made or emptied by that;
    the content is written; nothing is undone when the writing fails. *)
Definition WriteFile `{Disk} (name : filename) (content : string)
  : M (option error) :=
  λ w, match resolve (cwd w) name with
       | None => (Some ErrNotExist, w)
       | Some p =>
           match writeFault (fs w) p content with
           | None =>
               let '(n, err) := writeAt p content (fs w) in (err, setFs n w)
           | Some (fault, written) =>
               let '(n, err) :=
                 writeAt p (String.substring 0 written content) (fs w) in
               match err with
               | Some _ => (err, setFs n w)
               | None => (Some fault, setFs n w)
               end
           end
       end.

(** [os.RemoveAll]: the node and all it holds go; nothing to do when the
    node, or a directory on the way, is missing; a file on the way is the
    error of the first system call, with nothing removed.  [os.RemoveAll]
    removes what it can and returns the first error it met: asked for the
    root, it empties it and fails on the root itself.  Permissions are not
    modelled, so nothing below the node resists. *)
Fixpoint removeAll (p : path) (n : node) : node * option error :=
  match p with
  | [] =>
      (match n with Dir _ => Dir ∅ | File _ => n end,
       Some (ErrForeign "unlinkat /: device or resource busy"))
  | name :: p' =>
      match n with
      | File _ => (n, Some ENOTDIR)
      | Dir entries =>
          match p' with
          | [] => (Dir (delete name entries), None)
          | _ =>
              match entries !! name with
              | None => (n, None)
              | Some child =>
                  let '(child', err) := removeAll p' child in
                  match err with
                  | Some _ => (n, err)
                  | None => (Dir (<[name := child']> entries), None)
                  end
              end
          end
      end
  end.

(** [os.RemoveAll]; the empty path is no error. *)
Definition RemoveAll (name : filename) : M (option error) :=
  λ w, match resolve (cwd w) name with
       | None => (None, w)
       | Some p => let '(n, err) := removeAll p (fs w) in (err, setFs n w)
       end.

(** The node a file name leads to, if any. *)
Definition nodeAt (w : World) (name : filename) : option node :=
  match resolve (cwd w) name with
  | None => None
  | Some p => lookup (fs w) p
  end.

(** The names the tree is about: a name of one element, which is not empty,
    is not [.] or [..] and holds no separator; [filepath.Join] keeps such
    a name as it is. *)
Fixpoint hasSeparator (name : string) : bool :=
  match name with
  | "" => false
  | String c rest => bool_decide (c = "/"%char) || hasSeparator rest
  end.

Definition plainName (name : string) : Prop :=
  name ≠ "" ∧ name ≠ "." ∧ name ≠ ".." ∧ hasSeparator name = false.

End OS.

(** * The version manager *)

Module Manager.

Import OS.

Notation "'do' x <- c ;; k" := (bind c (λ x, k))
  (at level 10, x name, c at level 99, k at level 200).
Notation "'do' ' pat <- c ;; k" := (bind c (λ x, match x with pat => k end))
  (at level 10, pat pattern, c at level 99, k at level 200).
Notation "'run' c ;; k" := (bind c (λ _ : unit, k))
  (at level 10, c at level 99, k at level 200).

(** What a call leaves: a normal return, or a run-time panic. *)
Inductive outcome (A : Type) : Type :=
  | Returned (a : A)
  | Panicked (reason : string).
Arguments Returned {A} a.
Arguments Panicked {A} reason.

(** [config.Config], the fields the manager reads; the displayer is the
    event list of the world. *)
Record Config : Type :=
  { RootPath : filename;
    NoInstall : bool;
    ForceRemote : bool }.

(** Modelled from the spec: [types.VersionFile], a file name and the kind
    of parser that reads it (package [types] is not among the sources). *)
Inductive ParserKind : Type := FlatParser | IacParser.

Record VersionFile : Type := { FileName : string; Parser : ParserKind }.

(** [types.PredicateInfo] *)
Record PredicateInfo : Type :=
  { Predicate : string → bool;
    ReverseOrder : bool }.

(** The interface [ReleaseInfoRetriever].  The retriever works on the file
    tree and talks to the network; it is given the world it is called in,
    the events of which tell it what happened before, and hands back the
    tree it leaves. *)
Record ReleaseInfoRetriever : Type :=
  { InstallRelease : string → filename → World → node * option error;
    ListReleases : World → list string * option error }.

Record VersionManager : Type :=
  { conf : Config;
    constraintEnvName : string;
    FolderName : string;
    iacExts : list string;
    retriever : ReleaseInfoRetriever;
    VersionEnvName : string;
    defaultVersionEnvName : string;
    VersionFiles : list VersionFile }.

Definition Make (conf : Config) (constraintEnvName folderName : string)
    (iacExts : list string) (retriever : ReleaseInfoRetriever)
    (versionEnvName defaultVersionEnvName : string)
    (versionFiles : list VersionFile) : VersionManager :=
  {| conf := conf; constraintEnvName := constraintEnvName;
     FolderName := folderName; iacExts := iacExts; retriever := retriever;
     VersionEnvName := versionEnvName;
     defaultVersionEnvName := defaultVersionEnvName;
     VersionFiles := versionFiles |}.

(** [loghelper.Concat] *)
Definition Concat (parts : list string) : string := foldr String.append "" parts.

(** [strings.ToLower] on ASCII. *)
Definition lowerByte (c : ascii) : ascii :=
  let n := nat_of_ascii c in
  if bool_decide (65 ≤ n ≤ 90) then ascii_of_nat (n + 32) else c.

Fixpoint ToLower (s : string) : string :=
  match s with
  | "" => ""
  | String c s' => String (lowerByte c) (ToLower s')
  end.

(** Modelled from the spec: [reversecmp.Reverser] (package [reversecmp] is
    not among the sources), the comparator itself, or the comparator with
    its arguments swapped when the order is reversed. *)
Definition Reverser (cmp : string → string → Z) (reverseOrder : bool)
  : string → string → Z :=
  if reverseOrder then λ a b, cmp b a else cmp.

(** The line of [DisplayDetectionInfo]. *)
Definition detectionText (version source : string) : string :=
  Concat ["Resolved version from "; source; " : "; version].

(** Modelled from the spec: [types.DisplayDetectionInfo] (package [types]
    is not among the sources) displays a line that names the source of the
    version and gives the version back. *)
Definition DisplayDetectionInfo (version source : string) : M string :=
  run Display (detectionText version source);;
  ret version.

(** Modelled from the spec: [lockfile.Write] (package [lockfile] is not
    among the sources) takes the lock of the install directory.  One
    process runs, so the lock is taken at once; the lock file is kept out
    of the tree, and taking the lock is an event. *)
Definition lockfile_Write (dirPath : filename) : M unit :=
  log (EvLockWrite dirPath).

(** Modelled from the spec: the function [lockfile.Write] returns, which
    releases the lock. *)
Definition deleteLock (dirPath : filename) : M unit :=
  log (EvLockDelete dirPath).

(** Modelled from the spec: the function
    [lockfile.CleanAndExitOnInterrupt] returns, which disarms the handler
    of interrupts. *)
Definition disableExit : M unit := log EvDisableExit.

(** [err.Error()].  The texts of the errors of the manager are those of
    the source; an error of another package is shown by its name. *)
Definition errorText (err : error) : string :=
  match err with
  | ErrReturn => "ErrReturn"
  | ErrAsset => "ErrAsset"
  | errContinue => "continue"
  | errEmptyVersion => "empty version"
  | errNoCompatible => "no compatible version found"
  | ErrNoCompatibleLocally => "no compatible version found locally"
  | ErrNotExist => "ErrNotExist"
  | ENOTDIR => "ENOTDIR"
  | EISDIR => "EISDIR"
  | ErrForeign msg => msg
  end.

(** The packages the manager calls and that are not among the sources.
    - [NewVersion s] is [version.NewVersion(s)] followed by [String()]: the
      cleaned version, [None] when [s] is not a version.
    - [CmpVersion] is [semantic.CmpVersion].
    - [SortFunc] is [slices.SortFunc].
    - [ParsePredicate] is [semantic.ParsePredicate]; it may call the
      manager back, so it runs in the world.
    - [semantic_RetrieveVersion] and [flatparser_RetrieveVersion] read the
      tree and the environment and give the version found, an error, and
      the lines they display. *)
Class Packages : Type :=
  { NewVersion : string → option string;
    CmpVersion : string → string → Z;
    SortFunc : (string → string → Z) → list string → list string;
    ParsePredicate :
      string → VersionManager → M (PredicateInfo * option error);
    semantic_RetrieveVersion :
      list VersionFile → Config → node → path → gmap string string →
      (string * option error) * list string;
    flatparser_RetrieveVersion :
      filename → Config → node → path → gmap string string →
      (string * option error) * list string }.

Section Collaborators.

Context `{Packages} `{Disk}.

Definition displayAll (msgs : list string) : M unit :=
  λ w, (tt, foldl (λ w msg, emit (EvDisplay msg) w) w msgs).

(** (made lazy method : not always useful and allows flag override for root path). *)
Definition RootVersionFilePath (m : VersionManager) : filename :=
  Join (RootPath (conf m)) [FolderName m; "version"].

Definition RootConstraintFilePath (m : VersionManager) : filename :=
  Join (RootPath (conf m)) [FolderName m; "constraint"].

(** try to ensure the directory exists with a MkdirAll call. *)
Definition InstallPath (m : VersionManager) : M (filename * option error) :=
  let dirPath := Join (RootPath (conf m)) [FolderName m] in
  do err <- MkdirAll dirPath;;
  ret (dirPath, err).

Definition writeFile (filePath : filename) (content : string)
  : M (option error) :=
  do err <- WriteFile filePath content;;
  match err with
  | None =>
      run Display (Concat ["Written "; content; " in "; showName filePath]);;
      ret err
  | Some _ => ret err
  end.

Definition alreadyInstalledMsg (m : VersionManager) (version : string)
    (proxyCall : bool) : M unit :=
  run Display (Concat [FolderName m; " "; version; " already installed"]);;
  Flush proxyCall.

(** The line of [autoInstallDisabledMsg]. *)
Definition autoInstallDisabledText (m : VersionManager) (version : string)
  : string :=
  let cmdName := ToLower (FolderName m) in
  Concat ["Auto-install is disabled. To install "; FolderName m;
    " version "; version;
    ", you can set environment variable TENV_AUTO_INSTALL=true, or install it via any of the following command: 'tenv ";
    cmdName; " install', 'tenv "; cmdName; " install "; version; "'"].

Definition autoInstallDisabledMsg (m : VersionManager) (version : string)
  : M (option error) :=
  run Flush false;; (* Always normal display when installation is missing *)
  run Display (autoInstallDisabledText m version);;
  ret (Some ErrNoCompatibleLocally).

Definition checkVersionInstallation (m : VersionManager)
    (installPath : filename) (version : string)
  : M (filename * bool * option error) :=
  do '(installPath, err) <-
    (if decide (installPath = Rel []) then InstallPath m
     else ret (installPath, None));;
  match err with
  | Some _ => ret (Rel [], false, err)
  | None =>
      do err <- Stat (Join installPath [version]);;
      match err with
      | Some e =>
          if decide (e = ErrNotExist) then ret (installPath, false, None)
          else ret (Rel [], false, err)
      | None => ret (installPath, true, None)
      end
  end.

(** The two calls of the retriever, each recorded as an event. *)
Definition retriever_InstallRelease (m : VersionManager) (version : string)
    (targetPath : filename) : M (option error) :=
  λ w, let w := emit (EvInstallRelease version targetPath) w in
       let '(n, err) := InstallRelease (retriever m) version targetPath w in
       (err, setFs n w).

Definition retriever_ListReleases (m : VersionManager)
  : M (list string * option error) :=
  λ w, let w := emit EvListReleases w in (ListReleases (retriever m) w, w).

(** The [for _, entry := range entries] loop of [innerListLocal]. *)
Fixpoint dirNames (entries : list DirEntry) : list string :=
  match entries with
  | [] => []
  | entry :: entries' =>
      if IsDir entry then Name entry :: dirNames entries'
      else dirNames entries'
  end.

Definition innerListLocal (m : VersionManager) (installPath : filename)
    (reverseOrder : bool) : M (list string * option error) :=
  do '(entries, err) <- ReadDir installPath;;
  match err with
  | Some _ => ret ([], err)
  | None =>
      let versions := dirNames entries in
      let cmpFunc := Reverser CmpVersion reverseOrder in
      ret (SortFunc cmpFunc versions, None)
  end.

Definition installSpecificVersion (m : VersionManager) (version : string)
    (proxyCall : bool) : M (option error) :=
  if decide (version = "") then
    run Flush proxyCall;;
    ret (Some errEmptyVersion)
  else
    (* first check without lock *)
    do '(installPath, installed, err) <-
      checkVersionInstallation m (Rel []) version;;
    match err with
    | Some _ => ret err
    | None =>
        if installed : bool then
          run alreadyInstalledMsg m version proxyCall;;
          ret None
        else
          run lockfile_Write installPath;;
          do err <-
            ((* second check with lock to ensure there is no ongoing install *)
             do '(_, installed, err) <-
               checkVersionInstallation m installPath version;;
             match err with
             | Some _ => ret err
             | None =>
                 if installed : bool then
                   run alreadyInstalledMsg m version proxyCall;;
                   ret None
                 else
                   (* Always normal display when installation is needed *)
                   run Flush false;;
                   run Display (Concat ["Installing "; FolderName m; " "; version]);;
                   do err <- retriever_InstallRelease m version
                               (Join installPath [version]);;
                   match err with
                   | None =>
                       run Display (Concat ["Installation of "; FolderName m;
                                            " "; version; " successful"]);;
                       ret err
                   | Some _ => ret err
                   end
             end);;
          (* the deferred calls, last first *)
          run deleteLock installPath;;
          run disableExit;;
          ret err
    end.

Definition ListRemote (m : VersionManager) (reverseOrder : bool)
  : M (list string * option error) :=
  do '(versions, err) <- retriever_ListReleases m;;
  match err with
  | Some _ => ret ([], err)
  | None =>
      let cmpFunc := Reverser CmpVersion reverseOrder in
      ret (SortFunc cmpFunc versions, None)
  end.

(** The loops [for _, version := range versions] that return at the first
    version the predicate accepts are [List.find]. *)
Definition searchInstallRemote (m : VersionManager)
    (predicateInfo : PredicateInfo) (noInstall proxyCall : bool)
  : M (string * option error) :=
  do '(versions, err) <- ListRemote m (ReverseOrder predicateInfo);;
  match err with
  | Some _ =>
      run Flush proxyCall;;
      ret ("", err)
  | None =>
      match List.find (Predicate predicateInfo) versions with
      | Some version =>
          run Display ("Found compatible version remotely : " +:+ version);;
          if noInstall then
            do err <- autoInstallDisabledMsg m version;;
            ret (version, err)
          else
            do err <- installSpecificVersion m version proxyCall;;
            ret (version, err)
      | None =>
          run Flush proxyCall;;
          ret ("", Some errNoCompatible)
      end
  end.

(** Evaluate version resolution strategy or version constraint (can install
    depending on auto install env var). *)
Definition Evaluate (m : VersionManager) (requestedVersion : string)
    (proxyCall : bool) : M (string * option error) :=
  match NewVersion requestedVersion with
  | Some cleanedVersion => (* use a parsable version *)
      if NoInstall (conf m) then
        do '(_, installed, err) <- checkVersionInstallation m (Rel []) cleanedVersion;;
        match err with
        | Some _ => ret ("", err)
        | None =>
            if negb installed then
              do err <- autoInstallDisabledMsg m cleanedVersion;;
              ret (cleanedVersion, err)
            else
              run Flush proxyCall;;
              ret (cleanedVersion, None)
        end
      else
        do err <- installSpecificVersion m cleanedVersion proxyCall;;
        ret (cleanedVersion, err)
  | None =>
      do '(predicateInfo, err) <- ParsePredicate requestedVersion m;;
      match err with
      | Some _ =>
          run Flush proxyCall;;
          ret ("", err)
      | None =>
          do '(installPath, err) <- InstallPath m;;
          match err with
          | Some _ =>
              run Flush proxyCall;;
              ret ("", err)
          | None =>
              if negb (ForceRemote (conf m)) then
                do '(versions, err) <-
                  innerListLocal m installPath (ReverseOrder predicateInfo);;
                match err with
                | Some _ =>
                    run Flush proxyCall;;
                    ret ("", err)
                | None =>
                    match List.find (Predicate predicateInfo) versions with
                    | Some version =>
                        run Display ("Found compatible version installed locally : " +:+ version);;
                        run Flush proxyCall;;
                        ret (version, None)
                    | None =>
                        run Display "No compatible version found locally, search a remote one...";;
                        searchInstallRemote m predicateInfo (NoInstall (conf m)) proxyCall
                    end
                end
              else
                searchInstallRemote m predicateInfo (NoInstall (conf m)) proxyCall
          end
      end
  end.

Definition Install (m : VersionManager) (requestedVersion : string)
  : M (option error) :=
  match NewVersion requestedVersion with
  | Some cleanedVersion => installSpecificVersion m cleanedVersion false
  | None =>
      do '(predicateInfo, err) <- ParsePredicate requestedVersion m;;
      match err with
      | Some _ => ret err
      | None =>
          (* noInstall is set to false to force install regardless of conf *)
          do '(_, err) <- searchInstallRemote m predicateInfo false false;;
          ret err
      end
  end.

(** A parser reads the tree and the environment; its lines are displayed. *)
Definition consult {A} (parser : node → path → gmap string string → A * list string)
  : M A :=
  λ w, let '(a, msgs) := parser (fs w) (cwd w) (env w) in
       (a, (displayAll msgs w).2).

(** Search the requested version in version files. *)
Definition ResolveWithVersionFiles (m : VersionManager)
  : M (string * option error) :=
  run log EvRetrieveVersionFiles;;
  consult (semantic_RetrieveVersion (VersionFiles m) (conf m)).

Definition flatparser_RetrieveVersion_call (m : VersionManager)
    (filePath : filename) : M (string * option error) :=
  run log (EvRetrieveFlat filePath);;
  consult (flatparser_RetrieveVersion filePath (conf m)).

(** Search the requested version in version files (with fallbacks and env
    var overloading). *)
Definition Resolve (m : VersionManager) (defaultStrategy : string)
  : M (string * option error) :=
  do version <- Getenv (VersionEnvName m);;
  if decide (version ≠ "") then
    do version <- DisplayDetectionInfo version (VersionEnvName m);;
    ret (version, None)
  else
    do '(version, err) <- ResolveWithVersionFiles m;;
    if decide (err ≠ None ∨ version ≠ "") then ret (version, err)
    else
      do version <- Getenv (defaultVersionEnvName m);;
      if decide (version ≠ "") then
        do version <- DisplayDetectionInfo version (defaultVersionEnvName m);;
        ret (version, None)
      else
        do '(version, err) <-
          flatparser_RetrieveVersion_call m (RootVersionFilePath m);;
        if decide (err ≠ None ∨ version ≠ "") then ret (version, err)
        else
          run Display (Concat ["No version files found for "; FolderName m;
                               ", fallback to "; defaultStrategy; " strategy"]);;
          ret (defaultStrategy, None).

(** Detect version (resolve and evaluate, can install depending on auto
    install env var). *)
Definition Detect (m : VersionManager) (proxyCall : bool)
  : M (string * option error) :=
  do '(configVersion, err) <- Resolve m "latest-allowed";;
  match err with
  | Some _ =>
      run Flush proxyCall;;
      ret ("", err)
  | None => Evaluate m configVersion proxyCall
  end.

(** What follows the call of [Evaluate] in [Use] once its error is found
    harmless.  [m.VersionFiles[0]] is read before [workingDir] is looked
    at; it panics on an empty list. *)
Definition Use_write (m : VersionManager) (detectedVersion : string)
    (workingDir : bool) : M (outcome (option error)) :=
  match VersionFiles m with
  | [] => ret (Panicked "index out of range [0] with length 0")
  | versionFile :: _ =>
      let targetFilePath := Join (Rel []) [FileName versionFile] in
      let targetFilePath :=
        if negb workingDir then RootVersionFilePath m else targetFilePath in
      do err <- writeFile targetFilePath detectedVersion;;
      ret (Returned err)
  end.

Definition Use (m : VersionManager) (requestedVersion : string)
    (workingDir : bool) : M (outcome (option error)) :=
  do '(detectedVersion, err) <- Evaluate m requestedVersion false;;
  match err with
  | Some e =>
      if decide (e ≠ ErrNoCompatibleLocally) then ret (Returned err)
      else
        run Display (errorText e);;
        Use_write m detectedVersion workingDir
  | None => Use_write m detectedVersion workingDir
  end.

End Collaborators.

(** The install directory of the tool, and the directory of a version. *)
Definition InstallDir (m : VersionManager) : filename :=
  Join (RootPath (conf m)) [FolderName m].

Definition versionPath (m : VersionManager) (version : string) : filename :=
  Join (InstallDir m) [version].

(** A source of [Resolve] answers when it gives an error or a version. *)
Definition answers (r : (string * option error) * list string) : Prop :=
  r.1.2 ≠ None ∨ r.1.1 ≠ "".

#[global] Instance answers_dec r : Decision (answers r).
Proof. unfold answers. apply _. Defined.

(** The world after [alreadyInstalledMsg]. *)
Definition alreadyInstalled (m : VersionManager) (version : string)
    (proxyCall : bool) (w : World) : World :=
  emit (EvFlush proxyCall)
    (emit (EvDisplay (Concat [FolderName m; " "; version; " already installed"]))
       w).

(** The world in which [installSpecificVersion] calls the retriever: the
    lock is taken, the display flushed and the installation announced. *)
Definition installing (m : VersionManager) (version : string) (w : World)
  : World :=
  emit (EvInstallRelease version (versionPath m version))
    (emit (EvDisplay (Concat ["Installing "; FolderName m; " "; version]))
       (emit (EvFlush false) (emit (EvLockWrite (InstallDir m)) w))).

(** The world [installSpecificVersion] leaves once the retriever, called in
    [installing m version w], has returned the tree [n] and [err]. *)
Definition afterInstall (m : VersionManager) (version : string) (n : node)
    (err : option error) (w : World) : World :=
  emit EvDisableExit
    (emit (EvLockDelete (InstallDir m))
       match err with
       | None =>
           emit (EvDisplay (Concat ["Installation of "; FolderName m; " ";
                                    version; " successful"]))
             (setFs n (installing m version w))
       | Some _ => setFs n (installing m version w)
       end).

(** The calls made to the retriever, among the events. *)
Definition isRetrieverCall (ev : Event) : bool :=
  match ev with
  | EvInstallRelease _ _ | EvListReleases => true
  | _ => false
  end.

Definition retrieverCalls (evs : list Event) : list Event :=
  List.filter isRetrieverCall evs.

(** The contract of [InstallRelease]: when it returns no error, the target
    is a directory of the tree it leaves. *)
Definition installsTarget (r : ReleaseInfoRetriever) : Prop :=
  ∀ version target w n,
    InstallRelease r version target w = (n, None) →
    ∃ entries, nodeAt (setFs n w) target = Some (Dir entries).

(** What [slices.SortFunc] asks of its comparator: a strict weak ordering,
    given by the sign of the result. *)
Definition WeakOrder (cmp : string → string → Z) : Prop :=
  (∀ a b, cmp a b < 0 ↔ 0 < cmp b a)%Z ∧
  (∀ a b c, cmp a b ≤ 0 → cmp b c ≤ 0 → cmp a c ≤ 0)%Z.

(** What the manager relies on: [slices.SortFunc] permutes its slice, and
    sorts it when the comparator is a strict weak ordering;
    [semantic.CmpVersion] is one. *)
Class SortLaws `{Packages} : Prop :=
  { SortFunc_Permutation : ∀ cmp l, SortFunc cmp l ≡ₚ l;
    SortFunc_Sorted :
      ∀ cmp l, WeakOrder cmp →
        StronglySorted (λ a b, cmp a b ≤ 0)%Z (SortFunc cmp l);
    CmpVersion_WeakOrder : WeakOrder CmpVersion }.

(** ** Listing, uninstalling and the files of the root *)

(** [DatedVersion]; the time of last use is a number of seconds. *)
Record DatedVersion : Type := { UseDate : Z; Version : string }.

(** The levels [LocalSet] logs at: [hclog.Warn], and what
    [loghelper.LevelWarnOrDebug] makes of its argument. *)
Inductive Level : Type :=
  | Warn
  | LevelWarnOrDebug (notExist : bool).

(** A call of [Displayer.Log]. *)
Record LogRecord : Type :=
  { LogLevel : Level; LogMsg : string; LogErr : error }.

(** More packages that are not among the sources.
    - [lastuse_Read] is [lastuse.Read]: the time of last use kept in the
      directory of a version, and the lines it displays.
    - [SelectVersionsToUninstall] is [semantic.SelectVersionsToUninstall].
    - [flatparser_Retrieve] is [flatparser.Retrieve] with [flatparser.NoMsg].
    - [NewConstraint] is [version.NewConstraint], of which the error is
      kept. *)
Class Helpers : Type :=
  { lastuse_Read :
      filename → node → path → gmap string string → Z * list string;
    SelectVersionsToUninstall :
      string → filename → list string → node → path → gmap string string →
      (list string * option error) * list string;
    flatparser_Retrieve :
      filename → Config → node → path → gmap string string →
      (string * option error) * list string;
    NewConstraint : string → option error }.

Section Housekeeping.

Context `{Packages} `{Helpers} `{Disk}.

(** The [for _, version := range versions] loop of [ListLocal]. *)
Fixpoint ListLocal_range (installPath : filename) (versions : list string)
    (datedVersions : list DatedVersion) : M (list DatedVersion) :=
  match versions with
  | [] => ret datedVersions
  | version :: versions' =>
      do useDate <- consult (lastuse_Read (Join installPath [version]));;
      ListLocal_range installPath versions'
        (datedVersions ++ [{| UseDate := useDate; Version := version |}])
  end.

Definition ListLocal (m : VersionManager) (reverseOrder : bool)
  : M (list DatedVersion * option error) :=
  do '(installPath, err) <- InstallPath m;;
  match err with
  | Some _ => ret ([], err)
  | None =>
      do '(versions, err) <- innerListLocal m installPath reverseOrder;;
      match err with
      | Some _ => ret ([], err)
      | None =>
          do datedVersions <- ListLocal_range installPath versions [];;
          ret (datedVersions, None)
      end
  end.

(** The [for _, entry := range entries] loop of [LocalSet]. *)
Fixpoint LocalSet_range (entries : list DirEntry) (versionSet : gset string)
  : gset string :=
  match entries with
  | [] => versionSet
  | entry :: entries' =>
      if IsDir entry then LocalSet_range entries' ({[ Name entry ]} ∪ versionSet)
      else LocalSet_range entries' versionSet
  end.

(** [LocalSet]; the nil map is the empty set, and the calls of
    [Displayer.Log] are given back with the set. *)
Definition LocalSet (m : VersionManager) : M (gset string * list LogRecord) :=
  do '(installPath, err) <- InstallPath m;;
  match err with
  | Some e =>
      ret (∅, [ {| LogLevel := Warn;
                   LogMsg := "Can not create installation directory";
                   LogErr := e |} ])
  | None =>
      do '(entries, err) <- ReadDir installPath;;
      match err with
      | Some e =>
          ret (∅, [ {| LogLevel := LevelWarnOrDebug (bool_decide (e = ErrNotExist));
                       LogMsg := "Can not read installed versions";
                       LogErr := e |} ])
      | None => ret (LocalSet_range entries ∅, [])
      end
  end.

Definition flatparser_Retrieve_call (m : VersionManager) (filePath : filename)
  : M (string * option error) :=
  run log (EvRetrieveFlat filePath);;
  consult (flatparser_Retrieve filePath (conf m)).

Definition ReadDefaultConstraint (m : VersionManager) : M string :=
  do constraint <- Getenv (constraintEnvName m);;
  if decide (constraint ≠ "") then ret constraint
  else
    do '(constraint, _) <- flatparser_Retrieve_call m (RootConstraintFilePath m);;
    ret constraint.

Definition removeFile (filePath : filename) : M (option error) :=
  do err <- RemoveAll filePath;;
  match err with
  | None =>
      run Display ("Removed " +:+ showName filePath);;
      ret err
  | Some _ => ret err
  end.

Definition ResetConstraint (m : VersionManager) : M (option error) :=
  removeFile (RootConstraintFilePath m).

Definition ResetVersion (m : VersionManager) : M (option error) :=
  removeFile (RootVersionFilePath m).

Definition SetConstraint (m : VersionManager) (constraint : string)
  : M (option error) :=
  match NewConstraint constraint with (* check the use of a parsable constraint *)
  | Some err => ret (Some err)
  | None => writeFile (RootConstraintFilePath m) constraint
  end.

Definition uninstallSpecificVersion (m : VersionManager)
    (installPath : filename) (version : string) : M unit :=
  if decide (version = "") then Display (errorText errEmptyVersion)
  else
    let targetPath := Join installPath [version] in
    do err <- RemoveAll targetPath;;
    match err with
    | None =>
        Display (Concat ["Uninstallation of "; FolderName m; " "; version;
                         " successful (directory "; showName targetPath;
                         " removed)"])
    | Some e =>
        Display (Concat ["Uninstallation of "; FolderName m; " "; version;
                         " failed with error : "; errorText e])
    end.

(** The loops [for _, version := range ...] of [Uninstall] and
    [UninstallMultiple]. *)
Fixpoint uninstall_range (m : VersionManager) (installPath : filename)
    (versions : list string) : M unit :=
  match versions with
  | [] => ret tt
  | version :: versions' =>
      run uninstallSpecificVersion m installPath version;;
      uninstall_range m installPath versions'
  end.

(** [os.Stdin.Read] into a buffer of one byte, the error dropped: the byte
    read and the rest of the input; the buffer keeps its zero at the end of
    the input. *)
Definition readByte (stdin : string) : ascii * string :=
  match stdin with
  | "" => (zero, "")
  | String c rest => (c, rest)
  end.

(** [Uninstall]; the standard input is given, and what is left of it is
    given back. *)
Definition Uninstall (m : VersionManager) (requestedVersion : string)
    (stdin : string) : M (option error * string) :=
  do '(installPath, err) <- InstallPath m;;
  match err with
  | Some _ => ret (err, stdin)
  | None =>
      run lockfile_Write installPath;;
      do res <-
        (match NewVersion requestedVersion with (* check the use of a parsable version *)
         | Some cleanedVersion =>
             run uninstallSpecificVersion m installPath cleanedVersion;;
             ret (None, stdin)
         | None =>
             do '(versions, err) <- innerListLocal m installPath true;;
             match err with
             | Some _ => ret (err, stdin)
             | None =>
                 do '(selected, err) <-
                   consult (SelectVersionsToUninstall requestedVersion
                              installPath versions);;
                 match err with
                 | Some _ => ret (err, stdin)
                 | None =>
                     if decide (length selected = 0) then
                       run Display (Concat ["No matching "; FolderName m;
                                            " versions"]);;
                       ret (None, stdin)
                     else
                       run Display (Concat ["Selected "; FolderName m;
                                            " versions for uninstallation :"]);;
                       run Display (String.concat ", " selected);;
                       run Display "Uninstall ? [y/N]";;
                       let '(read, stdin) := readByte stdin in
                       if decide (read = "y"%char ∨ read = "Y"%char) then
                         run uninstall_range m installPath selected;;
                         ret (None, stdin)
                       else ret (None, stdin)
                 end
             end
         end);;
      (* the deferred calls, last first *)
      run deleteLock installPath;;
      run disableExit;;
      ret res
  end.

Definition UninstallMultiple (m : VersionManager) (versions : list string)
  : M (option error) :=
  do '(installPath, err) <- InstallPath m;;
  match err with
  | Some _ => ret err
  | None =>
      run lockfile_Write installPath;;
      run uninstall_range m installPath versions;;
      (* the deferred calls, last first *)
      run deleteLock installPath;;
      run disableExit;;
      ret None
  end.

End Housekeeping.

(** A computation is quiet when it leaves the tree, the working directory
    and the environment as they are and does not call the retriever. *)
Definition quiet {A} (c : M A) : Prop :=
  ∀ w, fs (c w).2 = fs w ∧ cwd (c w).2 = cwd w ∧ env (c w).2 = env w ∧
       retrieverCalls (events (c w).2) = retrieverCalls (events w).

(** The entries of the install directory once [versions] are uninstalled:
    the versions named are gone, the empty name apart. *)
Definition without (versions : list string) (entries : gmap string node)
  : gmap string node :=
  foldl (λ entries version, delete version entries) entries (nonEmpty versions).

(** The events of the lock among the events. *)
Definition isLockEvent (ev : Event) : bool :=
  match ev with
  | EvLockWrite _ | EvLockDelete _ | EvDisableExit => true
  | _ => false
  end.

End Manager.

(** * Sample collaborators

    Concrete servers, retrievers and parsers, on which the definitions
    above run. *)

Module Samples.

Import Github.

Definition release (tag : string) : any :=
  JObject {[ "tag_name" := JString tag ]}.

Definition asset (name url : string) : any :=
  JObject (<["name" := JString name]> {[ "browser_download_url" := JString url ]}).

(** A server that answers by the URL alone; [url.JoinPath] on plain path
    elements. *)
Definition staticNetwork (pages : string → option (Z * Body)) : Network :=
  {| url_JoinPath base elems := (String.concat "/" (base :: elems), None);
     url_Parse _ := None;
     Do _ request :=
       match pages (URL request) with
       | Some (code, body) =>
           inr {| StatusCode := code; ResponseBody := body |}
       | None => inl (ErrForeign "no such host")
       end |}.

Definition releasesURL : string := "https://api.example/releases".

(** The release tagged [vv1.0.0] is the latest and the only one. *)
Definition doubledPrefix : Network :=
  staticNetwork (λ url,
    if decide (url = "https://api.example/releases/latest")
    then Some (200, BodyJSON (release "vv1.0.0"))
    else if decide (url = "https://api.example/releases?page=1")
    then Some (200, BodyJSON (JArray [release "vv1.0.0"]))
    else if decide (url = "https://api.example/releases?page=2")
    then Some (200, BodyJSON (JArray []))
    else None)%Z.



(** A release with one asset [a] on the first page of assets; the second
    page is empty. *)
Definition oneAsset : Network :=
  staticNetwork (λ url,
    if decide (url = "https://api.example/releases/tags/v1.0.0")
    then Some (200, BodyJSON
           (JObject {[ "assets_url" := JString "https://api.example/assets" ]}))
    else if decide (url = "https://api.example/assets?page=1")
    then Some (200, BodyJSON (JArray [asset "a" "https://dl.example/a"]))
    else if decide (url = "https://api.example/assets?page=2")
    then Some (200, BodyJSON (JArray []))
    else None)%Z.

(** Two pages of releases, then the empty page; the host goes down after
    that. *)
Definition twoPages : Network :=
  staticNetwork (λ url,
    if decide (url = "https://api.example/releases?page=1")
    then Some (200, BodyJSON (JArray [release "v1.6.2"; release "v1.6.1"]))
    else if decide (url = "https://api.example/releases?page=2")
    then Some (200, BodyJSON (JArray [release "1.6.0"]))
    else if decide (url = "https://api.example/releases?page=3")
    then Some (200, BodyJSON (JArray []))
    else None)%Z.

(** ** A version library

    A stand-in for the version library: a version is one to three decimal
    numbers separated by dots, after an optional [v], with optional build
    metadata after a [+]; missing numbers are zero.  Pre-releases are left
    out. *)

Fixpoint split (sep : ascii) (s : string) : list string :=
  match s with
  | "" => [""]
  | String c s' =>
      if decide (c = sep) then "" :: split sep s'
      else match split sep s' with
           | first :: rest => String c first :: rest
           | [] => [String c ""]
           end
  end.

(** [strings.Cut] *)
Fixpoint cut (sep : ascii) (s : string) : string * option string :=
  match s with
  | "" => ("", None)
  | String c s' =>
      if decide (c = sep) then ("", Some s')
      else let '(before, after) := cut sep s' in (String c before, after)
  end.

Fixpoint digits (acc : N) (s : string) : option N :=
  match s with
  | "" => Some acc
  | String c s' =>
      let n := N_of_ascii c in
      if bool_decide (48 ≤ n ≤ 57)%N then digits (acc * 10 + (n - 48)) s'
      else None
  end.

Definition number (s : string) : option N :=
  if decide (s = "") then None else digits 0 s.

Record Version : Type := { Segments : list N; Metadata : option string }.

Definition parse (s : string) : option Version :=
  let s := match s with String "v" s' => s' | _ => s end in
  let '(core, metadata) := cut "+" s in
  if decide (metadata = Some "") then None
  else
    match mapM number (split "." core) with
    | Some [major] => Some {| Segments := [major; 0; 0]%N; Metadata := metadata |}
    | Some [major; minor] =>
        Some {| Segments := [major; minor; 0%N]; Metadata := metadata |}
    | Some [major; minor; patch] =>
        Some {| Segments := [major; minor; patch]; Metadata := metadata |}
    | _ => None
    end.

Definition render (v : Version) : string :=
  String.concat "." ((λ n, Itoa (Z.of_N n)) <$> Segments v)
  +:+ match Metadata v with
      | Some metadata => "+" +:+ metadata
      | None => ""
      end.

Fixpoint compareSegments (xs ys : list N) : Z :=
  match xs, ys with
  | [], [] => 0
  | [], _ :: _ => -1
  | _ :: _, [] => 1
  | x :: xs', y :: ys' =>
      match (x ?= y)%N with
      | Lt => -1
      | Gt => 1
      | Eq => compareSegments xs' ys'
      end
  end.

(** The numbers a name is ordered by; none for a name that is no
    version. *)
Definition key (s : string) : list N :=
  match parse s with
  | Some v => Segments v
  | None => []
  end.

(** Modelled from the spec: [semantic.CmpVersion] (package [semantic] is
    not among the sources), the semver comparator.  Versions are ordered by
    their numbers, build metadata does not count; names that are no
    versions are equal to one another and come before the versions. *)
Definition sampleCmpVersion (a b : string) : Z :=
  compareSegments (key a) (key b).

(** ** Sorting

    [insertionSortCmpFunc], which [slices.SortFunc] runs on a slice of
    at most twelve elements: each element in turn goes down while it is
    less than the one before it.  [sink cmp x sorted] puts [x] in the
    sorted part, given last element first. *)
Fixpoint sink (cmp : string → string → Z) (x : string) (sorted : list string)
  : list string :=
  match sorted with
  | [] => [x]
  | y :: sorted' =>
      if decide (cmp x y < 0)%Z then y :: sink cmp x sorted'
      else x :: y :: sorted'
  end.

Definition insertionSortCmpFunc (cmp : string → string → Z)
    (data : list string) : list string :=
  reverse (foldl (λ sorted x, sink cmp x sorted) [] data).

(** ** A retriever, parsers, and a manager *)

Import OS Manager.

(** Installs by making the target directory and a binary in it. *)
Definition sampleRetriever : ReleaseInfoRetriever :=
  {| InstallRelease version target w :=
       match resolve (cwd w) target with
       | None => (fs w, Some (ErrForeign "no target"))
       | Some p =>
           let '(n, err) := mkdirAll p (fs w) in
           match err with
           | Some _ => (fs w, err)
           | None => writeAt (p ++ ["tofu"]) ("tofu " +:+ version) n
           end
       end;
     ListReleases _ := (["1.5.0"; "1.6.2"; "1.6.0"], None) |}.

(** Reads the first version file of the working directory that exists. *)
Fixpoint sampleRetrieveVersion (versionFiles : list VersionFile) (conf : Config)
    (tree : node) (cwd : path) (env : gmap string string)
  : (string * option error) * list string :=
  match versionFiles with
  | [] => (("", None), [])
  | versionFile :: versionFiles' =>
      match lookup tree (cwd ++ [FileName versionFile]) with
      | Some (File content) =>
          ((content, None),
           [Concat ["Resolved version from "; FileName versionFile; " : "; content]])
      | _ => sampleRetrieveVersion versionFiles' conf tree cwd env
      end
  end.

Definition sampleFlatRetrieveVersion (filePath : filename) (conf : Config)
    (tree : node) (cwd : path) (env : gmap string string)
  : (string * option error) * list string :=
  match resolve cwd filePath with
  | None => (("", None), [])
  | Some p =>
      match lookup tree p with
      | Some (File content) =>
          ((content, None),
           [Concat ["Resolved version from "; showName filePath; " : "; content]])
      | Some (Dir _) => (("", Some EISDIR), [])
      | None => (("", None), [])
      end
  end.

(** Knows the strategy [latest] only. *)
Definition sampleParsePredicate (requested : string) (m : VersionManager)
  : M (PredicateInfo * option error) :=
  if decide (requested = "latest") then
    ret ({| Predicate := λ _, true; ReverseOrder := true |}, None)
  else
    ret ({| Predicate := λ _, false; ReverseOrder := false |},
         Some (ErrForeign "Malformed constraint")).

Definition samplePackages : Packages :=
  {| NewVersion s := render <$> parse s;
     CmpVersion := sampleCmpVersion;
     SortFunc := insertionSortCmpFunc;
     ParsePredicate := sampleParsePredicate;
     semantic_RetrieveVersion := sampleRetrieveVersion;
     flatparser_RetrieveVersion := sampleFlatRetrieveVersion |}.

Definition sampleConfig (noInstall : bool) : Config :=
  {| RootPath := Abs ["home"; "u"; ".tenv"];
     NoInstall := noInstall;
     ForceRemote := false |}.

Definition tofu (noInstall : bool) : VersionManager :=
  Make (sampleConfig noInstall) "TOFUENV_TOFU_DEFAULT_CONSTRAINT" "OpenTofu"
    [".tf"] sampleRetriever "TOFUENV_TOFU_VERSION"
    "TOFUENV_TOFU_DEFAULT_VERSION"
    [ {| FileName := ".opentofu-version"; Parser := FlatParser |};
      {| FileName := "main.tf"; Parser := IacParser |} ].

(** The same manager with no version file. *)
Definition nofile : VersionManager :=
  Make (sampleConfig false) "TOFUENV_TOFU_DEFAULT_CONSTRAINT" "OpenTofu"
    [".tf"] sampleRetriever "TOFUENV_TOFU_VERSION"
    "TOFUENV_TOFU_DEFAULT_VERSION" [].

Definition inHome (tenv project : gmap string node) (env : gmap string string)
  : World :=
  {| fs := Dir {[ "home" := Dir {[ "u" :=
             Dir (<[".tenv" := Dir tenv]> {[ "proj" := Dir project ]}) ]} ]};
     cwd := ["home"; "u"; "proj"];
     env := env;
     events := [] |}.

(** Nothing installed. *)
Definition fresh : World := inHome ∅ ∅ ∅.

(** Version 1.6.2 installed. *)
Definition installed : World :=
  inHome {[ "OpenTofu" := Dir {[ "1.6.2" := Dir {[ "tofu" := File "tofu 1.6.2" ]} ]} ]}
    ∅ ∅.

(** A plain file named like a version in the install directory. *)
Definition strayFile : World :=
  inHome {[ "OpenTofu" := Dir {[ "1.6.2" := File "" ]} ]} ∅ ∅.

(** Two installed versions that differ in build metadata only, and a
    plain file. *)
Definition twins : World :=
  inHome {[ "OpenTofu" :=
            Dir (<["1.0.0+a" := Dir ∅]>
                   (<["1.0.0+b" := Dir ∅]> {[ "version" := File "1.0.0+a" ]})) ]}
    ∅ ∅.

(** Three installed versions and a plain file. *)
Definition threeEntries : gmap string node :=
  <["1.6.0" := Dir ∅]>
    (<["1.10.0" := Dir ∅]>
       (<["1.5.7" := Dir ∅]> {[ "version" := File "1.6.0" ]})).

Definition three : World :=
  inHome {[ "OpenTofu" := Dir threeEntries ]} ∅ ∅.

(** Any version but 1.6.2, the newest first. *)
Definition notNewest : PredicateInfo :=
  {| Predicate := λ version, bool_decide (version ≠ "1.6.2");
     ReverseOrder := true |}.

(** The version given by the environment, by a version file of the project
    and by the file of the root at once. *)
Definition allSources : World :=
  inHome {[ "OpenTofu" := Dir {[ "version" := File "1.4.0" ]} ]}
    {[ ".opentofu-version" := File "1.6.0" ]}
    {[ "TOFUENV_TOFU_VERSION" := "1.5.0" ]}.

(** Version 1.6.2 installed, and a default constraint set. *)
Definition constrained : World :=
  inHome {[ "OpenTofu" :=
            Dir (<["1.6.2" := Dir {[ "tofu" := File "tofu 1.6.2" ]}]>
                   {[ "constraint" := File "~> 1.5" ]}) ]}
    ∅ ∅.

(** A disk without fault, and one that is full: a file is made or
    emptied there, and no byte is written. *)
Definition soundDisk : Disk :=
  {| writeFault _ _ _ := None |}.

Definition fullDisk : Disk :=
  {| writeFault _ _ _ := Some (ErrForeign "no space left on device", 0) |}.

(** Helpers: the time of last use is kept in the file [last-use.txt] of
    the directory of the version, as its length; a selection takes the
    versions that are not the request; constraints are read as flat files;
    a constraint is anything but the empty string. *)
Definition sampleHelpers : Helpers :=
  {| lastuse_Read dir tree cwd env :=
       match resolve cwd (Join dir ["last-use.txt"]) with
       | Some p =>
           match lookup tree p with
           | Some (File content) => (Z.of_nat (String.length content), [])
           | _ => (0%Z, [])
           end
       | None => (0%Z, [])
       end;
     SelectVersionsToUninstall requested installPath versions tree cwd env :=
       if decide (requested = "not-used-for:1d")
       then ((List.filter (λ v, bool_decide (v ≠ "1.6.0")) versions, None), [])
       else (([], Some (ErrForeign "unknown behaviour")), []);
     flatparser_Retrieve := sampleFlatRetrieveVersion;
     NewConstraint constraint :=
       if decide (constraint = "") then Some (ErrForeign "Malformed constraint")
       else None |}.

End Samples.

(** * Properties of the catalog client *)

Section CatalogFacts.

Import Github Samples.

(** ** Canonical versions *)

Lemma extractVersion_strips (object : gmap string any) (rest : string) :
  object !! "tag_name" = Some (JString (String "v" rest)) →
  extractVersion (JObject object) = (rest, true).
Proof. intros Htag. unfold extractVersion. simpl. by rewrite Htag. Qed.

Lemma extractVersion_keeps (object : gmap string any) (c : ascii) (rest : string) :
  object !! "tag_name" = Some (JString (String c rest)) →
  c ≠ "v"%char →
  extractVersion (JObject object) = (String c rest, true).
Proof.
  intros Htag Hc. unfold extractVersion. simpl. rewrite Htag. simpl.
  by destruct (decide (c = "v"%char)).
Qed.

Lemma extractVersion_ok (value : any) :
  (extractVersion value).2 = true ↔
  ∃ tag, asString (asObject value !! "tag_name") = Some tag ∧ tag ≠ "".
Proof.
  unfold extractVersion.
  destruct (asString (asObject value !! "tag_name")) as [tag|]; simpl.
  - destruct tag as [|c rest]; simpl.
    + split; [done | intros (tag & [= <-] & Hne); done].
    + split; [|by destruct (decide (c = "v"%char))].
      intros _. by exists (String c rest).
  - split; [done | intros (tag & [=] & _)].
Qed.

(** One prefix is dropped, so a version begins with [v] when the tag begins
    with two. *)
Lemma extractVersion_first_byte (value : any) (tag version : string) (c : ascii) :
  asString (asObject value !! "tag_name") = Some tag →
  extractVersion value = (String c version, true) →
  c = "v"%char →
  ∃ rest, tag = String "v" (String "v" rest).
Proof.
  intros Htag Hv ->. unfold extractVersion in Hv. rewrite Htag in Hv. simpl in Hv.
  destruct tag as [|c rest]; [done|].
  destruct (decide (c = "v"%char)) as [->|Hc].
  - injection Hv as ->. by eexists.
  - injection Hv as -> _. done.
Qed.

(** ** Asset pages *)

Lemma extractAssets_empty_page (assets : gmap string string)
    (searched : gset string) (waited : nat) :
  extractAssets assets searched waited (JArray []) = (assets, Some ErrAsset).
Proof. reflexivity. Qed.

Lemma extractAssets_range_no_name (assets : gmap string string)
    (searched : gset string) (waited : nat) (value : any) (values : list any) :
  asString (asObject value !! "name") = None →
  extractAssets_range assets searched waited (value :: values)
  = (assets, Some ErrReturn).
Proof. intros Hname. simpl. by rewrite Hname. Qed.

Lemma extractAssets_range_no_url (assets : gmap string string)
    (searched : gset string) (waited : nat) (value : any) (values : list any)
    (assetName : string) :
  asString (asObject value !! "name") = Some assetName →
  assetName ∈ searched →
  asString (asObject value !! "browser_download_url") = None →
  extractAssets_range assets searched waited (value :: values)
  = (assets, Some ErrReturn).
Proof.
  intros Hname Hin Hurl. simpl. rewrite Hname.
  destruct (decide (assetName ∈ searched)); [|done]. by rewrite Hurl.
Qed.

Lemma extractAssets_range_dom (searched : gset string) (waited : nat)
    (values : list any) :
  ∀ (assets assets' : gmap string string) (err : option error),
    dom assets ⊆ searched →
    extractAssets_range assets searched waited values = (assets', err) →
    dom assets' ⊆ searched.
Proof.
  induction values as [|value values IH]; intros assets assets' err Hdom; simpl.
  - by intros [= <- _].
  - destruct (asString (asObject value !! "name")) as [assetName|];
      [|by intros [= <- _]].
    destruct (decide (assetName ∈ searched)) as [Hin|]; [|by apply IH].
    destruct (asString (asObject value !! "browser_download_url"))
      as [downloadURL|]; [|by intros [= <- _]].
    assert (dom (<[assetName:=downloadURL]> assets) ⊆ searched) as Hdom'.
    { rewrite dom_insert_L. apply union_subseteq. split; [|done].
      by apply singleton_subseteq_l. }
    destruct (decide (size (<[assetName:=downloadURL]> assets) = waited));
      [by intros [= <- _] | by apply IH].
Qed.

Lemma extractAssets_range_size (searched : gset string) (waited : nat)
    (values : list any) :
  ∀ (assets assets' : gmap string string),
    extractAssets_range assets searched waited values = (assets', None) →
    size assets' = waited.
Proof.
  induction values as [|value values IH]; intros assets assets'; simpl; [done|].
  destruct (asString (asObject value !! "name")) as [assetName|]; [|done].
  destruct (decide (assetName ∈ searched)) as [Hin|]; [|by apply IH].
  destruct (asString (asObject value !! "browser_download_url"))
    as [downloadURL|]; [|done].
  destruct (decide (size (<[assetName:=downloadURL]> assets) = waited));
    [by intros [= <-] | by apply IH].
Qed.

(** For searched names without repetition, a page ends the search with
    success only when every searched name is recorded. *)
Lemma extractAssets_range_complete (searchedAssetNames : list string)
    (values : list any) (assets assets' : gmap string string) :
  NoDup searchedAssetNames →
  dom assets ⊆ list_to_set searchedAssetNames →
  extractAssets_range assets (list_to_set searchedAssetNames)
    (length searchedAssetNames) values = (assets', None) →
  dom assets' = list_to_set searchedAssetNames.
Proof.
  intros Hnodup Hdom Hrun.
  pose proof (extractAssets_range_dom _ _ _ _ _ _ Hdom Hrun) as Hsub.
  pose proof (extractAssets_range_size _ _ _ _ _ Hrun) as Hsize.
  apply set_subseteq_size_eq; [done|].
  rewrite size_dom, Hsize. by rewrite size_list_to_set.
Qed.

(** And it ends at the asset that completes the record. *)
Lemma extractAssets_range_stops (searchedAssetNames : list string)
    (value : any) (values : list any) (assets : gmap string string)
    (assetName downloadURL : string) :
  NoDup searchedAssetNames →
  asString (asObject value !! "name") = Some assetName →
  asString (asObject value !! "browser_download_url") = Some downloadURL →
  dom (<[assetName := downloadURL]> assets) = list_to_set searchedAssetNames →
  extractAssets_range assets (list_to_set searchedAssetNames)
    (length searchedAssetNames) (value :: values)
  = (<[assetName := downloadURL]> assets, None).
Proof.
  intros Hnodup Hname Hurl Hdom. simpl. rewrite Hname.
  destruct (decide (assetName ∈ (list_to_set searchedAssetNames : gset string)))
    as [_|Hnotin].
  - rewrite Hurl.
    destruct (decide (size (<[assetName:=downloadURL]> assets)
                      = length searchedAssetNames)) as [_|Hsize]; [done|].
    exfalso. apply Hsize.
    rewrite <- size_dom, Hdom. by apply size_list_to_set.
  - exfalso. apply Hnotin. rewrite <- Hdom, dom_insert_L.
    apply elem_of_union. left. by apply elem_of_singleton.
Qed.

(** ** Requests and their failures *)

Section OneNetwork.

Context `{Network}.






(** A release without a tag, or with an empty one, is a bad response. *)
Lemma LatestRelease_bad_tag (githubReleaseURL githubToken latestUrl : string)
    (sent sent' : list Request) (value : any) :
  url_JoinPath githubReleaseURL ["latest"] = (latestUrl, None) →
  apiGetRequest latestUrl (buildAuthorizationHeader githubToken) sent
  = ((value, None), sent') →
  (∀ tag, asString (asObject value !! "tag_name") = Some tag → tag = "") →
  LatestRelease githubReleaseURL githubToken sent
  = (("", Some ErrReturn), sent').
Proof.
  intros Hjoin Hget Htag. unfold LatestRelease. rewrite Hjoin, Hget.
  destruct (extractVersion value) as [version ok] eqn:Hversion.
  destruct ok; [|done].
  assert ((extractVersion value).2 = true) as Hok by (by rewrite Hversion).
  apply extractVersion_ok in Hok as (tag & Hsome & Hne).
  by apply Htag in Hsome.
Qed.




(** What [surfaces] says of each request sent. *)
Lemma surfaces_each (sent sent' : list Request) (err : option error) :
  surfaces sent sent' err →
  ∃ new, sent' = sent ++ new ∧
    ∀ (i : nat) (request : Request) (e : error),
      new !! i = Some request →
      failure (sent ++ take i new) request = Some e →
      S i = length new ∧ err = Some e.
Proof.
  induction 1 as [sent err|sent request err Hfail
                 |sent request sent' err Hok _ (new & -> & IH)].
  - exists []. split; [by rewrite app_nil_r|]. intros i ? ? Hi. done.
  - exists [request]. split; [done|]. intros [|i] r e Hi; [|done].
    injection Hi as <-. simpl. rewrite app_nil_r, Hfail. by intros [= ->].
  - exists (request :: new). split; [by rewrite <- app_assoc|].
    intros [|i] r e Hi; simpl.
    + injection Hi as <-. rewrite app_nil_r, Hok. done.
    + intros Hfail. simpl in Hi.
      destruct (IH i r e Hi) as [Hlen ->]; [by rewrite <- app_assoc|].
      by rewrite Hlen.
Qed.

End OneNetwork.

(** ** The status code is not read *)





Section OneNetworkLoops.

Context `{Network}.



End OneNetworkLoops.

(** C2, at the input on which the code departs from it.  The claim: a
    version given by the catalog client never begins with [v].  The
    release tagged [vv1.0.0] comes out as [v1.0.0], from [extractVersion],
    from [LatestRelease] and from [ListReleases]: one prefix is dropped,
    not every one.  The tag [v] comes out as the empty version, the test
    for an empty tag being made before the prefix is dropped. *)
Theorem catalog_version_keeps_second_prefix :
  extractVersion (release "vv1.0.0") = ("v1.0.0", true) ∧
  extractVersion (release "v") = ("", true) ∧
  (@LatestRelease doubledPrefix releasesURL "" []).1 = ("v1.0.0", None) ∧
  fst <$> @ListReleases doubledPrefix 2 releasesURL "" []
  = Some (["v1.0.0"], None).
Proof. repeat split; vm_compute; reflexivity. Qed.

(** C7, at the input on which the code departs from it.  The claim: the
    asset search ends with success as soon as every searched name is found
    and recorded.  With the name [a] searched twice, the first page records
    [a], the one name searched, and asks for more; the empty second page
    then fails the search with [ErrAsset].  Searched once, the same name on
    the same server is found.  With no name searched the pages are read to
    the empty one all the same, and the search fails. *)
Theorem asset_search_repeated_name :
  extractAssets ∅ (list_to_set ["a"; "a"]) (length ["a"; "a"])
    (JArray [asset "a" "https://dl.example/a"])
  = ({[ "a" := "https://dl.example/a" ]}, Some errContinue) ∧
  fst <$> @DownloadAssetURL oneAsset 3 "v1.0.0" ["a"; "a"] releasesURL "" []
  = Some (∅, Some ErrAsset) ∧
  fst <$> @DownloadAssetURL oneAsset 3 "v1.0.0" ["a"] releasesURL "" []
  = Some ({[ "a" := "https://dl.example/a" ]}, None) ∧
  fst <$> @DownloadAssetURL oneAsset 3 "v1.0.0" [] releasesURL "" []
  = Some (∅, Some ErrAsset).
Proof. repeat split; vm_compute; reflexivity. Qed.




End CatalogFacts.

(** * Properties of the file tree *)

Section FileTreeFacts.

Import OS.

Lemma walk_app (p q : path) :
  ∀ n, walk n (p ++ q)
       = match walk n p with
         | inr found => walk found q
         | inl err => inl err
         end.
Proof.
  induction p as [|name p IH]; intros n; simpl; [done|].
  destruct n as [content|entries]; [done|].
  destruct (entries !! name) as [child|]; [apply IH | done].
Qed.

(** The parent of a node of the tree is a directory. *)
Lemma walk_parent (p : path) (name : string) (n found : node) :
  walk n (p ++ [name]) = inr found →
  ∃ entries, walk n p = inr (Dir entries) ∧ entries !! name = Some found.
Proof.
  rewrite walk_app. destruct (walk n p) as [err|[content|entries]]; simpl;
    [done..|].
  destruct (entries !! name) as [child|] eqn:Hchild; [|done].
  intros [= ->]. eauto.
Qed.

Lemma walk_child (p : path) (name : string) (n : node) (entries : gmap string node) :
  walk n p = inr (Dir entries) →
  walk n (p ++ [name])
  = match entries !! name with
    | Some child => inr child
    | None => inl ErrNotExist
    end.
Proof.
  intros Hdir. rewrite walk_app, Hdir. simpl.
  by destruct (entries !! name).
Qed.

(** [MkdirAll] leaves a tree alone in which the directory is. *)
Lemma mkdirAll_present (p : path) :
  ∀ n entries, walk n p = inr (Dir entries) → mkdirAll p n = (n, None).
Proof.
  induction p as [|name p IH]; intros n entries; simpl.
  - by intros [= ->].
  - destruct n as [content|entries0]; [done|].
    destruct (entries0 !! name) as [child|] eqn:Hchild; [|done].
    intros Hwalk. simpl. rewrite (IH _ _ Hwalk).
    by rewrite insert_id.
Qed.

Lemma mkdirAll_makes (p : path) :
  ∀ n n', mkdirAll p n = (n', None) → ∃ entries, walk n' p = inr (Dir entries).
Proof.
  induction p as [|name p IH]; intros n n'; simpl.
  - destruct n as [content|entries]; [done|]. intros [= <-]. eauto.
  - destruct n as [content|entries]; [done|].
    destruct (mkdirAll p (default (Dir ∅) (entries !! name)))
      as [child' [err|]] eqn:Hchild; [done|].
    intros [= <-]. rewrite lookup_insert_eq. by eapply IH.
Qed.

(** [MkdirAll] makes nothing below the directory it is asked for. *)
Lemma mkdirAll_below (p q : path) :
  q ≠ [] →
  ∀ n n', mkdirAll p n = (n', None) → walk n' (p ++ q) = walk n (p ++ q).
Proof.
  intros Hq.
  induction p as [|name p IH]; intros n n'; simpl.
  - destruct n as [content|entries]; [done|]. by intros [= <-].
  - destruct n as [content|entries]; [done|].
    destruct (mkdirAll p (default (Dir ∅) (entries !! name)))
      as [child' [err|]] eqn:Hchild; [done|].
    intros [= <-]. rewrite lookup_insert_eq.
    rewrite (IH _ _ Hchild).
    destruct (entries !! name) as [child|]; simpl; [done|].
    destruct (p ++ q) as [|name' rest] eqn:Hpq; [|done].
    apply app_eq_nil in Hpq as [_ ->]. done.
Qed.

Lemma writeAt_written (p : path) (content : string) :
  ∀ n n', writeAt p content n = (n', None) → walk n' p = inr (File content).
Proof.
  induction p as [|name p IH]; intros n n'; simpl; [done|].
  destruct n as [old|entries]; [done|].
  destruct p as [|name' p].
  - destruct (entries !! name) as [[old|sub]|];
      intros [= <-]; simpl; by rewrite lookup_insert_eq.
  - destruct (entries !! name) as [child|]; [|done].
    destruct (writeAt (name' :: p) content child) as [child' [err|]] eqn:Hchild;
      [done|].
    intros [= <-]. change (walk (Dir (<[name:=child']> entries)) (name :: name' :: p))
      with (match <[name:=child']> entries !! name with
            | Some c => walk c (name' :: p)
            | None => inl ErrNotExist
            end).
    rewrite lookup_insert_eq. by eapply IH.
Qed.

(** Writing a file in a directory keeps the directory. *)
Lemma writeAt_parent (p : path) (name content : string) :
  ∀ n n', writeAt (p ++ [name]) content n = (n', None) →
          ∃ entries, walk n' p = inr (Dir entries).
Proof.
  induction p as [|dir p IH]; intros n n'.
  - simpl. destruct n as [old|entries]; [done|].
    destruct (entries !! name) as [[old|sub]|]; intros [= <-]; eauto.
  - change ((dir :: p) ++ [name]) with (dir :: (p ++ [name])).
    simpl. destruct n as [old|entries]; [done|].
    destruct (p ++ [name]) as [|name' rest] eqn:Hrest.
    { by apply app_eq_nil in Hrest as [_ ?]. }
    destruct (entries !! dir) as [child|]; [|done].
    destruct (writeAt (name' :: rest) content child) as [child' [err|]] eqn:Hchild;
      [done|].
    intros [= <-]. rewrite lookup_insert_eq. by eapply IH.
Qed.

(** In a directory that is there, a file is made, or replaced, under a name
    that is not that of a directory. *)
Lemma writeAt_in_dir (p : path) (name content : string) :
  ∀ n entries,
    walk n p = inr (Dir entries) →
    (∀ sub, entries !! name ≠ Some (Dir sub)) →
    ∃ n',
      writeAt (p ++ [name]) content n = (n', None) ∧
      walk n' p = inr (Dir (<[name := File content]> entries)).
Proof.
  induction p as [|dir p IH]; intros n entries.
  - simpl. intros [= ->] Hfile.
    destruct (entries !! name) as [[old|sub]|] eqn:Hname;
      [by eexists | by destruct (Hfile sub) | by eexists].
  - change ((dir :: p) ++ [name]) with (dir :: (p ++ [name])). simpl.
    destruct n as [old|entries0]; [done|].
    destruct (entries0 !! dir) as [child|] eqn:Hchild; [|done].
    intros Hwalk Hfile.
    destruct (IH _ _ Hwalk Hfile) as (child' & Hwrite & Hwalk').
    destruct (p ++ [name]) as [|name' rest] eqn:Hrest.
    { by apply app_eq_nil in Hrest as [_ ?]. }
    rewrite Hwrite. eexists. split; [reflexivity|].
    simpl. by rewrite lookup_insert_eq.
Qed.

Lemma setFs_same (w : World) : setFs (fs w) w = w.
Proof. by destruct w. Qed.

Lemma nonEmpty_one (name : string) : name ≠ "" → nonEmpty [name] = [name].
Proof.
  intros Hname. unfold nonEmpty. by rewrite filter_cons_True, filter_nil.
Qed.

Lemma resolve_Join (cwd : path) (base : filename) (p : path) (name : string) :
  name ≠ "" →
  resolve cwd base = Some p →
  resolve cwd (Join base [name]) = Some (p ++ [name]).
Proof.
  intros Hname. unfold Join. rewrite (nonEmpty_one _ Hname).
  destruct base as [q|q]; simpl.
  - by intros [= ->].
  - destruct q as [|x q]; [done|]. intros [= <-]. simpl.
    by rewrite <- app_assoc.
Qed.

Lemma resolve_nonempty (cwd : path) (base : filename) :
  base ≠ Rel [] → is_Some (resolve cwd base).
Proof. destruct base as [q|[|x q]]; simpl; eauto. done. Qed.

Lemma Join_one_nonempty (base : filename) (name : string) :
  name ≠ "" → Join base [name] ≠ Rel [].
Proof.
  intros Hname. unfold Join. rewrite (nonEmpty_one _ Hname).
  destruct base as [q|q]; [done|]. by destruct q.
Qed.

End FileTreeFacts.

(** * Properties of the version manager *)

Section ManagerFacts.

Import OS Manager.

Context `{packages : Packages} `{disk : Disk}.

Lemma nodeAt_emit (ev : Event) (w : World) (name : filename) :
  nodeAt (emit ev w) name = nodeAt w name.
Proof. reflexivity. Qed.

Lemma nodeAt_walk (w : World) (name : filename) (found : node) :
  nodeAt w name = Some found ↔
  ∃ p, resolve (cwd w) name = Some p ∧ walk (fs w) p = inr found.
Proof.
  unfold nodeAt, lookup. destruct (resolve (cwd w) name) as [p|].
  - destruct (walk (fs w) p) as [err|found'] eqn:Hwalk.
    + split; [done|]. intros (p' & [= <-] & Hw). congruence.
    + split.
      * intros [= ->]. eauto.
      * intros (p' & [= <-] & Hw). congruence.
  - split; [done|]. by intros (p' & ? & _).
Qed.

Lemma InstallDir_resolves (m : VersionManager) (w : World) :
  InstallDir m ≠ Rel [] → ∃ p, resolve (cwd w) (InstallDir m) = Some p.
Proof. intros Hdir. by apply resolve_nonempty. Qed.

(** The install directory is in the tree when a version is. *)
Lemma version_in_directory (m : VersionManager) (w : World) (version : string)
    (p : path) :
  version ≠ "" →
  resolve (cwd w) (InstallDir m) = Some p →
  is_Some (nodeAt w (versionPath m version)) →
  ∃ entries, walk (fs w) p = inr (Dir entries) ∧ is_Some (entries !! version).
Proof.
  intros Hversion Hp [found Hfound].
  apply nodeAt_walk in Hfound as (q & Hq & Hwalk).
  unfold versionPath in Hq. rewrite (resolve_Join _ _ _ _ Hversion Hp) in Hq.
  injection Hq as <-.
  apply walk_parent in Hwalk as (entries & Hdir & Hentry). eauto.
Qed.

(** [InstallPath] changes nothing when the install directory is there. *)
Lemma InstallPath_present (m : VersionManager) (w : World) (p : path)
    (entries : gmap string node) :
  resolve (cwd w) (InstallDir m) = Some p →
  walk (fs w) p = inr (Dir entries) →
  InstallPath m w = ((InstallDir m, None), w).
Proof.
  intros Hp Hdir. unfold InstallPath, bind, MkdirAll, ret.
  fold (InstallDir m). rewrite Hp, (mkdirAll_present _ _ _ Hdir).
  by rewrite setFs_same.
Qed.

(** The presence test says yes for any node at the place of the version,
    and leaves the world as it is. *)
Lemma checkVersionInstallation_present (m : VersionManager) (w : World)
    (version : string) :
  InstallDir m ≠ Rel [] →
  version ≠ "" →
  is_Some (nodeAt w (versionPath m version)) →
  checkVersionInstallation m (Rel []) version w
  = ((InstallDir m, true, None), w).
Proof.
  intros Hdir Hversion Hnode.
  destruct (InstallDir_resolves m w Hdir) as [p Hp].
  destruct (version_in_directory m w version p Hversion Hp Hnode)
    as (entries & Hwalk & [found Hfound]).
  unfold checkVersionInstallation, bind.
  destruct (decide (Rel [] = Rel [])) as [_|]; [|done].
  rewrite (InstallPath_present m w p entries Hp Hwalk).
  unfold Stat. rewrite (resolve_Join _ _ _ _ Hversion Hp).
  by rewrite (walk_child _ _ _ _ Hwalk), Hfound.
Qed.

(** What the presence test tells when it returns no error. *)
Lemma checkVersionInstallation_spec (m : VersionManager) (w w' : World)
    (installPath installPath' : filename) (version : string) (found : bool) :
  checkVersionInstallation m installPath version w
  = ((installPath', found, None), w') →
  installPath' = (if decide (installPath = Rel []) then InstallDir m
                  else installPath) ∧
  events w' = events w ∧
  (installPath ≠ Rel [] → w' = w) ∧
  (found = true ↔ is_Some (nodeAt w' (Join installPath' [version]))).
Proof.
  assert (∀ dir w0,
    (let '(a, w1) := Stat (Join dir [version]) w0 in
     match a with
     | Some e =>
         if decide (e = ErrNotExist) then ret (dir, false, None)
         else ret (Rel [], false, a)
     | None => ret (dir, true, None)
     end w1) = ((installPath', found, None), w') →
    installPath' = dir ∧ w' = w0 ∧
    (found = true ↔ is_Some (nodeAt w0 (Join dir [version])))) as Hstat.
  { intros dir w0. unfold Stat, nodeAt, lookup, ret.
    destruct (resolve (cwd w0) (Join dir [version])) as [q|].
    - destruct (walk (fs w0) q) as [err|node].
      + destruct (decide (err = ErrNotExist)); [|done].
        intros [= <- <- <-]. repeat split; try done; try (by intros [? ?]).
      + intros [= <- <- <-]. repeat split; try done; eauto.
    - destruct (decide (ErrNotExist = ErrNotExist)); [|done].
      intros [= <- <- <-]. repeat split; try done; try (by intros [? ?]). }
  unfold checkVersionInstallation, bind.
  destruct (decide (installPath = Rel [])) as [->|Hne].
  - unfold InstallPath, bind, MkdirAll, ret. fold (InstallDir m).
    destruct (resolve (cwd w) (InstallDir m)) as [p|]; [|done].
    destruct (mkdirAll p (fs w)) as [n [err|]]; [done|].
    intros Hrun. apply Hstat in Hrun as (-> & -> & Hfound).
    repeat split; try done; apply Hfound.
  - unfold ret at 1. intros Hrun. apply Hstat in Hrun as (-> & -> & Hfound).
    repeat split; try done; apply Hfound.
Qed.

(** A version that is there is not installed again. *)
Lemma installSpecificVersion_present (m : VersionManager) (w : World)
    (version : string) (proxyCall : bool) :
  InstallDir m ≠ Rel [] →
  version ≠ "" →
  is_Some (nodeAt w (versionPath m version)) →
  installSpecificVersion m version proxyCall w
  = (None, alreadyInstalled m version proxyCall w).
Proof.
  intros Hdir Hversion Hnode. unfold installSpecificVersion.
  destruct (decide (version = "")) as [|_]; [done|].
  unfold bind at 1.
  by rewrite (checkVersionInstallation_present m w version Hdir Hversion Hnode).
Qed.

(** A version that is not there is installed by the retriever, under the
    lock, and the error of the retriever is returned. *)
Lemma installSpecificVersion_absent (m : VersionManager) (w : World)
    (version : string) (proxyCall : bool) (entries : gmap string node) :
  version ≠ "" →
  nodeAt w (InstallDir m) = Some (Dir entries) →
  entries !! version = None →
  installSpecificVersion m version proxyCall w
  = ((InstallRelease (retriever m) version (versionPath m version)
        (installing m version w)).2,
     afterInstall m version
       (InstallRelease (retriever m) version (versionPath m version)
          (installing m version w)).1
       (InstallRelease (retriever m) version (versionPath m version)
          (installing m version w)).2 w).
Proof.
  intros Hversion Hnode Habsent.
  assert (InstallDir m ≠ Rel []) as Hdir.
  { intros Hrel. unfold nodeAt in Hnode. by rewrite Hrel in Hnode. }
  apply nodeAt_walk in Hnode as (p & Hp & Hwalk).
  assert (∀ installPath w0,
    cwd w0 = cwd w → fs w0 = fs w →
    installPath = Rel [] ∨ installPath = InstallDir m →
    checkVersionInstallation m installPath version w0
    = ((InstallDir m, false, None), w0)) as Hcheck.
  { intros installPath w0 Hcwd Hfs Hpath.
    unfold checkVersionInstallation, bind.
    assert ((if decide (installPath = Rel []) then InstallPath m
             else ret (installPath, None)) w0
            = ((InstallDir m, None), w0)) as ->.
    { destruct Hpath as [-> | ->].
      - destruct (decide (Rel [] = Rel [])) as [_|]; [|done].
        apply (InstallPath_present m w0 p entries); by rewrite ?Hcwd, ?Hfs.
      - by destruct (decide (InstallDir m = Rel [])). }
    unfold Stat. rewrite Hcwd, Hfs, (resolve_Join _ _ _ _ Hversion Hp).
    rewrite (walk_child _ _ _ _ Hwalk), Habsent.
    by destruct (decide (ErrNotExist = ErrNotExist)). }
  unfold installSpecificVersion.
  destruct (decide (version = "")) as [|_]; [done|].
  unfold bind at 1. rewrite (Hcheck (Rel []) w eq_refl eq_refl (or_introl eq_refl)).
  unfold bind at 1. unfold lockfile_Write at 1. unfold log at 1.
  unfold bind at 1. unfold bind at 1.
  rewrite (Hcheck (InstallDir m) (emit (EvLockWrite (InstallDir m)) w)
             eq_refl eq_refl (or_intror eq_refl)).
  unfold bind, Flush, Display, log, retriever_InstallRelease, deleteLock,
    disableExit, ret.
  fold (versionPath m version).
  change (emit (EvInstallRelease version (versionPath m version))
            (emit (EvDisplay (Concat ["Installing "; FolderName m; " "; version]))
               (emit (EvFlush false) (emit (EvLockWrite (InstallDir m)) w))))
    with (installing m version w).
  unfold afterInstall.
  by destruct (InstallRelease (retriever m) version (versionPath m version)
                 (installing m version w)) as [n [err|]].
Qed.

(** A version installed with success is there afterwards. *)
Lemma installSpecificVersion_installs (m : VersionManager) (w w' : World)
    (version : string) (proxyCall : bool) :
  InstallDir m ≠ Rel [] →
  installsTarget (retriever m) →
  installSpecificVersion m version proxyCall w = (None, w') →
  version ≠ "" ∧ is_Some (nodeAt w' (versionPath m version)).
Proof.
  intros Hdir Hcontract. unfold installSpecificVersion.
  destruct (decide (version = "")) as [|Hversion]; [done|].
  intros Hrun. split; [done|]. revert Hrun. unfold bind at 1.
  destruct (checkVersionInstallation m (Rel []) version w)
    as [[[installPath found] err] w1] eqn:Hcheck.
  destruct err as [err|]; [done|].
  apply checkVersionInstallation_spec in Hcheck as (-> & _ & _ & Hfound).
  destruct (decide (Rel [] = Rel [])) as [_|]; [|done].
  destruct found.
  - intros [= <-]. by apply Hfound.
  - unfold bind, lockfile_Write, deleteLock, disableExit, log, ret.
    destruct (checkVersionInstallation m (InstallDir m) version (emit _ w1))
      as [[[installPath2 found2] err2] w2] eqn:Hcheck2.
    destruct err2 as [err2|]; [done|].
    apply checkVersionInstallation_spec in Hcheck2 as (-> & _ & _ & Hfound2).
    destruct (decide (InstallDir m = Rel [])) as [|_]; [done|].
    destruct found2.
    + intros [= <-]. by apply Hfound2.
    + unfold Flush, Display, log, retriever_InstallRelease.
      destruct (InstallRelease (retriever m) version _ _) as [n err] eqn:Hinstall.
      destruct err as [err|]; [done|].
      intros [= <-]. apply Hcontract in Hinstall as [entries Hentries].
      exists (Dir entries). exact Hentries.
Qed.

Lemma retrieverCalls_snoc (evs : list Event) (ev : Event) :
  isRetrieverCall ev = false →
  retrieverCalls (evs ++ [ev]) = retrieverCalls evs.
Proof.
  intros Hev. unfold retrieverCalls. rewrite List.filter_app. simpl.
  rewrite Hev. apply app_nil_r.
Qed.

Lemma retrieverCalls_alreadyInstalled (m : VersionManager) (version : string)
    (proxyCall : bool) (w : World) :
  retrieverCalls (events (alreadyInstalled m version proxyCall w))
  = retrieverCalls (events w).
Proof.
  unfold alreadyInstalled. simpl. by rewrite !retrieverCalls_snoc.
Qed.

(** C1.  With an install path that is not the empty string and a
    retriever that keeps its contract (the target is a directory once it
    returned no error): [installSpecificVersion] turns the empty version
    down with [errEmptyVersion]; when the directory of the version is there
    at the first check it displays the already-installed line and returns
    no error, the retriever not being called and the tree left as it is;
    and after an [Install] of a version that returned no error, the same
    [Install] again returns no error and calls the retriever no more. *)
Theorem install_again_is_idle (m : VersionManager) :
  InstallDir m ≠ Rel [] →
  installsTarget (retriever m) →
  (∀ proxyCall w,
     installSpecificVersion m "" proxyCall w
     = (Some errEmptyVersion, emit (EvFlush proxyCall) w)) ∧
  (∀ version proxyCall w entries,
     version ≠ "" →
     nodeAt w (versionPath m version) = Some (Dir entries) →
     installSpecificVersion m version proxyCall w
     = (None, alreadyInstalled m version proxyCall w) ∧
     events (alreadyInstalled m version proxyCall w)
     = events w ++ [EvDisplay (Concat [FolderName m; " "; version;
                                       " already installed"]);
                    EvFlush proxyCall] ∧
     fs (alreadyInstalled m version proxyCall w) = fs w) ∧
  (∀ requestedVersion w w1,
     is_Some (NewVersion requestedVersion) →
     Install m requestedVersion w = (None, w1) →
     ∃ w2,
       Install m requestedVersion w1 = (None, w2) ∧
       retrieverCalls (events w2) = retrieverCalls (events w1) ∧
       fs w2 = fs w1).
Proof.
  intros Hdir Hcontract. split; [|split].
  - intros proxyCall w. reflexivity.
  - intros version proxyCall w entries Hversion Hnode. split; [|split].
    + apply installSpecificVersion_present; eauto.
    + unfold alreadyInstalled. simpl. by rewrite <- app_assoc.
    + reflexivity.
  - intros requestedVersion w w1 [cleanedVersion Hparse]. unfold Install.
    rewrite Hparse. intros Hfirst.
    apply installSpecificVersion_installs in Hfirst as [Hversion Hnode];
      [|done..].
    exists (alreadyInstalled m cleanedVersion false w1). split; [|split].
    + by apply installSpecificVersion_present.
    + apply retrieverCalls_alreadyInstalled.
    + reflexivity.
Qed.

(** C10.  The presence test takes any node [found] named like the version
    in the install directory for an installed version, a plain file as
    well as a directory:
    [checkVersionInstallation] says installed, [installSpecificVersion]
    displays the already-installed line and returns no error without a
    call of the retriever, and so does [Evaluate] on a request that parses
    to that version. *)
Theorem plain_file_counts_as_installed (m : VersionManager) (w : World)
    (version : string) (found : node) (proxyCall : bool) :
  InstallDir m ≠ Rel [] →
  version ≠ "" →
  nodeAt w (versionPath m version) = Some found →
  checkVersionInstallation m (Rel []) version w
  = ((InstallDir m, true, None), w) ∧
  installSpecificVersion m version proxyCall w
  = (None, alreadyInstalled m version proxyCall w) ∧
  retrieverCalls (events (alreadyInstalled m version proxyCall w))
  = retrieverCalls (events w) ∧
  (∀ requestedVersion,
     NewVersion requestedVersion = Some version →
     ∃ w',
       Evaluate m requestedVersion proxyCall w = ((version, None), w') ∧
       retrieverCalls (events w') = retrieverCalls (events w) ∧
       fs w' = fs w).
Proof.
  intros Hdir Hversion Hnode.
  assert (is_Some (nodeAt w (versionPath m version))) as Hsome by eauto.
  split; [|split; [|split]].
  - by apply checkVersionInstallation_present.
  - by apply installSpecificVersion_present.
  - apply retrieverCalls_alreadyInstalled.
  - intros requestedVersion Hparse. unfold Evaluate. rewrite Hparse.
    destruct (NoInstall (conf m)).
    + unfold bind at 1.
      rewrite (checkVersionInstallation_present m w version Hdir Hversion Hsome).
      simpl. eexists. split; [reflexivity|]. split; [|done].
      simpl. by rewrite retrieverCalls_snoc.
    + unfold bind.
      rewrite (installSpecificVersion_present m w version proxyCall Hdir
                 Hversion Hsome).
      eexists. split; [reflexivity|]. split; [|done].
      apply retrieverCalls_alreadyInstalled.
Qed.

Lemma autoInstallDisabledMsg_run (m : VersionManager) (version : string)
    (w : World) :
  autoInstallDisabledMsg m version w
  = (Some ErrNoCompatibleLocally,
     emit (EvDisplay (autoInstallDisabledText m version))
       (emit (EvFlush false) w)).
Proof. reflexivity. Qed.

(** C5.  For a request that parses as a version, with [NoInstall] set and
    an install path that is not the empty string: when the version is
    there, [Evaluate] returns the cleaned version and no error, after a
    flush; when it is not there and [MkdirAll] can ensure the install
    directory, [Evaluate] returns the cleaned version with
    [ErrNoCompatibleLocally], after the line that tells to set
    TENV_AUTO_INSTALL; the retriever is not called, the tree is the one
    [MkdirAll] leaves, and in it no version has a directory that had none
    before. *)
Theorem evaluate_without_install (m : VersionManager) (w : World)
    (requestedVersion cleanedVersion : string) (proxyCall : bool) :
  NewVersion requestedVersion = Some cleanedVersion →
  cleanedVersion ≠ "" →
  NoInstall (conf m) = true →
  InstallDir m ≠ Rel [] →
  (is_Some (nodeAt w (versionPath m cleanedVersion)) →
   Evaluate m requestedVersion proxyCall w
   = ((cleanedVersion, None), emit (EvFlush proxyCall) w)) ∧
  (nodeAt w (versionPath m cleanedVersion) = None →
   (MkdirAll (InstallDir m) w).1 = None →
   ∃ w',
     Evaluate m requestedVersion proxyCall w
     = ((cleanedVersion, Some ErrNoCompatibleLocally), w') ∧
     fs w' = fs (MkdirAll (InstallDir m) w).2 ∧
     events w'
     = events w ++ [EvFlush false;
                    EvDisplay (autoInstallDisabledText m cleanedVersion)] ∧
     ∀ version, version ≠ "" →
       nodeAt w' (versionPath m version) = nodeAt w (versionPath m version)).
Proof.
  intros Hparse Hversion Hno Hdir. unfold Evaluate. rewrite Hparse, Hno.
  split.
  - intros Hnode. unfold bind at 1.
    by rewrite (checkVersionInstallation_present m w _ Hdir Hversion Hnode).
  - intros Hnode. destruct (InstallDir_resolves m w Hdir) as [p Hp].
    unfold MkdirAll. rewrite Hp.
    destruct (mkdirAll p (fs w)) as [n err] eqn:Hmk. simpl. intros ->.
    destruct (mkdirAll_makes _ _ _ Hmk) as [entries Hentries].
    assert (∀ version, version ≠ "" →
              nodeAt (setFs n w) (versionPath m version)
              = nodeAt w (versionPath m version)) as Hkept.
    { intros version Hv. unfold nodeAt, versionPath, lookup. simpl.
      rewrite (resolve_Join _ _ _ _ Hv Hp).
      by rewrite (mkdirAll_below p [version] ltac:(done) _ _ Hmk). }
    assert (walk n (p ++ [cleanedVersion]) = inl ErrNotExist) as Hgone.
    { rewrite (walk_child _ _ _ _ Hentries).
      destruct (entries !! cleanedVersion) as [child|] eqn:Hchild; [|done].
      specialize (Hkept cleanedVersion Hversion). rewrite Hnode in Hkept.
      unfold nodeAt, versionPath, lookup in Hkept. simpl in Hkept.
      rewrite (resolve_Join _ _ _ _ Hversion Hp) in Hkept.
      by rewrite (walk_child _ _ _ _ Hentries), Hchild in Hkept. }
    unfold bind at 1. unfold checkVersionInstallation, bind.
    destruct (decide (Rel [] = Rel [])) as [_|]; [|done].
    unfold InstallPath, bind, MkdirAll, ret. fold (InstallDir m).
    rewrite Hp, Hmk. unfold Stat. simpl.
    rewrite (resolve_Join _ _ _ _ Hversion Hp), Hgone.
    destruct (decide (ErrNotExist = ErrNotExist)) as [_|]; [|done].
    simpl. eexists. split; [reflexivity|]. simpl.
    split; [done|]. split; [by rewrite <- app_assoc|].
    intros version Hv. apply (Hkept version Hv).
Qed.

(** [writeFile] tells what it wrote, and only that: after no error the
    file holds the content and the line is displayed; after an error
    nothing is displayed. *)
Lemma writeFile_spec (filePath : filename) (content : string) (w : World) :
  match (writeFile filePath content w).1 with
  | None =>
      nodeAt (writeFile filePath content w).2 filePath = Some (File content) ∧
      events (writeFile filePath content w).2
      = events w ++ [EvDisplay (Concat ["Written "; content; " in ";
                                        showName filePath])]
  | Some _ => events (writeFile filePath content w).2 = events w
  end.
Proof.
  unfold writeFile, bind, WriteFile, nodeAt, lookup.
  destruct (resolve (cwd w) filePath) as [p|] eqn:Hp; simpl; [|done].
  destruct (writeFault (fs w) p content) as [[fault written]|].
  - by destruct (writeAt p _ (fs w)) as [n [err|]].
  - destruct (writeAt p content (fs w)) as [n [err|]] eqn:Hwrite; simpl;
      [done|].
    by rewrite Hp, (writeAt_written _ _ _ _ Hwrite).
Qed.

(** In a directory that is there, on a disk that does not fail, [writeFile]
    writes the file. *)
Lemma writeFile_done (filePath : filename) (content : string) (w : World)
    (p : path) (name : string) (entries : gmap string node) :
  resolve (cwd w) filePath = Some (p ++ [name]) →
  walk (fs w) p = inr (Dir entries) →
  (∀ sub, entries !! name ≠ Some (Dir sub)) →
  writeFault (fs w) (p ++ [name]) content = None →
  ∃ n,
    writeFile filePath content w
    = (None,
       emit (EvDisplay (Concat ["Written "; content; " in "; showName filePath]))
         (setFs n w)) ∧
    walk n p = inr (Dir (<[name := File content]> entries)).
Proof.
  intros Hp Hwalk Hfile Hsound.
  destruct (writeAt_in_dir p name content (fs w) entries Hwalk Hfile)
    as (n & Hwrite & Hdir).
  exists n. split; [|done].
  unfold writeFile, bind, WriteFile. by rewrite Hp, Hsound, Hwrite.
Qed.

(** The world after the lines of a parser are displayed. *)
Lemma displayAll_events (msgs : list string) :
  ∀ w, events (displayAll msgs w).2 = events w ++ (EvDisplay <$> msgs) ∧
       fs (displayAll msgs w).2 = fs w ∧
       cwd (displayAll msgs w).2 = cwd w ∧
       env (displayAll msgs w).2 = env w.
Proof.
  unfold displayAll. simpl.
  induction msgs as [|msg msgs IH]; intros w; simpl.
  - by rewrite app_nil_r.
  - destruct (IH (emit (EvDisplay msg) w)) as (-> & -> & -> & ->). simpl.
    by rewrite <- app_assoc.
Qed.

Lemma consult_run {A} (parser : node → path → gmap string string → A * list string)
    (w : World) :
  (consult parser w).1 = (parser (fs w) (cwd w) (env w)).1 ∧
  events (consult parser w).2
  = events w ++ (EvDisplay <$> (parser (fs w) (cwd w) (env w)).2) ∧
  fs (consult parser w).2 = fs w ∧
  cwd (consult parser w).2 = cwd w ∧
  env (consult parser w).2 = env w.
Proof.
  unfold consult. destruct (parser (fs w) (cwd w) (env w)) as [a msgs]. simpl.
  split; [done|]. apply displayAll_events.
Qed.

(** C3.  [Resolve] asks its sources in this order and stops at the first
    one that answers; the events tell which ones it asked.
    - The variable [VersionEnvName], when not empty, is the result, and
      nothing else is asked.
    - Else the version files are parsed; an error or a version from them is
      the result, and nothing else is asked.
    - Else the variable [defaultVersionEnvName], when not empty, is the
      result.
    - Else the file [version] of the install directory is parsed; an error
      or a version from it is the result.
    - Else the result is the default strategy.
    The tree and the environment are left as they are. *)
Theorem resolve_precedence (m : VersionManager) (defaultStrategy : string)
    (w : World) :
  let fromEnv := default "" (env w !! VersionEnvName m) in
  let fromFiles :=
    semantic_RetrieveVersion (VersionFiles m) (conf m) (fs w) (cwd w) (env w) in
  let fromDefaultEnv := default "" (env w !! defaultVersionEnvName m) in
  let fromFlat :=
    flatparser_RetrieveVersion (RootVersionFilePath m) (conf m) (fs w) (cwd w)
      (env w) in
  let result := (Resolve m defaultStrategy w).1 in
  let after := (Resolve m defaultStrategy w).2 in
  (fs after = fs w ∧ cwd after = cwd w ∧ env after = env w) ∧
  (fromEnv ≠ "" →
   result = (fromEnv, None) ∧
   events after
   = events w ++ [EvGetenv (VersionEnvName m);
                  EvDisplay (detectionText fromEnv (VersionEnvName m))]) ∧
  (fromEnv = "" → answers fromFiles →
   result = fromFiles.1 ∧
   events after
   = events w ++ [EvGetenv (VersionEnvName m); EvRetrieveVersionFiles]
       ++ (EvDisplay <$> fromFiles.2)) ∧
  (fromEnv = "" → ¬ answers fromFiles → fromDefaultEnv ≠ "" →
   result = (fromDefaultEnv, None) ∧
   events after
   = events w ++ [EvGetenv (VersionEnvName m); EvRetrieveVersionFiles]
       ++ (EvDisplay <$> fromFiles.2)
       ++ [EvGetenv (defaultVersionEnvName m);
           EvDisplay (detectionText fromDefaultEnv (defaultVersionEnvName m))]) ∧
  (fromEnv = "" → ¬ answers fromFiles → fromDefaultEnv = "" →
   answers fromFlat →
   result = fromFlat.1 ∧
   events after
   = events w ++ [EvGetenv (VersionEnvName m); EvRetrieveVersionFiles]
       ++ (EvDisplay <$> fromFiles.2)
       ++ [EvGetenv (defaultVersionEnvName m);
           EvRetrieveFlat (RootVersionFilePath m)]
       ++ (EvDisplay <$> fromFlat.2)) ∧
  (fromEnv = "" → ¬ answers fromFiles → fromDefaultEnv = "" →
   ¬ answers fromFlat →
   result = (defaultStrategy, None) ∧
   events after
   = events w ++ [EvGetenv (VersionEnvName m); EvRetrieveVersionFiles]
       ++ (EvDisplay <$> fromFiles.2)
       ++ [EvGetenv (defaultVersionEnvName m);
           EvRetrieveFlat (RootVersionFilePath m)]
       ++ (EvDisplay <$> fromFlat.2)
       ++ [EvDisplay (Concat ["No version files found for "; FolderName m;
                              ", fallback to "; defaultStrategy; " strategy"])]).
Proof.
  intros fromEnv fromFiles fromDefaultEnv fromFlat result after.
  subst result after.
  destruct (Resolve m defaultStrategy w) as [result after] eqn:Hrun.
  simpl. revert Hrun. unfold Resolve.
  unfold bind at 1. unfold Getenv at 1. fold fromEnv.
  destruct (decide (fromEnv ≠ "")) as [Henv|Henv].
  { intros [= <- <-]. simpl. rewrite <- app_assoc. by repeat split. }
  apply dec_stable in Henv.
  unfold bind at 1. unfold ResolveWithVersionFiles, bind, log.
  set (w1 := emit EvRetrieveVersionFiles (emit (EvGetenv (VersionEnvName m)) w)).
  pose proof (consult_run (semantic_RetrieveVersion (VersionFiles m) (conf m)) w1)
    as (Hres1 & Hev1 & Hfs1 & Hcwd1 & Henv1).
  change (fs w1) with (fs w) in Hres1, Hev1, Hfs1.
  change (cwd w1) with (cwd w) in Hres1, Hev1, Hcwd1.
  change (env w1) with (env w) in Hres1, Hev1, Henv1.
  fold fromFiles in Hres1, Hev1.
  destruct (consult (semantic_RetrieveVersion (VersionFiles m) (conf m)) w1)
    as [[version1 err1] w2]. simpl in Hres1, Hev1, Hfs1, Hcwd1, Henv1.
  assert (events w2
          = events w ++ [EvGetenv (VersionEnvName m); EvRetrieveVersionFiles]
              ++ (EvDisplay <$> fromFiles.2)) as Hev2.
  { rewrite Hev1. simpl. by rewrite <- !app_assoc. }
  destruct (decide (err1 ≠ None ∨ version1 ≠ "")) as [Hfiles|Hfiles].
  { intros [= <- <-].
    assert (answers fromFiles) by (unfold answers; by rewrite <- Hres1).
    by repeat split. }
  assert (¬ answers fromFiles) as Hnofiles
    by (unfold answers; by rewrite <- Hres1).
  unfold Getenv at 1. rewrite Henv1. fold fromDefaultEnv.
  destruct (decide (fromDefaultEnv ≠ "")) as [Hdefault|Hdefault].
  { intros [= <- <-]. simpl. rewrite Hev2, <- !app_assoc. by repeat split. }
  apply dec_stable in Hdefault.
  unfold flatparser_RetrieveVersion_call, bind, log.
  set (w3 := emit (EvRetrieveFlat (RootVersionFilePath m))
               (emit (EvGetenv (defaultVersionEnvName m)) w2)).
  pose proof (consult_run
                (flatparser_RetrieveVersion (RootVersionFilePath m) (conf m)) w3)
    as (Hres3 & Hev3 & Hfs3 & Hcwd3 & Henv3).
  change (fs w3) with (fs w2) in Hres3, Hev3, Hfs3.
  change (cwd w3) with (cwd w2) in Hres3, Hev3, Hcwd3.
  change (env w3) with (env w2) in Hres3, Hev3, Henv3.
  rewrite Hfs1, Hcwd1, Henv1 in Hres3, Hev3.
  rewrite Hfs1 in Hfs3. rewrite Hcwd1 in Hcwd3. rewrite Henv1 in Henv3.
  fold fromFlat in Hres3, Hev3.
  destruct (consult (flatparser_RetrieveVersion (RootVersionFilePath m) (conf m))
              w3) as [[version3 err3] w4].
  simpl in Hres3, Hev3, Hfs3, Hcwd3, Henv3.
  assert (events w4
          = events w ++ [EvGetenv (VersionEnvName m); EvRetrieveVersionFiles]
              ++ (EvDisplay <$> fromFiles.2)
              ++ [EvGetenv (defaultVersionEnvName m);
                  EvRetrieveFlat (RootVersionFilePath m)]
              ++ (EvDisplay <$> fromFlat.2)) as Hev4.
  { rewrite Hev3. simpl. rewrite Hev2. by rewrite <- !app_assoc. }
  destruct (decide (err3 ≠ None ∨ version3 ≠ "")) as [Hflat|Hflat].
  { intros [= <- <-].
    assert (answers fromFlat) by (unfold answers; by rewrite <- Hres3).
    by repeat split. }
  assert (¬ answers fromFlat) as Hnoflat
    by (unfold answers; by rewrite <- Hres3).
  intros [= <- <-]. simpl. rewrite Hev4, <- !app_assoc. by repeat split.
Qed.

(** ** Lists of versions *)

Lemma find_first {A} (f : A → bool) (before after : list A) (x : A) :
  Forall (λ y, f y = false) before →
  f x = true →
  List.find f (before ++ x :: after) = Some x.
Proof.
  induction 1 as [|y before Hy _ IH]; intros Hx; simpl.
  - by rewrite Hx.
  - rewrite Hy. by apply IH.
Qed.

Lemma find_none {A} (f : A → bool) (l : list A) :
  Forall (λ y, f y = false) l → List.find f l = None.
Proof. induction 1 as [|y l Hy _ IH]; simpl; [done|]. by rewrite Hy. Qed.

Lemma Reverser_WeakOrder (cmp : string → string → Z) (reverseOrder : bool) :
  WeakOrder cmp → WeakOrder (Reverser cmp reverseOrder).
Proof.
  intros [Hflip Htrans]. destruct reverseOrder; [|done]. split; simpl.
  - intros a b. split; intros Hab; by apply Hflip.
  - intros a b c Hab Hbc. by apply (Htrans c b a).
Qed.

Lemma StronglySorted_reverse {A} (R : relation A) (l : list A) :
  StronglySorted R l → StronglySorted (flip R) (reverse l).
Proof.
  induction 1 as [|x l _ IH Hx]; [constructor|].
  rewrite reverse_cons. apply StronglySorted_app_2; [|done|].
  - intros x1 x2 Hx1 Hx2. apply list_elem_of_singleton in Hx2 as ->.
    rewrite elem_of_reverse in Hx1. unfold flip.
    rewrite list.Forall_forall in Hx. by apply Hx.
  - repeat constructor.
Qed.

Lemma dirNames_elem (entries : list DirEntry) (name : string) :
  name ∈ dirNames entries ↔ {| Name := name; IsDir := true |} ∈ entries.
Proof.
  induction entries as [|[entryName entryIsDir] entries IH]; simpl.
  - by rewrite !elem_of_nil.
  - destruct entryIsDir; rewrite ?elem_of_cons, IH.
    + split; (intros [?|?]; [left|by right]); congruence.
    + split; [by right|]. by intros [?|?].
Qed.

Lemma dirNames_NoDup (entries : list DirEntry) :
  NoDup (Name <$> entries) → NoDup (dirNames entries).
Proof.
  induction entries as [|[entryName entryIsDir] entries IH]; simpl;
    [constructor|].
  intros [Hnotin Hnodup]%NoDup_cons. destruct entryIsDir; [|by apply IH].
  apply NoDup_cons. split; [|by apply IH].
  intros Hin%dirNames_elem. apply Hnotin.
  apply (list_elem_of_fmap_2 Name) in Hin. done.
Qed.

Lemma dirEntries_elem (entries : gmap string node) (entry : DirEntry) :
  entry ∈ dirEntries entries ↔
  ∃ n, entries !! Name entry = Some n ∧ IsDir entry = isDir n.
Proof.
  unfold dirEntries. rewrite list_elem_of_fmap. split.
  - intros ([name n] & -> & Hin). rewrite merge_sort_Permutation in Hin.
    apply elem_of_map_to_list in Hin. eauto.
  - intros (n & Hn & Hdir). exists (Name entry, n). split.
    + destruct entry. simpl in *. by subst.
    + rewrite merge_sort_Permutation. by apply elem_of_map_to_list.
Qed.

Lemma dirEntries_NoDup (entries : gmap string node) :
  NoDup (Name <$> dirEntries entries).
Proof.
  unfold dirEntries. rewrite <- list_fmap_compose.
  rewrite merge_sort_Permutation. apply NoDup_fst_map_to_list.
Qed.

(** The names [innerListLocal] sorts are those of the sub-directories,
    each once. *)
Lemma dirNames_dirEntries (entries : gmap string node) :
  NoDup (dirNames (dirEntries entries)) ∧
  ∀ name, name ∈ dirNames (dirEntries entries) ↔
          ∃ sub, entries !! name = Some (Dir sub).
Proof.
  split; [apply dirNames_NoDup, dirEntries_NoDup|].
  intros name. rewrite dirNames_elem, dirEntries_elem. simpl. split.
  - intros ([content|sub] & Hn & Hdir); [done|eauto].
  - intros [sub Hsub]. eauto.
Qed.

Section Sorted.

Context {laws : SortLaws}.

Lemma sorted_by_order (reverseOrder : bool) (l : list string) :
  SortFunc (Reverser CmpVersion reverseOrder) l ≡ₚ l ∧
  StronglySorted
    (λ a b, if reverseOrder then CmpVersion b a ≤ 0 else CmpVersion a b ≤ 0)%Z
    (SortFunc (Reverser CmpVersion reverseOrder) l).
Proof.
  split; [apply SortFunc_Permutation|].
  pose proof (SortFunc_Sorted (Reverser CmpVersion reverseOrder) l
                (Reverser_WeakOrder _ _ CmpVersion_WeakOrder)) as Hsorted.
  by destruct reverseOrder.
Qed.

(** C4.  When the retriever gives its list of releases,
    [searchInstallRemote] goes through that list sorted by [CmpVersion],
    upwards, or downwards if [ReverseOrder] is set, and stops at the first
    version the predicate accepts: with [noInstall] it returns that version
    with [ErrNoCompatibleLocally], nothing being installed; without, it
    installs it and returns that version with the result of
    [installSpecificVersion] on it: a version that is in the install
    directory is reported as installed already; for one that is not there
    the retriever is called under the lock, for that version and its
    directory, and its error is returned; and with a retriever that keeps
    its contract, the version is in the install directory whenever no error
    is returned.  When the predicate accepts no version of the list it
    returns [errNoCompatible]. *)
Theorem search_install_remote (m : VersionManager) (predicateInfo : PredicateInfo)
    (noInstall proxyCall : bool) (w : World) (releases : list string) :
  ListReleases (retriever m) (emit EvListReleases w) = (releases, None) →
  let versions :=
    SortFunc (Reverser CmpVersion (ReverseOrder predicateInfo)) releases in
  let listed := emit EvListReleases w in
  versions ≡ₚ releases ∧
  StronglySorted
    (λ a b, if ReverseOrder predicateInfo then CmpVersion b a ≤ 0
            else CmpVersion a b ≤ 0)%Z versions ∧
  (∀ before version after,
     versions = before ++ version :: after →
     Forall (λ v, Predicate predicateInfo v = false) before →
     Predicate predicateInfo version = true →
     let found :=
       emit (EvDisplay ("Found compatible version remotely : " +:+ version))
         listed in
     (noInstall = true →
      searchInstallRemote m predicateInfo noInstall proxyCall w
      = ((version, Some ErrNoCompatibleLocally),
         emit (EvDisplay (autoInstallDisabledText m version))
           (emit (EvFlush false) found))) ∧
     (noInstall = false →
      searchInstallRemote m predicateInfo noInstall proxyCall w
      = ((version, (installSpecificVersion m version proxyCall found).1),
         (installSpecificVersion m version proxyCall found).2) ∧
      (InstallDir m ≠ Rel [] → version ≠ "" →
       is_Some (nodeAt w (versionPath m version)) →
       searchInstallRemote m predicateInfo noInstall proxyCall w
       = ((version, None), alreadyInstalled m version proxyCall found)) ∧
      (∀ entries,
         version ≠ "" →
         nodeAt w (InstallDir m) = Some (Dir entries) →
         entries !! version = None →
         let installed :=
           InstallRelease (retriever m) version (versionPath m version)
             (installing m version found) in
         searchInstallRemote m predicateInfo noInstall proxyCall w
         = ((version, installed.2),
            afterInstall m version installed.1 installed.2 found)) ∧
      (InstallDir m ≠ Rel [] → installsTarget (retriever m) →
       (searchInstallRemote m predicateInfo noInstall proxyCall w).1.2 = None →
       is_Some
         (nodeAt (searchInstallRemote m predicateInfo noInstall proxyCall w).2
            (versionPath m version))))) ∧
  (Forall (λ v, Predicate predicateInfo v = false) versions →
   searchInstallRemote m predicateInfo noInstall proxyCall w
   = (("", Some errNoCompatible), emit (EvFlush proxyCall) listed)).
Proof.
  intros Hlist versions listed.
  destruct (sorted_by_order (ReverseOrder predicateInfo) releases)
    as [Hperm Hsorted].
  split; [done|]. split; [done|].
  assert (∀ r,
    (match List.find (Predicate predicateInfo) versions with
     | Some version =>
         run Display ("Found compatible version remotely : " +:+ version);;
         if noInstall then
           do err <- autoInstallDisabledMsg m version;; ret (version, err)
         else
           do err <- installSpecificVersion m version proxyCall;;
           ret (version, err)
     | None => run Flush proxyCall;; ret ("", Some errNoCompatible)
     end) listed = r →
    searchInstallRemote m predicateInfo noInstall proxyCall w = r) as Hrun.
  { intros r <-. unfold searchInstallRemote, bind at 1.
    unfold ListRemote, bind at 1. unfold retriever_ListReleases.
    subst listed. by rewrite Hlist. }
  split.
  - intros before version after Hsplit Hbefore Hversion found. split.
    + intros ->. apply Hrun. rewrite Hsplit, (find_first _ _ _ _ Hbefore Hversion).
      reflexivity.
    + intros ->.
      assert (searchInstallRemote m predicateInfo false proxyCall w
              = ((version, (installSpecificVersion m version proxyCall found).1),
                 (installSpecificVersion m version proxyCall found).2))
        as Hinstall.
      { apply Hrun. rewrite Hsplit, (find_first _ _ _ _ Hbefore Hversion).
        unfold bind, Display, log. fold found.
        by destruct (installSpecificVersion m version proxyCall found). }
      rewrite Hinstall. split; [done|]. split; [|split].
      * intros Hdir Hname Hnode.
        rewrite (installSpecificVersion_present m found version proxyCall
                   Hdir Hname); [done|].
        subst found listed. by rewrite !nodeAt_emit.
      * intros entries Hname Hnode Habsent installed.
        rewrite (installSpecificVersion_absent m found version proxyCall
                   entries Hname); [done| |done].
        subst found listed. by rewrite !nodeAt_emit.
      * intros Hdir Hcontract. simpl. intros Hnil.
        destruct (installSpecificVersion m version proxyCall found)
          as [result w'] eqn:Hdone.
        simpl in Hnil. subst result.
        by destruct (installSpecificVersion_installs m found w' version
                       proxyCall Hdir Hcontract Hdone).
  - intros Hnone. apply Hrun. by rewrite (find_none _ _ Hnone).
Qed.

(** C9, amended.  For an install path that leads to a directory,
    [innerListLocal] returns, without error and leaving the world as it is,
    the names of the sub-directories of that directory, each once, plain
    files left out, sorted by [CmpVersion]: upwards when [reverseOrder] is
    not set, downwards when it is.  When no two sub-directories have names
    that [CmpVersion] takes for equal, the list for [reverseOrder] set is
    the reverse of the other one. *)
Theorem local_versions_sorted (m : VersionManager) (w : World)
    (installPath : filename) (entries : gmap string node) :
  nodeAt w installPath = Some (Dir entries) →
  let versions reverseOrder :=
    (innerListLocal m installPath reverseOrder w).1.1 in
  (∀ reverseOrder,
     innerListLocal m installPath reverseOrder w
     = ((versions reverseOrder, None), w) ∧
     NoDup (versions reverseOrder) ∧
     ∀ name, name ∈ versions reverseOrder ↔
             ∃ sub, entries !! name = Some (Dir sub)) ∧
  StronglySorted (λ a b, CmpVersion a b ≤ 0)%Z (versions false) ∧
  StronglySorted (λ a b, CmpVersion b a ≤ 0)%Z (versions true) ∧
  ((∀ a b sa sb,
      entries !! a = Some (Dir sa) → entries !! b = Some (Dir sb) →
      CmpVersion a b = 0%Z → a = b) →
   versions true = reverse (versions false)).
Proof.
  intros Hnode versions.
  apply nodeAt_walk in Hnode as (p & Hp & Hwalk).
  assert (∀ reverseOrder,
    innerListLocal m installPath reverseOrder w
    = ((SortFunc (Reverser CmpVersion reverseOrder)
          (dirNames (dirEntries entries)), None), w)) as Hrun.
  { intros reverseOrder. unfold innerListLocal, bind, ReadDir.
    by rewrite Hp, Hwalk. }
  assert (∀ reverseOrder,
    versions reverseOrder
    = SortFunc (Reverser CmpVersion reverseOrder)
        (dirNames (dirEntries entries))) as Hversions.
  { intros reverseOrder. unfold versions. by rewrite Hrun. }
  destruct (dirNames_dirEntries entries) as [Hnodup Hnames].
  assert (∀ reverseOrder name,
    name ∈ versions reverseOrder ↔ ∃ sub, entries !! name = Some (Dir sub))
    as Helem.
  { intros reverseOrder name. rewrite Hversions, <- Hnames.
    by rewrite (proj1 (sorted_by_order reverseOrder _)). }
  split; [|split; [|split]].
  - intros reverseOrder. split; [|split].
    + by rewrite Hversions.
    + rewrite Hversions. by rewrite (proj1 (sorted_by_order reverseOrder _)).
    + apply Helem.
  - rewrite Hversions. apply (sorted_by_order false).
  - rewrite Hversions. apply (sorted_by_order true).
  - intros Hties.
    apply (StronglySorted_unique_strong (λ a b, CmpVersion b a ≤ 0)%Z).
    + intros a b Ha Hb Hba Hab.
      apply Helem in Ha as [sa Ha]. rewrite elem_of_reverse in Hb.
      apply Helem in Hb as [sb Hb]. apply (Hties a b sa sb Ha Hb).
      destruct CmpVersion_WeakOrder as [Hflip _].
      destruct (Z.lt_total (CmpVersion a b) 0) as [Hlt|[Heq|Hgt]]; [|done|].
      * apply Hflip in Hlt. lia.
      * lia.
    + rewrite Hversions. apply (sorted_by_order true).
    + apply (StronglySorted_reverse (λ a b, CmpVersion a b ≤ 0)%Z).
      rewrite Hversions. apply (sorted_by_order false).
    + rewrite reverse_Permutation, !Hversions.
      by rewrite !(proj1 (sorted_by_order _ _)).
Qed.

End Sorted.

End ManagerFacts.

(** * The sample collaborators keep the contracts *)

Section SampleFacts.

Import OS Manager Samples.

Lemma sampleRetriever_installs : installsTarget sampleRetriever.
Proof.
  intros version target w n. simpl. unfold nodeAt, lookup. simpl.
  destruct (resolve (cwd w) target) as [p|]; [|done].
  destruct (mkdirAll p (fs w)) as [made [err|]]; [done|].
  intros Hwrite. apply writeAt_parent in Hwrite as [entries Hentries].
  exists entries. by rewrite Hentries.
Qed.

Lemma sink_Permutation (cmp : string → string → Z) (x : string)
    (sorted : list string) :
  sink cmp x sorted ≡ₚ x :: sorted.
Proof.
  induction sorted as [|y sorted IH]; simpl; [done|].
  destruct (decide (cmp x y < 0)%Z); [|done].
  rewrite IH. apply Permutation_swap.
Qed.

Lemma insertionSortCmpFunc_Permutation (cmp : string → string → Z)
    (data : list string) :
  insertionSortCmpFunc cmp data ≡ₚ data.
Proof.
  unfold insertionSortCmpFunc. rewrite reverse_Permutation.
  assert (∀ sorted, foldl (λ sorted x, sink cmp x sorted) sorted data
                    ≡ₚ data ++ sorted) as Hfold.
  { induction data as [|x data IH]; intros sorted; simpl; [done|].
    rewrite IH, sink_Permutation. by rewrite Permutation_middle. }
  by rewrite Hfold, app_nil_r.
Qed.

Lemma sink_sorted (cmp : string → string → Z) (x : string)
    (sorted : list string) :
  WeakOrder cmp →
  StronglySorted (λ a b, cmp b a ≤ 0)%Z sorted →
  StronglySorted (λ a b, cmp b a ≤ 0)%Z (sink cmp x sorted).
Proof.
  intros [Hflip Htrans].
  induction 1 as [|y sorted Hsorted IH Hy]; simpl; [repeat constructor|].
  destruct (decide (cmp x y < 0)%Z) as [Hlt|Hge].
  - constructor; [done|]. rewrite sink_Permutation.
    constructor; [lia | done].
  - assert (cmp y x ≤ 0)%Z as Hyx.
    { destruct (Z.lt_total (cmp y x) 0) as [?|[?|Hgt]]; [lia..|].
      apply Hflip in Hgt. lia. }
    constructor; [by constructor|]. constructor; [done|].
    eapply Forall_impl; [exact Hy|]. intros b Hb. simpl in Hb.
    by apply (Htrans b y x).
Qed.

Lemma insertionSortCmpFunc_Sorted (cmp : string → string → Z)
    (data : list string) :
  WeakOrder cmp →
  StronglySorted (λ a b, cmp a b ≤ 0)%Z (insertionSortCmpFunc cmp data).
Proof.
  intros Horder. unfold insertionSortCmpFunc.
  apply (StronglySorted_reverse (λ a b, cmp b a ≤ 0)%Z).
  assert (∀ sorted,
            StronglySorted (λ a b, cmp b a ≤ 0)%Z sorted →
            StronglySorted (λ a b, cmp b a ≤ 0)%Z
              (foldl (λ sorted x, sink cmp x sorted) sorted data)) as Hfold.
  { induction data as [|x data IH]; intros sorted Hsorted; simpl; [done|].
    by apply IH, sink_sorted. }
  apply Hfold. constructor.
Qed.

Lemma compareSegments_flip (xs : list N) :
  ∀ ys, (compareSegments xs ys < 0 ↔ 0 < compareSegments ys xs)%Z.
Proof.
  induction xs as [|x xs IH]; intros [|y ys]; simpl; try lia.
  rewrite (N.compare_antisym x y).
  destruct (x ?= y)%N; simpl; [apply IH | lia..].
Qed.

Lemma compareSegments_trans (xs : list N) :
  ∀ ys zs,
    (compareSegments xs ys ≤ 0 → compareSegments ys zs ≤ 0 →
     compareSegments xs zs ≤ 0)%Z.
Proof.
  induction xs as [|x xs IH]; intros [|y ys] [|z zs]; simpl; try lia.
  destruct (N.compare_spec x y), (N.compare_spec y z), (N.compare_spec x z);
    subst; try lia; eauto.
Qed.

Lemma sampleCmpVersion_WeakOrder : WeakOrder sampleCmpVersion.
Proof.
  split; unfold sampleCmpVersion.
  - intros a b. apply compareSegments_flip.
  - intros a b c. apply compareSegments_trans.
Qed.

Lemma sampleSortLaws : @SortLaws samplePackages.
Proof.
  split.
  - apply insertionSortCmpFunc_Permutation.
  - apply insertionSortCmpFunc_Sorted.
  - apply sampleCmpVersion_WeakOrder.
Qed.

End SampleFacts.

(** * The theorems on the sample collaborators *)

Section Witnesses.

Import OS Manager Samples.

#[local] Existing Instance samplePackages.
#[local] Existing Instance soundDisk.

Lemma InstallDir_tofu (noInstall : bool) : InstallDir (tofu noInstall) ≠ Rel [].
Proof. by vm_compute. Qed.

Example Evaluate_fresh :
  (Evaluate (tofu false) "v1.6.2" false fresh).1 = ("1.6.2", None).
Proof. vm_compute. reflexivity. Qed.

Example local_versions_three :
  (innerListLocal (tofu false) (InstallDir (tofu false)) false three).1
  = (["1.5.7"; "1.6.0"; "1.10.0"], None) ∧
  (innerListLocal (tofu false) (InstallDir (tofu false)) true three).1
  = (["1.10.0"; "1.6.0"; "1.5.7"], None).
Proof. split; vm_compute; reflexivity. Qed.

(** C6.  On a manager without version file, [Use] for the file of the
    install directory panics at [m.VersionFiles[0]], which it reads before
    it looks at [workingDir]: [Evaluate] has installed the version by
    then, and the file [version] of the install directory is not written.
    The same call on the manager with version files writes it. *)
Theorem use_global_without_version_file :
  VersionFiles nofile = [] ∧
  (Evaluate nofile "1.6.2" false fresh).1 = ("1.6.2", None) ∧
  (Use nofile "1.6.2" false fresh).1
  = Panicked "index out of range [0] with length 0" ∧
  is_Some (nodeAt (Use nofile "1.6.2" false fresh).2
             (versionPath nofile "1.6.2")) ∧
  nodeAt (Use nofile "1.6.2" false fresh).2 (RootVersionFilePath nofile)
  = None ∧
  (Use (tofu false) "1.6.2" false fresh).1 = Returned None ∧
  nodeAt (Use (tofu false) "1.6.2" false fresh).2
    (RootVersionFilePath (tofu false))
  = Some (File "1.6.2").
Proof. repeat split; vm_compute; eauto. Qed.

Example autoInstallDisabledText_tofu :
  autoInstallDisabledText (tofu true) "1.6.2"
  = "Auto-install is disabled. To install OpenTofu version 1.6.2, you can set environment variable TENV_AUTO_INSTALL=true, or install it via any of the following command: 'tenv opentofu install', 'tenv opentofu install 1.6.2'".
Proof. reflexivity. Qed.

Lemma install_again_is_idle_witness :
  InstallDir (tofu false) ≠ Rel [] ∧
  installsTarget (retriever (tofu false)) ∧
  ∃ w2,
    Install (tofu false) "v1.6.2" (Install (tofu false) "v1.6.2" fresh).2
    = (None, w2) ∧
    retrieverCalls (events w2)
    = retrieverCalls (events (Install (tofu false) "v1.6.2" fresh).2) ∧
    fs w2 = fs (Install (tofu false) "v1.6.2" fresh).2.
Proof.
  split; [apply InstallDir_tofu|]. split; [apply sampleRetriever_installs|].
  destruct (install_again_is_idle (tofu false) (InstallDir_tofu false)
              sampleRetriever_installs) as (_ & _ & Hagain).
  apply (Hagain "v1.6.2" fresh).
  - vm_compute. eauto.
  - vm_compute. reflexivity.
Defined.

Lemma plain_file_counts_as_installed_witness :
  InstallDir (tofu false) ≠ Rel [] ∧
  "1.6.2" ≠ "" ∧
  nodeAt strayFile (versionPath (tofu false) "1.6.2") = Some (File "") ∧
  installSpecificVersion (tofu false) "1.6.2" true strayFile
  = (None, alreadyInstalled (tofu false) "1.6.2" true strayFile).
Proof.
  split; [apply InstallDir_tofu|]. split; [done|].
  split; [vm_compute; reflexivity|].
  destruct (plain_file_counts_as_installed (tofu false) strayFile "1.6.2"
              (File "") true (InstallDir_tofu false)) as (_ & Hinstall & _);
    [done | vm_compute; reflexivity | exact Hinstall].
Defined.

Lemma evaluate_without_install_witness :
  NewVersion "v1.6.2" = Some "1.6.2" ∧
  "1.6.2" ≠ "" ∧
  NoInstall (conf (tofu true)) = true ∧
  InstallDir (tofu true) ≠ Rel [] ∧
  nodeAt fresh (versionPath (tofu true) "1.6.2") = None ∧
  (MkdirAll (InstallDir (tofu true)) fresh).1 = None ∧
  ∃ w',
    Evaluate (tofu true) "v1.6.2" false fresh
    = (("1.6.2", Some ErrNoCompatibleLocally), w') ∧
    fs w' = fs (MkdirAll (InstallDir (tofu true)) fresh).2 ∧
    events w'
    = events fresh ++ [EvFlush false;
                       EvDisplay (autoInstallDisabledText (tofu true) "1.6.2")] ∧
    ∀ version, version ≠ "" →
      nodeAt w' (versionPath (tofu true) version)
      = nodeAt fresh (versionPath (tofu true) version).
Proof.
  split; [vm_compute; reflexivity|]. split; [done|]. split; [reflexivity|].
  split; [apply InstallDir_tofu|]. split; [vm_compute; reflexivity|].
  split; [vm_compute; reflexivity|].
  destruct (evaluate_without_install (tofu true) fresh "v1.6.2" "1.6.2" false)
    as (_ & Habsent).
  - vm_compute. reflexivity.
  - done.
  - reflexivity.
  - apply InstallDir_tofu.
  - apply Habsent; vm_compute; reflexivity.
Defined.

Lemma resolve_precedence_witness :
  (Resolve (tofu true) "latest-allowed" allSources).1 = ("1.5.0", None) ∧
  events (Resolve (tofu true) "latest-allowed" allSources).2
  = [EvGetenv "TOFUENV_TOFU_VERSION";
     EvDisplay (detectionText "1.5.0" "TOFUENV_TOFU_VERSION")].
Proof.
  destruct (resolve_precedence (tofu true) "latest-allowed" allSources)
    as (_ & Henv & _).
  apply Henv. vm_compute. discriminate.
Defined.

Lemma search_install_remote_witness :
  SortLaws ∧
  ListReleases (retriever (tofu true)) (emit EvListReleases fresh)
  = (["1.5.0"; "1.6.2"; "1.6.0"], None) ∧
  searchInstallRemote (tofu true) notNewest true false fresh
  = (("1.6.0", Some ErrNoCompatibleLocally),
     emit (EvDisplay (autoInstallDisabledText (tofu true) "1.6.0"))
       (emit (EvFlush false)
          (emit (EvDisplay "Found compatible version remotely : 1.6.0")
             (emit EvListReleases fresh)))) ∧
  nodeAt installed (versionPath (tofu false) "1.6.0") = None ∧
  (searchInstallRemote (tofu false) notNewest false false installed).1
  = ("1.6.0", None) ∧
  nodeAt (searchInstallRemote (tofu false) notNewest false false installed).2
    (versionPath (tofu false) "1.6.0")
  = Some (Dir {[ "tofu" := File "tofu 1.6.0" ]}) ∧
  retrieverCalls
    (events (searchInstallRemote (tofu false) notNewest false false installed).2)
  = [EvListReleases;
     EvInstallRelease "1.6.0" (versionPath (tofu false) "1.6.0")].
Proof.
  split; [apply sampleSortLaws|]. split; [reflexivity|]. split.
  { destruct (search_install_remote (laws := sampleSortLaws) (tofu true)
                notNewest true false fresh ["1.5.0"; "1.6.2"; "1.6.0"]
                eq_refl) as (_ & _ & Hfound & _).
    apply (Hfound ["1.6.2"] "1.6.0" ["1.5.0"]).
    - vm_compute. reflexivity.
    - repeat constructor.
    - reflexivity.
    - reflexivity. }
  split; [vm_compute; reflexivity|].
  destruct (search_install_remote (laws := sampleSortLaws) (tofu false)
              notNewest false false installed ["1.5.0"; "1.6.2"; "1.6.0"]
              eq_refl) as (_ & _ & Hfound & _).
  destruct (Hfound ["1.6.2"] "1.6.0" ["1.5.0"]) as [_ Hinstall].
  - vm_compute. reflexivity.
  - repeat constructor.
  - reflexivity.
  - destruct (Hinstall eq_refl) as (_ & _ & Habsent & _).
    rewrite (Habsent {[ "1.6.2" := Dir {[ "tofu" := File "tofu 1.6.2" ]} ]}).
    + repeat split; vm_compute; reflexivity.
    + done.
    + vm_compute. reflexivity.
    + vm_compute. reflexivity.
Defined.

Lemma local_versions_sorted_witness :
  SortLaws ∧
  nodeAt three (InstallDir (tofu false)) = Some (Dir threeEntries) ∧
  StronglySorted (λ a b, CmpVersion a b ≤ 0)%Z
    (innerListLocal (tofu false) (InstallDir (tofu false)) false three).1.1 ∧
  StronglySorted (λ a b, CmpVersion b a ≤ 0)%Z
    (innerListLocal (tofu false) (InstallDir (tofu false)) true three).1.1.
Proof.
  split; [apply sampleSortLaws|]. split; [vm_compute; reflexivity|].
  destruct (local_versions_sorted (laws := sampleSortLaws) (tofu false)
              three (InstallDir (tofu false)) threeEntries)
    as (_ & Hup & Hdown & _).
  - vm_compute. reflexivity.
  - by split.
Defined.

(** C9 as stated fails: two sub-directories the names of which differ in
    build metadata only are equal for the comparator, and are listed in the
    same order whether [reverseOrder] is set or not. *)
Lemma local_versions_not_reversed :
  (∃ entries, nodeAt twins (InstallDir (tofu false)) = Some (Dir entries)) ∧
  CmpVersion "1.0.0+a" "1.0.0+b" = 0%Z ∧
  (innerListLocal (tofu false) (InstallDir (tofu false)) false twins).1
  = (["1.0.0+a"; "1.0.0+b"], None) ∧
  (innerListLocal (tofu false) (InstallDir (tofu false)) true twins).1
  = (["1.0.0+a"; "1.0.0+b"], None) ∧
  (innerListLocal (tofu false) (InstallDir (tofu false)) true twins).1.1
  ≠ reverse (innerListLocal (tofu false) (InstallDir (tofu false)) false twins).1.1.
Proof.
  split; [eexists; vm_compute; reflexivity|].
  split; [vm_compute; reflexivity|].
  split; [vm_compute; reflexivity|].
  split; [vm_compute; reflexivity|].
  vm_compute. discriminate.
Qed.

End Witnesses.

(** * More on the catalog client *)

Section CatalogMore.

Import Github Samples.

Context `{network : Network}.

Lemma apiGetRequest_decoded (callURL authorizationHeader : string)
    (sent : list Request) (value : any) :
  url_Parse callURL = None →
  decoded sent (requestFor callURL authorizationHeader) = Some value →
  apiGetRequest callURL authorizationHeader sent
  = ((value, None), sent ++ [requestFor callURL authorizationHeader]).
Proof.
  unfold apiGetRequest, decoded. intros ->.
  destruct (Do sent _) as [err|response]; [done|].
  destruct (ResponseBody response); [done..|]. by intros [= ->].
Qed.

(** X1.  A request the client sends is a GET of the URL asked for, with
    the headers [Accept] and [X-GitHub-Api-Version], and with the header
    [Authorization], of value [Bearer] and the token, exactly when the
    token is not empty; it has no other header. *)
Theorem request_headers (callURL githubToken : string) (sent : list Request) :
  url_Parse callURL = None →
  ∃ request,
    (apiGetRequest callURL (buildAuthorizationHeader githubToken) sent).2
    = sent ++ [request] ∧
    Method request = "GET" ∧
    URL request = callURL ∧
    Header request !! "Accept" = Some "application/vnd.github+json" ∧
    Header request !! "X-GitHub-Api-Version" = Some "2022-11-28" ∧
    Header request !! "Authorization"
    = (if decide (githubToken = "") then None
       else Some ("Bearer " +:+ githubToken)) ∧
    ∀ name, is_Some (Header request !! name) →
            name ∈ ["Accept"; "X-GitHub-Api-Version"; "Authorization"].
Proof.
  intros Hparse.
  exists (requestFor callURL (buildAuthorizationHeader githubToken)).
  split.
  { unfold apiGetRequest. rewrite Hparse.
    destruct (Do sent _) as [err|response]; [done|].
    by destruct (ResponseBody response). }
  unfold requestFor, buildAuthorizationHeader. simpl.
  destruct (decide (githubToken = "")) as [->|Htoken]; simpl.
  - repeat split; try done.
    intros name [value Hvalue].
    apply lookup_insert_Some in Hvalue as [[<- _]|[_ Hvalue]];
      [set_solver|].
    apply lookup_insert_Some in Hvalue as [[<- _]|[_ Hvalue]];
      [set_solver|done].
  - destruct (decide ("Bearer " +:+ githubToken = "")) as [Hempty|_];
      [done|].
    repeat split; try done.
    intros name [value Hvalue].
    apply lookup_insert_Some in Hvalue as [[<- _]|[_ Hvalue]];
      [set_solver|].
    apply lookup_insert_Some in Hvalue as [[<- _]|[_ Hvalue]];
      [set_solver|].
    apply lookup_insert_Some in Hvalue as [[<- _]|[_ Hvalue]];
      [set_solver|done].
Qed.

Lemma extractReleases_range_all (values : list any) :
  ∀ releases,
    Forall tagged values →
    extractReleases_range releases values
    = (releases ++ (versionOf <$> values), Some errContinue).
Proof.
  induction values as [|value values IH]; intros releases Htagged; simpl.
  - by rewrite app_nil_r.
  - apply Forall_cons in Htagged as [Hvalue Hvalues].
    unfold tagged in Hvalue. unfold versionOf at 1.
    destruct (extractVersion value) as [version ok]. simpl in *. subst ok.
    rewrite (IH _ Hvalues). by rewrite <- app_assoc.
Qed.

Lemma extractReleases_range_some (values : list any) :
  ∀ releases,
    ¬ Forall tagged values →
    extractReleases_range releases values = ([], Some ErrReturn).
Proof.
  induction values as [|value values IH]; intros releases Htagged; simpl.
  - destruct Htagged. constructor.
  - destruct (extractVersion value) as [version ok] eqn:Hvalue.
    destruct ok; [|done]. apply IH. intros Hvalues. apply Htagged.
    constructor; [|done]. unfold tagged. by rewrite Hvalue.
Qed.

(** X2.  A page of releases that is not empty adds the versions of all its
    releases, in the order of the page, after the releases of the pages
    before, and asks for the next page; if one release of the page has no
    tag, or an empty one, the page and all the pages before are given up
    for [ErrReturn]. *)
Theorem extractReleases_page (releases : list string) (values : list any) :
  values ≠ [] →
  extractReleases releases (JArray values)
  = if decide (Forall tagged values)
    then (releases ++ (versionOf <$> values), Some errContinue)
    else ([], Some ErrReturn).
Proof.
  intros Hvalues. unfold extractReleases. simpl.
  destruct values as [|value values]; [done|].
  destruct (decide (Forall tagged (value :: values))) as [Hall|Hsome].
  - by apply extractReleases_range_all.
  - by apply extractReleases_range_some.
Qed.

Lemma ListReleases_pages_all (basePageURL authorizationHeader : string)
    (pages : list (list any)) :
  ∀ (fuel : nat) (page : Z) (releases : list string) (sent : list Request),
    servesPages basePageURL authorizationHeader page sent pages →
    Forall (Forall tagged) pages →
    length pages < fuel →
    ListReleases_pages fuel page releases basePageURL authorizationHeader sent
    = Some ((releases ++ concat (versionsOf <$> pages), None),
            sent ++ pageRequests basePageURL authorizationHeader page
                      (S (length pages))).
Proof.
  unfold pageRequests.
  induction pages as [|values pages IH];
    intros fuel page releases sent Hserves Htagged Hfuel;
    (destruct fuel as [|fuel]; [simpl in Hfuel; lia|]); simpl.
  - destruct Hserves as [Hparse Hdecoded].
    rewrite (apiGetRequest_decoded _ _ _ _ Hparse Hdecoded). simpl.
    by rewrite app_nil_r.
  - destruct Hserves as (Hparse & Hvalues & Hdecoded & Hserves).
    apply Forall_cons in Htagged as [Hpage Hpages].
    rewrite (apiGetRequest_decoded _ _ _ _ Hparse Hdecoded).
    rewrite (extractReleases_page _ _ Hvalues).
    destruct (decide (Forall tagged values)) as [_|]; [|done].
    destruct (decide (errContinue = errContinue)) as [_|]; [|done].
    rewrite (IH fuel (page + 1)%Z _ _ Hserves Hpages ltac:(simpl in Hfuel; lia)).
    rewrite <- !app_assoc. do 3 f_equal.
    rewrite (seqZ_cons page) by lia. simpl. do 2 f_equal.
    replace (Z.succ page) with (page + 1)%Z by lia.
    f_equal. lia.
Qed.

(** X3.  When the server answers the pages 1, 2, ... with arrays of tagged
    releases that are not empty, and the page after them with the empty
    array, [ListReleases], with fuel for these pages, returns the versions
    of all the releases, page after page in the order of each page, with no
    error, after one request for each page and one for the empty page. *)
Theorem ListReleases_all_pages (fuel : nat) (githubReleaseURL githubToken : string)
    (sent : list Request) (pages : list (list any)) :
  servesPages (githubReleaseURL +:+ pageQuery)
    (buildAuthorizationHeader githubToken) 1 sent pages →
  Forall (Forall tagged) pages →
  length pages < fuel →
  ListReleases fuel githubReleaseURL githubToken sent
  = Some ((concat (versionsOf <$> pages), None),
          sent ++ pageRequests (githubReleaseURL +:+ pageQuery)
                    (buildAuthorizationHeader githubToken) 1
                    (S (length pages))).
Proof.
  intros Hserves Htagged Hfuel. unfold ListReleases.
  by rewrite (ListReleases_pages_all _ _ pages fuel 1 [] sent Hserves Htagged
                Hfuel).
Qed.

Lemma size_list_to_set_cons (x : string) (l : list string) :
  size (list_to_set (x :: l) : gset string)
  = if decide (x ∈ l) then size (list_to_set l : gset string)
    else S (size (list_to_set l : gset string)).
Proof.
  simpl. destruct (decide (x ∈ l)) as [Hin|Hnotin].
  - f_equal. apply subseteq_union_1_L, singleton_subseteq_l.
    by apply elem_of_list_to_set.
  - rewrite size_union, size_singleton; [done|].
    apply disjoint_singleton_l. by rewrite elem_of_list_to_set.
Qed.

Lemma size_list_to_set_le (l : list string) :
  size (list_to_set l : gset string) ≤ length l.
Proof.
  induction l as [|x l IH]; [by rewrite list_to_set_nil, size_empty|].
  rewrite size_list_to_set_cons. simpl. destruct (decide (x ∈ l)); lia.
Qed.

Lemma size_list_to_set_NoDup (l : list string) :
  size (list_to_set l : gset string) = length l → NoDup l.
Proof.
  induction l as [|x l IH]; [constructor|].
  rewrite size_list_to_set_cons. simpl.
  pose proof (size_list_to_set_le l).
  destruct (decide (x ∈ l)); [lia|]. intros [= Hsize].
  constructor; [done|]. by apply IH.
Qed.

Lemma extractAssets_range_recorded (searched : gset string) (waited : nat)
    (values : list any) :
  ∀ (assets assets' : gmap string string),
    extractAssets_range assets searched waited values = (assets', None) →
    0 < size assets'.
Proof.
  induction values as [|value values IH]; intros assets assets'; simpl; [done|].
  destruct (asString (asObject value !! "name")) as [assetName|]; [|done].
  destruct (decide (assetName ∈ searched)) as [Hin|]; [|by apply IH].
  destruct (asString (asObject value !! "browser_download_url"))
    as [downloadURL|]; [|done].
  destruct (decide (size (<[assetName:=downloadURL]> assets) = waited));
    [|by apply IH].
  intros [= <-].
  destruct (decide (size (<[assetName:=downloadURL]> assets) = 0)) as [Hzero|];
    [|lia].
  apply map_size_empty_iff in Hzero. by apply insert_non_empty in Hzero.
Qed.

Lemma extractAssets_dom (searched : gset string) (waited : nat) (value : any)
    (assets assets' : gmap string string) (err : option error) :
  dom assets ⊆ searched →
  extractAssets assets searched waited value = (assets', err) →
  dom assets' ⊆ searched ∧
  (err = None → size assets' = waited ∧ 0 < size assets').
Proof.
  intros Hdom. unfold extractAssets.
  destruct (asArray value) as [[|first values]|].
  - by intros [= <- <-].
  - intros Hrun. split; [by eapply extractAssets_range_dom|].
    intros ->. split.
    + by eapply extractAssets_range_size.
    + by eapply extractAssets_range_recorded.
  - by intros [= <- <-].
Qed.

Lemma DownloadAssetURL_pages_success (searched : gset string) (waited : nat)
    (baseAssetsURL authorizationHeader : string) (fuel : nat) :
  ∀ (page : Z) (assets assets' : gmap string string)
    (sent sent' : list Request),
    dom assets ⊆ searched →
    DownloadAssetURL_pages fuel page assets searched waited baseAssetsURL
      authorizationHeader sent = Some ((assets', None), sent') →
    dom assets' ⊆ searched ∧ size assets' = waited ∧ 0 < size assets'.
Proof.
  induction fuel as [|fuel IH]; intros page assets assets' sent sent' Hdom;
    simpl; [done|].
  destruct (apiGetRequest _ _ sent) as [[value [err|]] sent1]; [done|].
  destruct (extractAssets assets searched waited value) as [assets1 err]
    eqn:Hpage.
  apply (extractAssets_dom _ _ _ _ _ _ Hdom) in Hpage as [Hdom1 Hsize].
  destruct err as [err|].
  - destruct (decide (err = errContinue)); [|done]. by apply IH.
  - intros [= <- _]. destruct Hsize; auto.
Qed.

(** X4.  When the asset search ends with success, the names searched were
    given without repetition and were not none, and the mapping returned
    has exactly the names searched. *)
Theorem DownloadAssetURL_success (fuel : nat) (tag : string)
    (searchedAssetNames : list string) (githubReleaseURL githubToken : string)
    (sent sent' : list Request) (assets : gmap string string) :
  DownloadAssetURL fuel tag searchedAssetNames githubReleaseURL githubToken sent
  = Some ((assets, None), sent') →
  searchedAssetNames ≠ [] ∧
  NoDup searchedAssetNames ∧
  dom assets = list_to_set searchedAssetNames.
Proof.
  unfold DownloadAssetURL.
  destruct (url_JoinPath githubReleaseURL _) as [releaseUrl [jerr|]]; [done|].
  destruct (apiGetRequest releaseUrl _ sent) as [[value [err|]] sent1]; [done|].
  destruct (asString (asObject value !! "assets_url")) as [baseAssetsURL|];
    [|done].
  intros Hrun.
  apply DownloadAssetURL_pages_success in Hrun as (Hdom & Hsize & Hpos);
    [|rewrite dom_empty_L; apply empty_subseteq].
  pose proof (size_list_to_set_le searchedAssetNames) as Hle.
  pose proof (subseteq_size _ _ Hdom) as Hsub. rewrite size_dom in Hsub.
  split; [|split].
  - intros ->. simpl in Hsize. lia.
  - apply size_list_to_set_NoDup. lia.
  - apply set_subseteq_size_eq; [done|]. rewrite size_dom. lia.
Qed.

End CatalogMore.

(** * More on the file tree *)

Section FileTreeMore.

Import OS.

(** In a directory that is there, removing a name succeeds. *)
Lemma removeAll_in_dir (p : path) (name : string) :
  ∀ n n' err entries,
    walk n p = inr (Dir entries) →
    removeAll (p ++ [name]) n = (n', err) →
    err = None ∧ walk n' p = inr (Dir (delete name entries)).
Proof.
  induction p as [|dir p IH]; intros n n' err entries.
  - simpl. intros [= ->] [= <- <-]. done.
  - change ((dir :: p) ++ [name]) with (dir :: (p ++ [name])). simpl.
    destruct n as [old|entries0]; [done|].
    destruct (entries0 !! dir) as [child|] eqn:Hchild; [|done].
    intros Hwalk.
    destruct (p ++ [name]) as [|name' rest] eqn:Hrest.
    { by apply app_eq_nil in Hrest as [_ ?]. }
    destruct (removeAll (name' :: rest) child) as [child' err'] eqn:Hrm.
    destruct (IH _ _ _ _ Hwalk Hrm) as [-> Hchild'].
    intros [= <- <-]. split; [done|]. simpl. by rewrite lookup_insert_eq.
Qed.

Lemma removeAll_gone (p : path) :
  ∀ n n', p ≠ [] → removeAll p n = (n', None) → lookup n' p = None.
Proof.
  unfold lookup.
  induction p as [|name p IH]; intros n n' Hp; simpl; [done|].
  destruct n as [old|entries]; [done|].
  destruct p as [|name' p].
  - intros [= <-]. by rewrite lookup_delete_eq.
  - destruct (entries !! name) as [child|] eqn:Hchild.
    + destruct (removeAll (name' :: p) child) as [child' [err'|]] eqn:Hrm;
        [done|].
      intros [= <-]. rewrite lookup_insert_eq. by eapply IH.
    + intros [= <-]. by rewrite Hchild.
Qed.

Lemma removeAll_sibling (p : path) (name other : string) :
  other ≠ name →
  ∀ n n' err,
    removeAll (p ++ [name]) n = (n', err) →
    walk n' (p ++ [other]) = walk n (p ++ [other]).
Proof.
  intros Hother.
  induction p as [|dir p IH]; intros n n' err.
  - simpl. destruct n as [old|entries]; [by intros [= <-]|].
    intros [= <- _]. by rewrite lookup_delete_ne.
  - change ((dir :: p) ++ [name]) with (dir :: (p ++ [name])).
    change ((dir :: p) ++ [other]) with (dir :: (p ++ [other])). simpl.
    destruct n as [old|entries]; [by intros [= <-]|].
    destruct (p ++ [name]) as [|name' rest] eqn:Hrest.
    { by apply app_eq_nil in Hrest as [_ ?]. }
    destruct (entries !! dir) as [child|] eqn:Hchild.
    + destruct (removeAll (name' :: rest) child) as [child' [err'|]] eqn:Hrm.
      * intros [= <- _]. by rewrite Hchild.
      * intros [= <- _]. rewrite lookup_insert_eq. by eapply IH.
    + intros [= <- _]. by rewrite Hchild.
Qed.

Lemma Join_two (base : filename) (first second : string) :
  Join base [first; second] = Join (Join base [first]) [second].
Proof.
  unfold Join, nonEmpty.
  destruct base as [p|p]; f_equal;
    rewrite <- app_assoc; f_equal;
    change [first; second] with ([first] ++ [second]);
    by rewrite filter_app.
Qed.

End FileTreeMore.

(** * More on the version manager *)

Section ManagerMore.

Import OS Manager.

Context `{packages : Packages} `{helpers : Helpers} `{disk : Disk}.

Lemma without_lookup (versions : list string) :
  ∀ (entries : gmap string node) (name : string),
    without versions entries !! name
    = if decide (name ∈ versions ∧ name ≠ "") then None else entries !! name.
Proof.
  unfold without, nonEmpty.
  induction versions as [|version versions IH]; intros entries name.
  - rewrite filter_nil. simpl.
    destruct (decide (name ∈ [] ∧ name ≠ "")) as [[Hin _]|]; [|done].
    by apply elem_of_nil in Hin.
  - destruct (decide (version = "")) as [->|Hversion].
    + rewrite filter_cons_False by (intros ?; done). rewrite IH.
      destruct (decide (name ∈ versions ∧ name ≠ "")) as [[Hin Hne]|Hno].
      * rewrite decide_True; [done|]. split; [by right|done].
      * rewrite decide_False; [done|]. intros [Hin Hne]. apply Hno.
        apply elem_of_cons in Hin as [->|Hin]; done.
    + rewrite filter_cons_True by done. simpl. rewrite IH.
      destruct (decide (name ∈ versions ∧ name ≠ "")) as [[Hin Hne]|Hno].
      * rewrite decide_True; [done|]. split; [by right|done].
      * destruct (decide (name = version)) as [->|Hname].
        -- rewrite lookup_delete_eq, decide_True; [done|].
           split; [by left|done].
        -- rewrite lookup_delete_ne by done. rewrite decide_False; [done|].
           intros [Hin Hne]. apply Hno.
           apply elem_of_cons in Hin as [->|Hin]; done.
Qed.

(** ** Quiet computations *)

Lemma quiet_ret {A} (a : A) : quiet (ret a).
Proof. by intros w. Qed.

Lemma quiet_bind {A B} (c : M A) (k : A → M B) :
  quiet c → (∀ a, quiet (k a)) → quiet (bind c k).
Proof.
  intros Hc Hk w. unfold bind. specialize (Hc w).
  destruct (c w) as [a w1]. simpl in Hc. specialize (Hk a w1).
  destruct Hc as (<- & <- & <- & <-). exact Hk.
Qed.

Lemma quiet_log (ev : Event) : isRetrieverCall ev = false → quiet (log ev).
Proof.
  intros Hev w. simpl. repeat split. by apply retrieverCalls_snoc.
Qed.

Lemma quiet_Display (msg : string) : quiet (Display msg).
Proof. by apply quiet_log. Qed.

Lemma quiet_Flush (proxyCall : bool) : quiet (Flush proxyCall).
Proof. by apply quiet_log. Qed.

Lemma quiet_Getenv (name : string) : quiet (Getenv name).
Proof.
  intros w. simpl. repeat split. by apply retrieverCalls_snoc.
Qed.

Lemma retrieverCalls_displays (evs : list Event) (msgs : list string) :
  retrieverCalls (evs ++ (EvDisplay <$> msgs)) = retrieverCalls evs.
Proof.
  unfold retrieverCalls. rewrite List.filter_app.
  assert (List.filter isRetrieverCall (EvDisplay <$> msgs) = []) as ->.
  { induction msgs as [|msg msgs IH]; [done|]. simpl. exact IH. }
  apply app_nil_r.
Qed.

Lemma quiet_consult {A}
    (parser : node → path → gmap string string → A * list string) :
  quiet (consult parser).
Proof.
  intros w. destruct (consult_run parser w) as (_ & -> & -> & -> & ->).
  repeat split. apply retrieverCalls_displays.
Qed.

Lemma quiet_Stat (name : filename) : quiet (Stat name).
Proof.
  intros w. unfold Stat. destruct (resolve (cwd w) name) as [p|]; [|done].
  by destruct (walk (fs w) p).
Qed.

Lemma quiet_ReadDir (name : filename) : quiet (ReadDir name).
Proof.
  intros w. unfold ReadDir. destruct (resolve (cwd w) name) as [p|]; [|done].
  by destruct (walk (fs w) p) as [err|[content|entries]].
Qed.

Lemma quiet_innerListLocal (m : VersionManager) (installPath : filename)
    (reverseOrder : bool) :
  quiet (innerListLocal m installPath reverseOrder).
Proof.
  unfold innerListLocal. apply quiet_bind; [apply quiet_ReadDir|].
  intros [entries [err|]]; apply quiet_ret.
Qed.

Lemma quiet_DisplayDetectionInfo (version source : string) :
  quiet (DisplayDetectionInfo version source).
Proof.
  unfold DisplayDetectionInfo. apply quiet_bind; [apply quiet_Display|].
  intros _. apply quiet_ret.
Qed.

(** [Resolve] reads: it leaves the tree and the environment alone and does
    not call the retriever. *)
Lemma quiet_Resolve (m : VersionManager) (defaultStrategy : string) :
  quiet (Resolve m defaultStrategy).
Proof.
  unfold Resolve. apply quiet_bind; [apply quiet_Getenv|]. intros version.
  destruct (decide (version ≠ "")).
  { apply quiet_bind; [apply quiet_DisplayDetectionInfo|].
    intros ?. apply quiet_ret. }
  apply quiet_bind.
  { unfold ResolveWithVersionFiles. apply quiet_bind; [by apply quiet_log|].
    intros _. apply quiet_consult. }
  intros [version1 err1].
  destruct (decide (err1 ≠ None ∨ version1 ≠ "")); [apply quiet_ret|].
  apply quiet_bind; [apply quiet_Getenv|]. intros version2.
  destruct (decide (version2 ≠ "")).
  { apply quiet_bind; [apply quiet_DisplayDetectionInfo|].
    intros ?. apply quiet_ret. }
  apply quiet_bind.
  { unfold flatparser_RetrieveVersion_call.
    apply quiet_bind; [by apply quiet_log|]. intros _. apply quiet_consult. }
  intros [version3 err3].
  destruct (decide (err3 ≠ None ∨ version3 ≠ "")); [apply quiet_ret|].
  apply quiet_bind; [apply quiet_Display|]. intros _. apply quiet_ret.
Qed.

(** X5.  [Detect] starts with a resolution that leaves the tree and the
    environment alone and does not call the retriever.  When the resolution
    fails, [Detect] flushes the display and returns the error with the
    empty version: nothing is installed.  When it gives a request,
    [Detect] is [Evaluate] on that request. *)
Theorem detect_resolves_first (m : VersionManager) (proxyCall : bool)
    (w : World) :
  let resolved := Resolve m "latest-allowed" w in
  fs resolved.2 = fs w ∧ env resolved.2 = env w ∧
  retrieverCalls (events resolved.2) = retrieverCalls (events w) ∧
  match resolved.1.2 with
  | Some err =>
      Detect m proxyCall w = (("", Some err), emit (EvFlush proxyCall) resolved.2) ∧
      fs (Detect m proxyCall w).2 = fs w ∧
      retrieverCalls (events (Detect m proxyCall w).2)
      = retrieverCalls (events w)
  | None => Detect m proxyCall w = Evaluate m resolved.1.1 proxyCall resolved.2
  end.
Proof.
  intros resolved. subst resolved.
  destruct (quiet_Resolve m "latest-allowed" w) as (Hfs & _ & Henv & Hcalls).
  split; [done|]. split; [done|]. split; [done|].
  unfold Detect, bind.
  destruct (Resolve m "latest-allowed" w) as [[version [err|]] w1]; simpl in *.
  - split; [done|]. split; [done|]. by rewrite retrieverCalls_snoc.
  - done.
Qed.

(** ** Installing *)

Lemma checkVersionInstallation_events (m : VersionManager)
    (installPath : filename) (version : string) (w : World) :
  events (checkVersionInstallation m installPath version w).2 = events w.
Proof.
  assert (∀ dir w0,
    events ((let '(a, w1) := Stat (Join dir [version]) w0 in
             match a with
             | Some e =>
                 if decide (e = ErrNotExist) then ret (dir, false, None)
                 else ret (Rel [], false, a)
             | None => ret (dir, true, None)
             end w1)).2 = events w0) as Hstat.
  { intros dir w0. unfold Stat, ret.
    destruct (resolve (cwd w0) (Join dir [version])) as [q|].
    - destruct (walk (fs w0) q) as [err|found]; [|done].
      by destruct (decide (err = ErrNotExist)).
    - by destruct (decide (ErrNotExist = ErrNotExist)). }
  unfold checkVersionInstallation, bind.
  destruct (decide (installPath = Rel [])) as [->|Hne].
  - unfold InstallPath, bind, MkdirAll, ret.
    destruct (resolve (cwd w) _) as [p|]; [|done].
    destruct (mkdirAll p (fs w)) as [n [err|]]; [done|].
    by rewrite Hstat.
  - unfold ret at 1. by rewrite Hstat.
Qed.

(** X6.  [installSpecificVersion] calls the retriever only while it holds
    the lock of the install directory, once at most and for the version and
    the directory of that version; and whatever it returns, a lock it took
    is released and the handler of interrupts disarmed before it returns:
    the events it adds either hold no event of the lock and no call of the
    retriever, or begin with the taking of the lock and end with its
    release. *)
Theorem install_under_lock (m : VersionManager) (version : string)
    (proxyCall : bool) (w : World) :
  ∃ new,
    events (installSpecificVersion m version proxyCall w).2 = events w ++ new ∧
    ((Forall (λ ev, isLockEvent ev = false) new ∧ retrieverCalls new = []) ∨
     ∃ body,
       new = EvLockWrite (InstallDir m) :: body
             ++ [EvLockDelete (InstallDir m); EvDisableExit] ∧
       Forall (λ ev, isLockEvent ev = false) body ∧
       (retrieverCalls body = [] ∨
        retrieverCalls body
        = [EvInstallRelease version (versionPath m version)])).
Proof.
  unfold installSpecificVersion.
  destruct (decide (version = "")) as [|Hversion].
  { exists [EvFlush proxyCall]. split; [done|]. left.
    split; [by repeat constructor|done]. }
  unfold bind at 1.
  pose proof (checkVersionInstallation_events m (Rel []) version w) as He1.
  destruct (checkVersionInstallation m (Rel []) version w)
    as [[[installPath found] err] w1] eqn:Hcheck1. simpl in He1.
  destruct err as [err|].
  { exists []. simpl. rewrite app_nil_r. split; [done|]. left.
    split; [constructor|done]. }
  apply checkVersionInstallation_spec in Hcheck1 as (-> & _ & _ & _).
  destruct (decide (Rel [] = Rel [])) as [_|]; [|done].
  destruct found.
  { exists [EvDisplay (Concat [FolderName m; " "; version; " already installed"]);
            EvFlush proxyCall].
    simpl. rewrite He1, <- app_assoc. split; [done|]. left.
    split; [by repeat constructor|done]. }
  unfold bind at 1. unfold lockfile_Write at 1. unfold log at 1.
  unfold bind at 1. unfold bind at 1.
  set (w2 := emit (EvLockWrite (InstallDir m)) w1).
  pose proof (checkVersionInstallation_events m (InstallDir m) version w2)
    as He2.
  destruct (checkVersionInstallation m (InstallDir m) version w2)
    as [[[installPath2 found2] err2] w3]. simpl in He2.
  rewrite He1 in He2.
  destruct err2 as [err2|].
  { exists ([EvLockWrite (InstallDir m)] ++ []
            ++ [EvLockDelete (InstallDir m); EvDisableExit]).
    simpl. rewrite He2, <- !app_assoc. split; [done|]. right.
    exists []. split; [done|]. split; [constructor|by left]. }
  destruct found2.
  { exists (EvLockWrite (InstallDir m)
            :: [EvDisplay (Concat [FolderName m; " "; version;
                                   " already installed"]);
                EvFlush proxyCall]
            ++ [EvLockDelete (InstallDir m); EvDisableExit]).
    simpl. rewrite He2, <- !app_assoc. split; [done|]. right.
    exists [EvDisplay (Concat [FolderName m; " "; version;
                               " already installed"]);
            EvFlush proxyCall].
    split; [reflexivity|]. split; [by repeat constructor|by left]. }
  unfold bind, Flush, Display, log, retriever_InstallRelease, deleteLock,
    disableExit, ret.
  destruct (InstallRelease (retriever m) version _ _) as [n [err3|]].
  - exists (EvLockWrite (InstallDir m)
            :: [EvFlush false;
                EvDisplay (Concat ["Installing "; FolderName m; " "; version]);
                EvInstallRelease version (versionPath m version)]
            ++ [EvLockDelete (InstallDir m); EvDisableExit]).
    simpl. rewrite He2, <- !app_assoc. split; [done|]. right.
    exists [EvFlush false;
            EvDisplay (Concat ["Installing "; FolderName m; " "; version]);
            EvInstallRelease version (versionPath m version)].
    split; [reflexivity|]. split; [by repeat constructor|by right].
  - exists (EvLockWrite (InstallDir m)
            :: [EvFlush false;
                EvDisplay (Concat ["Installing "; FolderName m; " "; version]);
                EvInstallRelease version (versionPath m version);
                EvDisplay (Concat ["Installation of "; FolderName m; " ";
                                   version; " successful"])]
            ++ [EvLockDelete (InstallDir m); EvDisableExit]).
    simpl. rewrite He2, <- !app_assoc. split; [done|]. right.
    exists [EvFlush false;
            EvDisplay (Concat ["Installing "; FolderName m; " "; version]);
            EvInstallRelease version (versionPath m version);
            EvDisplay (Concat ["Installation of "; FolderName m; " ";
                               version; " successful"])].
    split; [reflexivity|]. split; [by repeat constructor|by right].
Qed.

(** X7.  With an install path that is not the empty string and a
    retriever that keeps its contract: when [Evaluate] returns no error on
    a request that parses as a version, the version returned is the
    cleaned request and there is a node for it in the install directory,
    whether [NoInstall] is set or not. *)
Theorem evaluate_leaves_version (m : VersionManager) (w w' : World)
    (requestedVersion cleanedVersion version : string) (proxyCall : bool) :
  InstallDir m ≠ Rel [] →
  installsTarget (retriever m) →
  NewVersion requestedVersion = Some cleanedVersion →
  Evaluate m requestedVersion proxyCall w = ((version, None), w') →
  version = cleanedVersion ∧
  is_Some (nodeAt w' (versionPath m cleanedVersion)).
Proof.
  intros Hdir Hcontract Hparse. unfold Evaluate. rewrite Hparse.
  destruct (NoInstall (conf m)).
  - unfold bind at 1.
    destruct (checkVersionInstallation m (Rel []) cleanedVersion w)
      as [[[installPath found] err] w1] eqn:Hcheck.
    destruct err as [err|]; [done|].
    apply checkVersionInstallation_spec in Hcheck as (-> & _ & _ & Hfound).
    destruct (decide (Rel [] = Rel [])) as [_|]; [|done].
    destruct found; simpl; [|done].
    intros [= <- <-]. split; [done|]. by apply Hfound.
  - unfold bind.
    destruct (installSpecificVersion m cleanedVersion proxyCall w)
      as [err w1] eqn:Hinstall.
    intros [= <- -> <-]. split; [done|].
    by eapply installSpecificVersion_installs.
Qed.

(** ** Uninstalling *)

Lemma without_one (version : string) (entries : gmap string node) :
  without [version] entries
  = if decide (version = "") then entries else delete version entries.
Proof.
  unfold without, nonEmpty. destruct (decide (version = "")) as [->|Hne].
  - by rewrite filter_cons_False by (intros ?; done).
  - by rewrite filter_cons_True by done.
Qed.

Lemma without_cons (version : string) (versions : list string)
    (entries : gmap string node) :
  without (version :: versions) entries
  = without versions (without [version] entries).
Proof.
  unfold without, nonEmpty.
  change (version :: versions) with ([version] ++ versions).
  by rewrite filter_app, foldl_app.
Qed.

Lemma resolve_Join_any (cwd : path) (base : filename) :
  ∃ q, ∀ name, name ≠ "" → resolve cwd (Join base [name]) = Some (q ++ [name]).
Proof.
  destruct base as [p|p].
  - exists p. intros name Hname. unfold Join. by rewrite (nonEmpty_one _ Hname).
  - exists (cwd ++ p). intros name Hname. unfold Join.
    rewrite (nonEmpty_one _ Hname). simpl.
    destruct (p ++ [name]) as [|x rest] eqn:Hrest.
    { by apply app_eq_nil in Hrest as [_ ?]. }
    by rewrite <- Hrest, app_assoc.
Qed.

(** The line [uninstallSpecificVersion] displays when the removal went
    well. *)
Lemma uninstallSpecificVersion_run (m : VersionManager) (installPath : filename)
    (version : string) (w : World) (p : path) (entries : gmap string node) :
  resolve (cwd w) installPath = Some p →
  walk (fs w) p = inr (Dir entries) →
  ∃ w',
    uninstallSpecificVersion m installPath version w = (tt, w') ∧
    cwd w' = cwd w ∧ env w' = env w ∧
    walk (fs w') p = inr (Dir (without [version] entries)) ∧
    events w'
    = events w
      ++ [EvDisplay
            (if decide (version = "") then errorText errEmptyVersion
             else Concat ["Uninstallation of "; FolderName m; " "; version;
                          " successful (directory ";
                          showName (Join installPath [version]);
                          " removed)"])].
Proof.
  intros Hp Hwalk. unfold uninstallSpecificVersion. rewrite without_one.
  destruct (decide (version = "")) as [->|Hversion].
  - eexists. split; [reflexivity|]. by repeat split.
  - unfold bind, RemoveAll. rewrite (resolve_Join _ _ _ _ Hversion Hp).
    destruct (removeAll (p ++ [version]) (fs w)) as [n err] eqn:Hrm.
    destruct (removeAll_in_dir _ _ _ _ _ _ Hwalk Hrm) as [-> Hdir].
    eexists. split; [reflexivity|]. by repeat split.
Qed.

Lemma uninstall_range_run (m : VersionManager) (installPath : filename)
    (versions : list string) :
  ∀ (w : World) (p : path) (entries : gmap string node),
    resolve (cwd w) installPath = Some p →
    walk (fs w) p = inr (Dir entries) →
    ∃ w' msgs,
      uninstall_range m installPath versions w = (tt, w') ∧
      cwd w' = cwd w ∧ env w' = env w ∧
      walk (fs w') p = inr (Dir (without versions entries)) ∧
      events w' = events w ++ (EvDisplay <$> msgs) ∧
      length msgs = length versions.
Proof.
  induction versions as [|version versions IH]; intros w p entries Hp Hwalk.
  - exists w, []. simpl. rewrite app_nil_r. by repeat split.
  - simpl. unfold bind.
    destruct (uninstallSpecificVersion_run m installPath version w p entries
                Hp Hwalk) as (w1 & -> & Hcwd1 & Henv1 & Hwalk1 & Hev1).
    rewrite <- Hcwd1 in Hp.
    destruct (IH w1 p _ Hp Hwalk1) as (w2 & msgs & -> & Hcwd2 & Henv2 & Hwalk2
                                        & Hev2 & Hlen).
    eexists w2, (_ :: msgs). split; [done|].
    rewrite without_cons. repeat split; try congruence.
    + rewrite Hev2, Hev1. simpl. by rewrite <- app_assoc.
    + simpl. by rewrite Hlen.
Qed.

(** X8.  In an install directory that is there, [uninstallSpecificVersion]
    of a version that is a plain name takes away the node named like the
    version and nothing else of the directory, and displays that the
    version was uninstalled, whether there was such a node or not; for the
    empty version it takes nothing away and displays [empty version]. *)
Theorem uninstall_removes_named (m : VersionManager) (installPath : filename)
    (version : string) (w : World) (entries : gmap string node) :
  nodeAt w installPath = Some (Dir entries) →
  version = "" ∨ plainName version →
  ∃ entries',
    nodeAt (uninstallSpecificVersion m installPath version w).2 installPath
    = Some (Dir entries') ∧
    (∀ name,
       entries' !! name
       = if decide (name = version ∧ name ≠ "") then None
         else entries !! name) ∧
    events (uninstallSpecificVersion m installPath version w).2
    = events w
      ++ [EvDisplay
            (if decide (version = "") then "empty version"
             else Concat ["Uninstallation of "; FolderName m; " "; version;
                          " successful (directory ";
                          showName (Join installPath [version]);
                          " removed)"])].
Proof.
  intros Hnode _. apply nodeAt_walk in Hnode as (p & Hp & Hwalk).
  destruct (uninstallSpecificVersion_run m installPath version w p entries
              Hp Hwalk) as (w' & -> & Hcwd & _ & Hwalk' & Hev).
  exists (without [version] entries). split; [|split].
  - apply nodeAt_walk. exists p. simpl. by rewrite Hcwd.
  - intros name. rewrite without_lookup.
    destruct (decide (name = version ∧ name ≠ "")) as [[-> Hne]|Hno].
    + rewrite decide_True; [done|]. split; [by left|done].
    + rewrite decide_False; [done|]. intros [Hin Hne]. apply Hno.
      by apply list_elem_of_singleton in Hin.
  - exact Hev.
Qed.

(** X9.  In an install directory that is there, [UninstallMultiple] of
    versions that are plain names, or empty, returns no error; it takes the
    lock, takes away the nodes named like the versions listed, the empty
    name apart, and nothing else of the directory, displays one line for
    each version listed, and releases the lock. *)
Theorem uninstall_multiple (m : VersionManager) (versions : list string)
    (w : World) (entries : gmap string node) :
  nodeAt w (InstallDir m) = Some (Dir entries) →
  Forall (λ version, version = "" ∨ plainName version) versions →
  ∃ w' entries' msgs,
    UninstallMultiple m versions w = (None, w') ∧
    nodeAt w' (InstallDir m) = Some (Dir entries') ∧
    (∀ name,
       entries' !! name
       = if decide (name ∈ versions ∧ name ≠ "") then None
         else entries !! name) ∧
    events w'
    = events w ++ [EvLockWrite (InstallDir m)] ++ (EvDisplay <$> msgs)
      ++ [EvLockDelete (InstallDir m); EvDisableExit] ∧
    length msgs = length versions.
Proof.
  intros Hnode _. apply nodeAt_walk in Hnode as (p & Hp & Hwalk).
  unfold UninstallMultiple. unfold bind at 1.
  rewrite (InstallPath_present m w p entries Hp Hwalk).
  unfold bind at 1. unfold lockfile_Write at 1. unfold log at 1.
  unfold bind at 1.
  destruct (uninstall_range_run m (InstallDir m) versions
              (emit (EvLockWrite (InstallDir m)) w) p entries Hp Hwalk)
    as (w1 & msgs & -> & Hcwd & _ & Hwalk1 & Hev & Hlen).
  eexists _, (without versions entries), msgs. split; [reflexivity|].
  split; [|split; [|split]].
  - apply nodeAt_walk. exists p. simpl. by rewrite Hcwd.
  - intros name. apply without_lookup.
  - simpl. rewrite Hev. simpl. by rewrite <- !app_assoc.
  - done.
Qed.

(** X10.  In an install directory that is there, when the request does not
    parse as a version and the byte read from the standard input is
    neither [y] nor [Y] (the input at its end counts for that), [Uninstall]
    leaves the tree as it is, and returns what is left of the input after
    at most that one byte. *)
Theorem uninstall_declined (m : VersionManager) (requestedVersion stdin : string)
    (w : World) (entries : gmap string node) :
  nodeAt w (InstallDir m) = Some (Dir entries) →
  NewVersion requestedVersion = None →
  (readByte stdin).1 ≠ "y"%char →
  (readByte stdin).1 ≠ "Y"%char →
  fs (Uninstall m requestedVersion stdin w).2 = fs w ∧
  ((Uninstall m requestedVersion stdin w).1.2 = stdin ∨
   (Uninstall m requestedVersion stdin w).1.2 = (readByte stdin).2).
Proof.
  intros Hnode Hparse Hy HY. apply nodeAt_walk in Hnode as (p & Hp & Hwalk).
  destruct (Uninstall m requestedVersion stdin w) as [[result left] w'] eqn:Hrun.
  simpl. revert Hrun.
  unfold Uninstall. unfold bind at 1.
  rewrite (InstallPath_present m w p entries Hp Hwalk). rewrite Hparse.
  unfold bind at 1. unfold lockfile_Write at 1. unfold log at 1.
  cbv beta.
  match goal with
  | |- context [bind ?c _ ?w1] =>
      lazymatch c with
      | bind (innerListLocal _ _ _) _ => set (inner := c); set (locked := w1)
      end
  end.
  assert (fs (inner locked).2 = fs w ∧
          ((inner locked).1.2 = stdin ∨ (inner locked).1.2 = (readByte stdin).2))
    as [Hfs Hin].
  2: { unfold bind at 1. destruct (inner locked) as [[e l] w2].
       intros [= <- <- <-]. done. }
  split; [change (fs w) with (fs locked)|]; subst inner.
  - apply quiet_bind; [apply quiet_innerListLocal|].
    intros [versions [err|]]; [apply quiet_ret|].
    apply quiet_bind; [apply quiet_consult|].
    intros [selected [err|]]; [apply quiet_ret|].
    destruct (decide (length selected = 0)).
    { apply quiet_bind; [apply quiet_Display|]. intros _. apply quiet_ret. }
    apply quiet_bind; [apply quiet_Display|]. intros _.
    apply quiet_bind; [apply quiet_Display|]. intros _.
    apply quiet_bind; [apply quiet_Display|]. intros _.
    destruct (readByte stdin) as [read rest]. simpl in Hy, HY.
    destruct (decide (read = "y"%char ∨ read = "Y"%char)) as [[?|?]|_];
      [done..|].
    apply quiet_ret.
  - unfold bind.
    destruct (innerListLocal m (InstallDir m) true locked)
      as [[versions [err|]] w2]; [by left|].
    destruct (consult _ w2) as [[selected [err|]] w3]; [by left|].
    destruct (decide (length selected = 0)); [by left|].
    unfold Display, log.
    destruct (readByte stdin) as [read rest]. simpl in Hy, HY.
    destruct (decide (read = "y"%char ∨ read = "Y"%char)) as [[?|?]|_];
      [done..|].
    by right.
Qed.

(** ** Listing *)

Lemma innerListLocal_run (m : VersionManager) (installPath : filename)
    (reverseOrder : bool) (w : World) (entries : gmap string node) :
  nodeAt w installPath = Some (Dir entries) →
  innerListLocal m installPath reverseOrder w
  = ((SortFunc (Reverser CmpVersion reverseOrder) (dirNames (dirEntries entries)),
      None), w).
Proof.
  intros Hnode. apply nodeAt_walk in Hnode as (p & Hp & Hwalk).
  unfold innerListLocal, bind, ReadDir. by rewrite Hp, Hwalk.
Qed.

Lemma LocalSet_range_elem (entries : list DirEntry) (name : string) :
  ∀ versionSet,
    name ∈ LocalSet_range entries versionSet ↔
    name ∈ versionSet ∨ name ∈ dirNames entries.
Proof.
  induction entries as [|entry entries IH]; intros versionSet; simpl.
  - split; [by left | intros [?|Hin]; [done | by apply elem_of_nil in Hin]].
  - destruct (IsDir entry).
    + rewrite IH, elem_of_union, elem_of_singleton, elem_of_cons. tauto.
    + apply IH.
Qed.

Lemma consult_value {A}
    (parser : node → path → gmap string string → A * list string) (w : World) :
  (consult parser w).1 = (parser (fs w) (cwd w) (env w)).1.
Proof. unfold consult. by destruct (parser (fs w) (cwd w) (env w)). Qed.

Lemma ListLocal_range_run (installPath : filename) (versions : list string)
    (tree : node) (dir : path) (vars : gmap string string) :
  ∀ datedVersions w,
    fs w = tree → cwd w = dir → env w = vars →
    (ListLocal_range installPath versions datedVersions w).1
    = datedVersions
      ++ ((λ version,
             {| UseDate := (lastuse_Read (Join installPath [version])
                              tree dir vars).1;
                Version := version |}) <$> versions) ∧
    fs (ListLocal_range installPath versions datedVersions w).2 = tree.
Proof.
  induction versions as [|version versions IH];
    intros datedVersions w Hfs Hcwd Henv; simpl.
  - by rewrite app_nil_r.
  - unfold bind.
    pose proof (consult_value (lastuse_Read (Join installPath [version])) w)
      as Hvalue.
    destruct (quiet_consult (lastuse_Read (Join installPath [version])) w)
      as (Hfs1 & Hcwd1 & Henv1 & _).
    destruct (consult (lastuse_Read (Join installPath [version])) w)
      as [useDate w1].
    simpl in Hvalue, Hfs1, Hcwd1, Henv1.
    destruct (IH (datedVersions ++ [{| UseDate := useDate; Version := version |}])
                w1 ltac:(congruence) ltac:(congruence) ltac:(congruence))
      as [Hlist Htree].
    rewrite Hlist, Htree. split; [|done].
    rewrite <- app_assoc. simpl. by rewrite Hvalue, Hfs, Hcwd, Henv.
Qed.

(** X11.  In an install directory that is there, [ListLocal] returns no
    error and one dated version for each version [innerListLocal] lists,
    in the same order; the date of each is what [lastuse.Read] gives for
    the directory of that version in the tree as it was at the call, and
    the tree is left as it was. *)
Theorem list_local_dates (m : VersionManager) (reverseOrder : bool) (w : World)
    (entries : gmap string node) :
  nodeAt w (InstallDir m) = Some (Dir entries) →
  (ListLocal m reverseOrder w).1
  = ((λ version,
        {| UseDate := (lastuse_Read (versionPath m version)
                         (fs w) (cwd w) (env w)).1;
           Version := version |})
       <$> (innerListLocal m (InstallDir m) reverseOrder w).1.1,
     None) ∧
  fs (ListLocal m reverseOrder w).2 = fs w.
Proof.
  intros Hnode. rewrite (innerListLocal_run _ _ _ _ _ Hnode). simpl.
  pose proof Hnode as Hdir. apply nodeAt_walk in Hdir as (p & Hp & Hwalk).
  destruct (ListLocal m reverseOrder w) as [result w'] eqn:Hrun.
  simpl. revert Hrun.
  unfold ListLocal. unfold bind at 1.
  rewrite (InstallPath_present m w p entries Hp Hwalk).
  unfold bind at 1. rewrite (innerListLocal_run _ _ _ _ _ Hnode).
  unfold bind at 1.
  destruct (ListLocal_range_run (InstallDir m)
              (SortFunc (Reverser CmpVersion reverseOrder)
                 (dirNames (dirEntries entries)))
              (fs w) (cwd w) (env w) [] w eq_refl eq_refl eq_refl)
    as [Hlist Htree].
  destruct (ListLocal_range _ _ _ w) as [datedVersions w1].
  simpl in Hlist, Htree. intros [= <- <-]. by subst datedVersions.
Qed.

(** ** The files of the root *)

(** X12.  [SetConstraint] returns the error of [version.NewConstraint] on a
    constraint that it refuses, and leaves the world as it is.  Whenever
    it returns no error, the constraint was accepted, the constraint file
    of the root holds it, byte for byte, and the line that tells so is
    displayed; whenever it returns an error, nothing is displayed.  It
    returns no error when the constraint is accepted, the install
    directory is there, the name [constraint] is not that of a directory
    in it and the disk does not fail: the file is made, or replaced, and
    nothing else of the install directory changes. *)
Theorem set_constraint_writes (m : VersionManager) (constraint : string)
    (w : World) :
  (∀ refusal, NewConstraint constraint = Some refusal →
     SetConstraint m constraint w = (Some refusal, w)) ∧
  match (SetConstraint m constraint w).1 with
  | None =>
      NewConstraint constraint = None ∧
      nodeAt (SetConstraint m constraint w).2 (RootConstraintFilePath m)
      = Some (File constraint) ∧
      events (SetConstraint m constraint w).2
      = events w
        ++ [EvDisplay (Concat ["Written "; constraint; " in ";
                               showName (RootConstraintFilePath m)])]
  | Some _ => events (SetConstraint m constraint w).2 = events w
  end ∧
  (∀ p entries,
     NewConstraint constraint = None →
     resolve (cwd w) (InstallDir m) = Some p →
     walk (fs w) p = inr (Dir entries) →
     (∀ sub, entries !! "constraint" ≠ Some (Dir sub)) →
     writeFault (fs w) (p ++ ["constraint"]) constraint = None →
     (SetConstraint m constraint w).1 = None ∧
     nodeAt (SetConstraint m constraint w).2 (InstallDir m)
     = Some (Dir (<["constraint" := File constraint]> entries))).
Proof.
  unfold SetConstraint. split; [|split].
  - by intros refusal ->.
  - destruct (NewConstraint constraint) as [refusal|]; [done|].
    pose proof (writeFile_spec (RootConstraintFilePath m) constraint w)
      as Hwrite.
    destruct (writeFile (RootConstraintFilePath m) constraint w).1; [done|].
    by destruct Hwrite.
  - intros p entries -> Hp Hwalk Hfile Hsound.
    destruct (writeFile_done (RootConstraintFilePath m) constraint w p
                "constraint" entries) as (n & -> & Hdir); try done.
    { unfold RootConstraintFilePath. rewrite Join_two. fold (InstallDir m).
      by apply resolve_Join. }
    split; [done|]. apply nodeAt_walk. by exists p.
Qed.

Lemma removeFile_in_install_dir (m : VersionManager) (name : string) (w : World) :
  name ≠ "" →
  match (removeFile (versionPath m name) w).1 with
  | Some _ => events (removeFile (versionPath m name) w).2 = events w
  | None =>
      nodeAt (removeFile (versionPath m name) w).2 (versionPath m name) = None ∧
      events (removeFile (versionPath m name) w).2
      = events w ++ [EvDisplay ("Removed " +:+ showName (versionPath m name))]
  end ∧
  ∀ other, other ≠ "" → other ≠ name →
    nodeAt (removeFile (versionPath m name) w).2 (versionPath m other)
    = nodeAt w (versionPath m other).
Proof.
  intros Hname. destruct (resolve_Join_any (cwd w) (InstallDir m)) as [q Hq].
  assert (resolve (cwd w) (versionPath m name) = Some (q ++ [name])) as Hres
    by apply (Hq name Hname).
  assert (∀ n other shown, other ≠ "" → other ≠ name →
    walk n (q ++ [other]) = walk (fs w) (q ++ [other]) →
    nodeAt (foldl (λ w ev, emit ev w) (setFs n w) shown) (versionPath m other)
    = nodeAt w (versionPath m other)) as Hkept.
  { intros n other shown Hother Hne Hwalk. unfold nodeAt, lookup.
    assert (∀ w0, cwd (foldl (λ w ev, emit ev w) w0 shown) = cwd w0 ∧
                  fs (foldl (λ w ev, emit ev w) w0 shown) = fs w0) as Hfold.
    { induction shown as [|ev shown IH]; intros w0; simpl; [done|].
      by destruct (IH (emit ev w0)) as [-> ->]. }
    destruct (Hfold (setFs n w)) as [-> ->]. simpl.
    unfold versionPath. rewrite (Hq other Hother). by rewrite Hwalk. }
  unfold removeFile, bind, RemoveAll. rewrite Hres.
  destruct (removeAll (q ++ [name]) (fs w)) as [n [err|]] eqn:Hrm; simpl.
  - split; [done|]. intros other Hother Hne.
    apply (Hkept n other [] Hother Hne).
    apply (removeAll_sibling q name other Hne _ _ _ Hrm).
  - split; [split; [|done]|].
    + unfold nodeAt. simpl. rewrite Hres.
      assert (q ++ [name] ≠ []) as Hnil by (by destruct q).
      apply (removeAll_gone _ _ _ Hnil Hrm).
    + intros other Hother Hne.
      apply (Hkept n other [EvDisplay _] Hother Hne).
      apply (removeAll_sibling q name other Hne _ _ _ Hrm).
Qed.

(** In an install directory that is there, a file of it is removed. *)
Lemma removeFile_done (m : VersionManager) (name : string) (w : World)
    (entries : gmap string node) :
  name ≠ "" →
  nodeAt w (InstallDir m) = Some (Dir entries) →
  (removeFile (versionPath m name) w).1 = None ∧
  nodeAt (removeFile (versionPath m name) w).2 (InstallDir m)
  = Some (Dir (delete name entries)).
Proof.
  intros Hname Hnode. apply nodeAt_walk in Hnode as (p & Hp & Hwalk).
  unfold removeFile, bind, RemoveAll, versionPath.
  rewrite (resolve_Join _ _ _ _ Hname Hp).
  destruct (removeAll (p ++ [name]) (fs w)) as [n err] eqn:Hrm.
  destruct (removeAll_in_dir _ _ _ _ _ _ Hwalk Hrm) as [-> Hdir].
  split; [done|]. apply nodeAt_walk. by exists p.
Qed.

(** X13.  [ResetVersion] and [ResetConstraint] tell what they removed, and
    only that: whenever one returns no error, the file of the root it is
    about is no more (it need not have been there) and one line names the
    path removed; whenever it returns an error, nothing is displayed.
    Whatever it returns, every other node of the install directory with a
    plain name, the installed versions among them, is as it was.  In an
    install directory that is there it returns no error, and the directory
    is left without that name and with all its other entries. *)
Theorem reset_removes_root_file (m : VersionManager) (w : World) :
  (match (ResetVersion m w).1 with
   | Some _ => events (ResetVersion m w).2 = events w
   | None =>
       nodeAt (ResetVersion m w).2 (RootVersionFilePath m) = None ∧
       events (ResetVersion m w).2
       = events w
         ++ [EvDisplay ("Removed " +:+ showName (RootVersionFilePath m))]
   end ∧
   (∀ other, plainName other → other ≠ "version" →
      nodeAt (ResetVersion m w).2 (versionPath m other)
      = nodeAt w (versionPath m other)) ∧
   (∀ entries,
      nodeAt w (InstallDir m) = Some (Dir entries) →
      (ResetVersion m w).1 = None ∧
      nodeAt (ResetVersion m w).2 (InstallDir m)
      = Some (Dir (delete "version" entries)))) ∧
  (match (ResetConstraint m w).1 with
   | Some _ => events (ResetConstraint m w).2 = events w
   | None =>
       nodeAt (ResetConstraint m w).2 (RootConstraintFilePath m) = None ∧
       events (ResetConstraint m w).2
       = events w
         ++ [EvDisplay ("Removed " +:+ showName (RootConstraintFilePath m))]
   end ∧
   (∀ other, plainName other → other ≠ "constraint" →
      nodeAt (ResetConstraint m w).2 (versionPath m other)
      = nodeAt w (versionPath m other)) ∧
   (∀ entries,
      nodeAt w (InstallDir m) = Some (Dir entries) →
      (ResetConstraint m w).1 = None ∧
      nodeAt (ResetConstraint m w).2 (InstallDir m)
      = Some (Dir (delete "constraint" entries)))).
Proof.
  unfold ResetVersion, ResetConstraint, RootVersionFilePath,
    RootConstraintFilePath.
  rewrite !Join_two. fold (InstallDir m).
  fold (versionPath m "version"). fold (versionPath m "constraint").
  split.
  - destruct (removeFile_in_install_dir m "version" w ltac:(done))
      as [Hfile Hkept].
    split; [exact Hfile|]. split.
    + intros other [Hother _] Hne. by apply Hkept.
    + intros entries Hnode. by apply removeFile_done.
  - destruct (removeFile_in_install_dir m "constraint" w ltac:(done))
      as [Hfile Hkept].
    split; [exact Hfile|]. split.
    + intros other [Hother _] Hne. by apply Hkept.
    + intros entries Hnode. by apply removeFile_done.
Qed.

(** ** Using a version *)


(** Without version file, [Use] panics once [Evaluate] is done, whatever
    [workingDir] is. *)
Lemma Use_panics (m : VersionManager) (w w1 : World)
    (requestedVersion detectedVersion : string) (workingDir : bool)
    (err : option error) :
  VersionFiles m = [] →
  Evaluate m requestedVersion false w = ((detectedVersion, err), w1) →
  err = None ∨ err = Some ErrNoCompatibleLocally →
  Use m requestedVersion workingDir w
  = (Panicked "index out of range [0] with length 0",
     match err with
     | Some e => emit (EvDisplay (errorText e)) w1
     | None => w1
     end).
Proof.
  intros Hfiles Heval Herr. unfold Use, bind at 1. rewrite Heval.
  destruct Herr as [->| ->].
  - unfold Use_write. by rewrite Hfiles.
  - destruct (decide (ErrNoCompatibleLocally ≠ ErrNoCompatibleLocally));
      [done|].
    unfold Use_write, bind, Display, log. by rewrite Hfiles.
Qed.


Section SortedMore.

Context {laws : SortLaws}.

Lemma innerListLocal_elem (m : VersionManager) (installPath : filename)
    (reverseOrder : bool) (w : World) (entries : gmap string node)
    (name : string) :
  nodeAt w installPath = Some (Dir entries) →
  name ∈ (innerListLocal m installPath reverseOrder w).1.1 ↔
  ∃ sub, entries !! name = Some (Dir sub).
Proof.
  intros Hnode. rewrite (innerListLocal_run _ _ _ _ _ Hnode). simpl.
  rewrite (SortFunc_Permutation _ _). apply dirNames_dirEntries.
Qed.

(** X14.  In an install directory that is there, [Uninstall] of a request
    that parses as a version, a plain name, returns no error and reads
    nothing from the standard input; afterwards [innerListLocal] lists, in
    either order, the versions it listed before but the one uninstalled. *)
Theorem uninstall_then_list (m : VersionManager)
    (requestedVersion cleanedVersion stdin : string) (w : World)
    (entries : gmap string node) :
  nodeAt w (InstallDir m) = Some (Dir entries) →
  NewVersion requestedVersion = Some cleanedVersion →
  plainName cleanedVersion →
  (Uninstall m requestedVersion stdin w).1 = (None, stdin) ∧
  ∀ reverseOrder name,
    name ∈ (innerListLocal m (InstallDir m) reverseOrder
              (Uninstall m requestedVersion stdin w).2).1.1 ↔
    name ≠ cleanedVersion ∧
    name ∈ (innerListLocal m (InstallDir m) reverseOrder w).1.1.
Proof.
  intros Hnode Hparse [Hversion _].
  pose proof Hnode as Hdir. apply nodeAt_walk in Hdir as (p & Hp & Hwalk).
  destruct (Uninstall m requestedVersion stdin w) as [result w'] eqn:Hrun.
  simpl. revert Hrun.
  unfold Uninstall. unfold bind at 1.
  rewrite (InstallPath_present m w p entries Hp Hwalk). rewrite Hparse.
  unfold bind, lockfile_Write, deleteLock, disableExit, log, ret.
  destruct (uninstallSpecificVersion_run m (InstallDir m) cleanedVersion
              (emit (EvLockWrite (InstallDir m)) w) p entries Hp Hwalk)
    as (w1 & -> & Hcwd & _ & Hwalk1 & _).
  intros [= <- <-]. split; [done|].
  intros reverseOrder name.
  assert (nodeAt (emit EvDisableExit (emit (EvLockDelete (InstallDir m)) w1))
            (InstallDir m)
          = Some (Dir (without [cleanedVersion] entries))) as Hafter.
  { rewrite !nodeAt_emit. apply nodeAt_walk. exists p. by rewrite Hcwd. }
  rewrite (innerListLocal_elem _ _ _ _ _ _ Hafter),
    (innerListLocal_elem _ _ _ _ _ _ Hnode).
  rewrite without_one, decide_False by done.
  destruct (decide (name = cleanedVersion)) as [->|Hne].
  - rewrite lookup_delete_eq. split; [by intros [? ?] | by intros [? _]].
  - rewrite lookup_delete_ne by done. tauto.
Qed.

(** X15.  In an install directory that is there, [LocalSet] logs nothing,
    leaves the world as it was, and returns the set of the versions
    [innerListLocal] lists: the names of the sub-directories. *)
Theorem local_set_is_listing (m : VersionManager) (reverseOrder : bool)
    (w : World) (entries : gmap string node) :
  nodeAt w (InstallDir m) = Some (Dir entries) →
  LocalSet m w
  = ((list_to_set (innerListLocal m (InstallDir m) reverseOrder w).1.1, []), w).
Proof.
  intros Hnode. pose proof Hnode as Hdir.
  apply nodeAt_walk in Hdir as (p & Hp & Hwalk).
  unfold LocalSet. unfold bind at 1.
  rewrite (InstallPath_present m w p entries Hp Hwalk).
  unfold bind, ReadDir, ret. rewrite Hp, Hwalk.
  f_equal. f_equal. apply set_eq. intros name.
  rewrite LocalSet_range_elem, elem_of_list_to_set.
  rewrite (innerListLocal_elem _ _ _ _ _ _ Hnode).
  rewrite (proj2 (dirNames_dirEntries entries)).
  split; [intros [Hin|?]; [by apply elem_of_empty in Hin | done] | by right].
Qed.

(** X16.  When the request is no version but a strategy or constraint
    that parses, remote search is not forced and the install directory is
    there, [Evaluate] returns the first version of the local listing, in
    the order the request asks for, that the predicate accepts: it displays
    that a compatible version was found locally, flushes, and changes
    nothing else, the catalog is not asked; that version is a
    sub-directory of the install directory. *)
Theorem evaluate_local_hit (m : VersionManager) (requestedVersion : string)
    (proxyCall : bool) (w parsed : World) (predicateInfo : PredicateInfo)
    (entries : gmap string node) (before after : list string)
    (version : string) :
  NewVersion requestedVersion = None →
  ParsePredicate requestedVersion m w = ((predicateInfo, None), parsed) →
  ForceRemote (conf m) = false →
  nodeAt parsed (InstallDir m) = Some (Dir entries) →
  (innerListLocal m (InstallDir m) (ReverseOrder predicateInfo) parsed).1.1
  = before ++ version :: after →
  Forall (λ rejected, Predicate predicateInfo rejected = false) before →
  Predicate predicateInfo version = true →
  Evaluate m requestedVersion proxyCall w
  = ((version, None),
     emit (EvFlush proxyCall)
       (emit (EvDisplay ("Found compatible version installed locally : "
                         +:+ version)) parsed)) ∧
  ∃ sub, entries !! version = Some (Dir sub).
Proof.
  intros Hversion Hparse Hforce Hnode Hlist Hbefore Haccepted.
  split.
  - pose proof Hnode as Hdir. apply nodeAt_walk in Hdir as (p & Hp & Hwalk).
    unfold Evaluate. rewrite Hversion. unfold bind at 1. rewrite Hparse.
    unfold bind at 1. rewrite (InstallPath_present m parsed p entries Hp Hwalk).
    rewrite Hforce. change (negb false) with true. cbv iota.
    unfold bind at 1. cbv beta.
    rewrite (innerListLocal_run _ _ _ _ _ Hnode) in Hlist |- *.
    simpl in Hlist. rewrite Hlist.
    by rewrite (find_first _ _ _ _ Hbefore Haccepted).
  - apply (innerListLocal_elem m (InstallDir m) (ReverseOrder predicateInfo)
             parsed entries version Hnode).
    rewrite Hlist, elem_of_app, elem_of_cons. by right; left.
Qed.

(** X17.  [ListRemote] asks the catalog once and leaves the tree as it
    is.  When the catalog gives an error, it returns that error and no
    version; otherwise it returns the versions of the catalog, none added
    and none dropped, sorted by [CmpVersion]: upwards when [reverseOrder] is
    not set, downwards when it is. *)
Theorem list_remote_sorted (m : VersionManager) (reverseOrder : bool)
    (w : World) :
  let asked := emit EvListReleases w in
  match (ListReleases (retriever m) asked).2 with
  | Some err => ListRemote m reverseOrder w = (([], Some err), asked)
  | None =>
      ∃ versions,
        ListRemote m reverseOrder w = ((versions, None), asked) ∧
        versions ≡ₚ (ListReleases (retriever m) asked).1 ∧
        StronglySorted
          (λ a b, if reverseOrder then CmpVersion b a ≤ 0
                  else CmpVersion a b ≤ 0)%Z versions
  end.
Proof.
  intros asked. unfold ListRemote, bind, retriever_ListReleases. fold asked.
  destruct (ListReleases (retriever m) asked) as [versions [err|]]; simpl;
    [done|].
  eexists. split; [reflexivity|]. apply sorted_by_order.
Qed.

End SortedMore.

(** X18.  In an install directory that is there, when the request does not
    parse as a version, [semantic.SelectVersionsToUninstall] selects some
    of the versions listed, the newest first, all plain names, and the
    byte read from the standard input is [y] or [Y], [Uninstall] returns no
    error and the input after that byte, and takes away the nodes named
    like the versions selected and nothing else of the install directory. *)
Theorem uninstall_confirmed (m : VersionManager)
    (requestedVersion stdin rest : string) (read : ascii) (w : World)
    (entries : gmap string node) (selected msgs : list string) :
  nodeAt w (InstallDir m) = Some (Dir entries) →
  NewVersion requestedVersion = None →
  SelectVersionsToUninstall requestedVersion (InstallDir m)
    (innerListLocal m (InstallDir m) true w).1.1 (fs w) (cwd w) (env w)
  = ((selected, None), msgs) →
  selected ≠ [] →
  Forall (λ version, version = "" ∨ plainName version) selected →
  stdin = String read rest →
  read = "y"%char ∨ read = "Y"%char →
  (Uninstall m requestedVersion stdin w).1 = (None, rest) ∧
  ∃ entries',
    nodeAt (Uninstall m requestedVersion stdin w).2 (InstallDir m)
    = Some (Dir entries') ∧
    ∀ name,
      entries' !! name
      = if decide (name ∈ selected ∧ name ≠ "") then None
        else entries !! name.
Proof.
  intros Hnode Hparse Hselect Hsome _ -> Hread.
  pose proof Hnode as Hdir. apply nodeAt_walk in Hdir as (p & Hp & Hwalk).
  rewrite (innerListLocal_run _ _ _ _ _ Hnode) in Hselect.
  cbn [fst snd] in Hselect.
  destruct (Uninstall m requestedVersion (String read rest) w)
    as [result w'] eqn:Hrun.
  simpl. revert Hrun.
  unfold Uninstall. unfold bind at 1.
  rewrite (InstallPath_present m w p entries Hp Hwalk). rewrite Hparse.
  unfold bind at 1. unfold lockfile_Write at 1. unfold log at 1.
  set (locked := emit (EvLockWrite (InstallDir m)) w).
  unfold bind at 1. unfold bind at 1.
  rewrite (innerListLocal_run m (InstallDir m) true locked entries)
    by (subst locked; by rewrite nodeAt_emit).
  unfold bind at 1. unfold consult at 1.
  change (fs locked) with (fs w). change (cwd locked) with (cwd w).
  change (env locked) with (env w). rewrite Hselect.
  destruct (displayAll_events msgs locked) as (_ & Hfs & Hcwd & _).
  set (consulted := (displayAll msgs locked).2) in *.
  destruct (decide (length selected = 0)) as [Hnil|_];
    [by destruct selected|].
  unfold readByte. rewrite decide_True by done.
  unfold bind at 1. unfold Display at 1. unfold log at 1.
  unfold bind at 1. unfold Display at 1. unfold log at 1.
  unfold bind at 1. unfold Display at 1. unfold log at 1.
  unfold bind at 1.
  match goal with
  | |- context [uninstall_range _ _ _ ?shown] => set (prompted := shown)
  end.
  destruct (uninstall_range_run m (InstallDir m) selected prompted p entries)
    as (w1 & shown & -> & Hcwd1 & _ & Hwalk1 & _).
  { subst prompted. simpl. rewrite Hcwd. exact Hp. }
  { subst prompted. simpl. rewrite Hfs. exact Hwalk. }
  unfold bind, deleteLock, disableExit, log, ret.
  intros [= <- <-]. split; [done|].
  exists (without selected entries). split; [|apply without_lookup].
  rewrite !nodeAt_emit. apply nodeAt_walk. exists p.
  split; [|done]. rewrite Hcwd1. subst prompted. simpl. by rewrite Hcwd.
Qed.

End ManagerMore.

(** * The properties above at the samples *)

Section WitnessesMore.

Import Github OS Manager Samples.

#[local] Existing Instance samplePackages.
#[local] Existing Instance sampleHelpers.
#[local] Existing Instance soundDisk.

Lemma request_headers_witness :
  @url_Parse twoPages "https://api.example/releases?page=1" = None ∧
  ∃ request,
    (@apiGetRequest twoPages "https://api.example/releases?page=1"
       (buildAuthorizationHeader "t0ken") []).2 = [request] ∧
    Header request !! "Authorization" = Some "Bearer t0ken".
Proof.
  split; [reflexivity|].
  destruct (request_headers (network := twoPages)
              "https://api.example/releases?page=1" "t0ken" [] eq_refl)
    as (request & Hsent & _ & _ & _ & _ & Hauthorization & _).
  exists request. split; [exact Hsent | exact Hauthorization].
Defined.

Lemma extractReleases_page_witness :
  [release "v1.6.2"; release "1.6.1"] ≠ [] ∧
  extractReleases ["0.9.0"] (JArray [release "v1.6.2"; release "1.6.1"])
  = (["0.9.0"; "1.6.2"; "1.6.1"], Some errContinue).
Proof.
  split; [done|].
  pose proof (extractReleases_page ["0.9.0"] [release "v1.6.2"; release "1.6.1"]
                ltac:(done)) as Hpage.
  rewrite Hpage. vm_compute. reflexivity.
Defined.

Lemma ListReleases_all_pages_witness :
  @servesPages twoPages (releasesURL +:+ pageQuery) (buildAuthorizationHeader "")
    1 [] [[release "v1.6.2"; release "v1.6.1"]; [release "1.6.0"]] ∧
  fst <$> @Github.ListReleases twoPages 5 releasesURL "" []
  = Some (["1.6.2"; "1.6.1"; "1.6.0"], None).
Proof.
  assert (@servesPages twoPages (releasesURL +:+ pageQuery)
            (buildAuthorizationHeader "") 1 []
            [[release "v1.6.2"; release "v1.6.1"]; [release "1.6.0"]])
    as Hserved.
  { simpl. repeat split; try done; vm_compute; reflexivity. }
  split; [exact Hserved|].
  rewrite (ListReleases_all_pages (network := twoPages) 5 releasesURL "" []
             [[release "v1.6.2"; release "v1.6.1"]; [release "1.6.0"]] Hserved).
  - vm_compute. reflexivity.
  - repeat constructor; vm_compute; reflexivity.
  - simpl. lia.
Defined.

Lemma DownloadAssetURL_success_witness :
  fst <$> @DownloadAssetURL oneAsset 3 "v1.0.0" ["a"] releasesURL "" []
  = Some ({[ "a" := "https://dl.example/a" ]}, None) ∧
  dom ({[ "a" := "https://dl.example/a" ]} : gmap string string)
  = list_to_set ["a"].
Proof.
  split; [vm_compute; reflexivity|].
  eapply (DownloadAssetURL_success (network := oneAsset) 3 "v1.0.0" ["a"]
            releasesURL "" []).
  vm_compute. reflexivity.
Defined.

Lemma evaluate_leaves_version_witness :
  InstallDir (tofu false) ≠ Rel [] ∧
  installsTarget (retriever (tofu false)) ∧
  NewVersion "v1.6.2" = Some "1.6.2" ∧
  is_Some (nodeAt (Evaluate (tofu false) "v1.6.2" false fresh).2
             (versionPath (tofu false) "1.6.2")).
Proof.
  split; [apply InstallDir_tofu|]. split; [apply sampleRetriever_installs|].
  split; [reflexivity|].
  assert (NewVersion "v1.6.2" = Some "1.6.2") as Hparse by reflexivity.
  apply (evaluate_leaves_version (tofu false) fresh
           (Evaluate (tofu false) "v1.6.2" false fresh).2
           "v1.6.2" "1.6.2" "1.6.2" false (InstallDir_tofu false)
           sampleRetriever_installs Hparse).
  vm_compute. reflexivity.
Defined.

Lemma uninstall_removes_named_witness :
  nodeAt three (InstallDir (tofu false)) = Some (Dir threeEntries) ∧
  ∃ entries',
    nodeAt (uninstallSpecificVersion (tofu false) (InstallDir (tofu false))
              "1.6.0" three).2 (InstallDir (tofu false))
    = Some (Dir entries') ∧
    entries' !! "1.6.0" = None ∧
    entries' !! "1.5.7" = Some (Dir ∅).
Proof.
  assert (nodeAt three (InstallDir (tofu false)) = Some (Dir threeEntries))
    as Hnode by (vm_compute; reflexivity).
  split; [exact Hnode|].
  assert (plainName "1.6.0") as Hplain by (by repeat split).
  destruct (uninstall_removes_named (tofu false) (InstallDir (tofu false))
              "1.6.0" three threeEntries Hnode (or_intror Hplain))
    as (entries' & Hafter & Hkept & _).
  exists entries'. split; [exact Hafter|].
  rewrite !Hkept. split; vm_compute; reflexivity.
Defined.

Lemma uninstall_multiple_witness :
  nodeAt three (InstallDir (tofu false)) = Some (Dir threeEntries) ∧
  ∃ w' entries',
    UninstallMultiple (tofu false) ["1.6.0"; ""; "9.9.9"] three = (None, w') ∧
    nodeAt w' (InstallDir (tofu false)) = Some (Dir entries') ∧
    entries' !! "1.6.0" = None ∧
    entries' !! "1.5.7" = Some (Dir ∅) ∧
    entries' !! "version" = Some (File "1.6.0").
Proof.
  assert (nodeAt three (InstallDir (tofu false)) = Some (Dir threeEntries))
    as Hnode by (vm_compute; reflexivity).
  split; [exact Hnode|].
  assert (Forall (λ version, version = "" ∨ plainName version)
            ["1.6.0"; ""; "9.9.9"]) as Hplain.
  { apply Forall_cons_2; [right; by repeat split|].
    apply Forall_cons_2; [by left|].
    apply Forall_cons_2; [right; by repeat split|].
    apply Forall_nil_2. }
  destruct (uninstall_multiple (tofu false) ["1.6.0"; ""; "9.9.9"] three
              threeEntries Hnode Hplain)
    as (w' & entries' & msgs & Hrun & Hafter & Hkept & _).
  exists w', entries'. split; [exact Hrun|]. split; [exact Hafter|].
  rewrite !Hkept. repeat split; vm_compute; reflexivity.
Defined.

Lemma uninstall_declined_witness :
  nodeAt three (InstallDir (tofu false)) = Some (Dir threeEntries) ∧
  NewVersion "not-used-for:1d" = None ∧
  fs (Uninstall (tofu false) "not-used-for:1d" "no" three).2 = fs three.
Proof.
  assert (nodeAt three (InstallDir (tofu false)) = Some (Dir threeEntries))
    as Hnode by (vm_compute; reflexivity).
  split; [exact Hnode|]. split; [reflexivity|].
  assert (NewVersion "not-used-for:1d" = None) as Hparse by reflexivity.
  apply (uninstall_declined (tofu false) "not-used-for:1d" "no" three
           threeEntries Hnode Hparse); by vm_compute.
Defined.

Lemma list_local_dates_witness :
  nodeAt three (InstallDir (tofu false)) = Some (Dir threeEntries) ∧
  Manager.Version <$> (ListLocal (tofu false) true three).1.1
  = ["1.10.0"; "1.6.0"; "1.5.7"].
Proof.
  assert (nodeAt three (InstallDir (tofu false)) = Some (Dir threeEntries))
    as Hnode by (vm_compute; reflexivity).
  split; [exact Hnode|].
  destruct (list_local_dates (tofu false) true three threeEntries Hnode)
    as [Hlist _].
  rewrite Hlist. vm_compute. reflexivity.
Defined.

Lemma uninstall_then_list_witness :
  SortLaws ∧
  nodeAt three (InstallDir (tofu false)) = Some (Dir threeEntries) ∧
  NewVersion "v1.6.0" = Some "1.6.0" ∧
  "1.5.7" ∈ (innerListLocal (tofu false) (InstallDir (tofu false)) false
               (Uninstall (tofu false) "v1.6.0" "" three).2).1.1.
Proof.
  assert (nodeAt three (InstallDir (tofu false)) = Some (Dir threeEntries))
    as Hnode by (vm_compute; reflexivity).
  split; [apply sampleSortLaws|]. split; [exact Hnode|]. split; [reflexivity|].
  assert (NewVersion "v1.6.0" = Some "1.6.0") as Hparse by reflexivity.
  assert (plainName "1.6.0") as Hplain by (by repeat split).
  destruct (uninstall_then_list (laws := sampleSortLaws) (tofu false)
              "v1.6.0" "1.6.0" "" three threeEntries Hnode Hparse Hplain)
    as [_ Hlisted].
  apply Hlisted. split; [done|]. vm_compute. by repeat constructor.
Defined.

Lemma local_set_is_listing_witness :
  SortLaws ∧
  nodeAt three (InstallDir (tofu false)) = Some (Dir threeEntries) ∧
  (LocalSet (tofu false) three).1
  = (list_to_set ["1.10.0"; "1.6.0"; "1.5.7"], []).
Proof.
  assert (nodeAt three (InstallDir (tofu false)) = Some (Dir threeEntries))
    as Hnode by (vm_compute; reflexivity).
  split; [apply sampleSortLaws|]. split; [exact Hnode|].
  rewrite (local_set_is_listing (laws := sampleSortLaws) (tofu false) true
             three threeEntries Hnode).
  vm_compute. reflexivity.
Defined.

Lemma evaluate_local_hit_witness :
  SortLaws ∧
  NewVersion "latest" = None ∧
  ForceRemote (conf (tofu false)) = false ∧
  nodeAt three (InstallDir (tofu false)) = Some (Dir threeEntries) ∧
  Evaluate (tofu false) "latest" true three
  = (("1.10.0", None),
     emit (EvFlush true)
       (emit (EvDisplay "Found compatible version installed locally : 1.10.0")
          three)).
Proof.
  assert (nodeAt three (InstallDir (tofu false)) = Some (Dir threeEntries))
    as Hnode by (vm_compute; reflexivity).
  split; [apply sampleSortLaws|]. split; [reflexivity|]. split; [reflexivity|].
  split; [exact Hnode|].
  assert (NewVersion "latest" = None) as Hversion by reflexivity.
  assert (ParsePredicate "latest" (tofu false) three
          = (({| Predicate := λ _, true; ReverseOrder := true |}, None), three))
    as Hparse by reflexivity.
  assert (ForceRemote (conf (tofu false)) = false) as Hforce by reflexivity.
  destruct (evaluate_local_hit (laws := sampleSortLaws) (tofu false) "latest"
              true three three
              {| Predicate := λ _, true; ReverseOrder := true |}
              threeEntries [] ["1.6.0"; "1.5.7"] "1.10.0"
              Hversion Hparse Hforce Hnode)
    as [Hrun _].
  - vm_compute. reflexivity.
  - constructor.
  - reflexivity.
  - exact Hrun.
Defined.

Lemma list_remote_sorted_witness :
  SortLaws ∧
  (ListRemote (tofu false) true fresh).1 = (["1.6.2"; "1.6.0"; "1.5.0"], None).
Proof.
  split; [apply sampleSortLaws|].
  pose proof (list_remote_sorted (laws := sampleSortLaws) (tofu false) true
                fresh) as Hlisted.
  simpl in Hlisted. destruct Hlisted as (versions & Hrun & _).
  rewrite Hrun. vm_compute in Hrun. by injection Hrun as <-.
Defined.

Lemma uninstall_confirmed_witness :
  nodeAt three (InstallDir (tofu false)) = Some (Dir threeEntries) ∧
  NewVersion "not-used-for:1d" = None ∧
  (Uninstall (tofu false) "not-used-for:1d" "yes" three).1 = (None, "es") ∧
  ∃ entries',
    nodeAt (Uninstall (tofu false) "not-used-for:1d" "yes" three).2
      (InstallDir (tofu false)) = Some (Dir entries') ∧
    entries' !! "1.10.0" = None ∧
    entries' !! "1.6.0" = Some (Dir ∅).
Proof.
  assert (nodeAt three (InstallDir (tofu false)) = Some (Dir threeEntries))
    as Hnode by (vm_compute; reflexivity).
  split; [exact Hnode|]. split; [reflexivity|].
  assert (NewVersion "not-used-for:1d" = None) as Hparse by reflexivity.
  destruct (uninstall_confirmed (tofu false) "not-used-for:1d" "yes" "es"
              "y"%char three threeEntries ["1.10.0"; "1.5.7"] [] Hnode Hparse)
    as (Hresult & entries' & Hafter & Hkept).
  - vm_compute. reflexivity.
  - done.
  - apply Forall_cons_2; [right; by repeat split|].
    apply Forall_cons_2; [right; by repeat split|].
    apply Forall_nil_2.
  - reflexivity.
  - by left.
  - split; [exact Hresult|]. exists entries'. split; [exact Hafter|].
    rewrite !Hkept. split; vm_compute; reflexivity.
Defined.

Lemma set_constraint_writes_witness :
  NewConstraint "~> 1.6" = None ∧
  nodeAt installed (InstallDir (tofu false))
  = Some (Dir {[ "1.6.2" := Dir {[ "tofu" := File "tofu 1.6.2" ]} ]}) ∧
  (SetConstraint (tofu false) "~> 1.6" installed).1 = None ∧
  nodeAt (SetConstraint (tofu false) "~> 1.6" installed).2
    (InstallDir (tofu false))
  = Some (Dir (<["constraint" := File "~> 1.6"]>
                 {[ "1.6.2" := Dir {[ "tofu" := File "tofu 1.6.2" ]} ]})).
Proof.
  split; [reflexivity|]. split; [vm_compute; reflexivity|].
  destruct (set_constraint_writes (tofu false) "~> 1.6" installed)
    as (_ & _ & Hdone).
  apply (Hdone ["home"; "u"; ".tenv"; "OpenTofu"]
           {[ "1.6.2" := Dir {[ "tofu" := File "tofu 1.6.2" ]} ]}).
  - reflexivity.
  - reflexivity.
  - vm_compute. reflexivity.
  - intros sub. by vm_compute.
  - reflexivity.
Defined.

Lemma reset_removes_root_file_witness :
  nodeAt three (InstallDir (tofu false)) = Some (Dir threeEntries) ∧
  nodeAt three (RootVersionFilePath (tofu false)) = Some (File "1.6.0") ∧
  (ResetVersion (tofu false) three).1 = None ∧
  nodeAt (ResetVersion (tofu false) three).2 (InstallDir (tofu false))
  = Some (Dir (delete "version" threeEntries)) ∧
  nodeAt (ResetVersion (tofu false) three).2 (RootVersionFilePath (tofu false))
  = None.
Proof.
  assert (nodeAt three (InstallDir (tofu false)) = Some (Dir threeEntries))
    as Hnode by (vm_compute; reflexivity).
  split; [exact Hnode|]. split; [vm_compute; reflexivity|].
  destruct (reset_removes_root_file (tofu false) three)
    as ((Hfile & _ & Hdone) & _).
  destruct (Hdone threeEntries Hnode) as [Hnil Hdir].
  split; [exact Hnil|]. split; [exact Hdir|].
  rewrite Hnil in Hfile. apply Hfile.
Defined.


End WitnessesMore.

(** * A disk that fails *)

Section FullDisk.

Import OS Manager Samples.

#[local] Existing Instance samplePackages.
#[local] Existing Instance sampleHelpers.
#[local] Existing Instance fullDisk.

(** On a full disk the constraint file is emptied, the error of the
    writing returned and nothing displayed. *)
Example SetConstraint_on_full_disk :
  nodeAt constrained (RootConstraintFilePath (tofu false))
  = Some (File "~> 1.5") ∧
  (SetConstraint (tofu false) "~> 1.6" constrained).1
  = Some (ErrForeign "no space left on device") ∧
  nodeAt (SetConstraint (tofu false) "~> 1.6" constrained).2
    (RootConstraintFilePath (tofu false))
  = Some (File "") ∧
  events (SetConstraint (tofu false) "~> 1.6" constrained).2 = [].
Proof. repeat split; vm_compute; reflexivity. Qed.

End FullDisk.
